(** * ThreadPool: a model of the worker pool and its two revisions

    The repository holds one class, [ThreadPool], in two revisions:
    - [V1] is src/ThreadPool.hpp (detach only),
    - [V2] is src/unnamed/part_000 (detach, run_tasks, run_loop).

    The class is modelled as a transition system.  Every thread is
    represented by its control point; one transition is one statement of
    the source executed by one thread.  The data members of the class are
    the fields of [ThreadPool]; what lives outside the object (the
    semaphores in the callers' frames, the callers themselves, the history
    of queue and task events) is in [world].

    Callables are opaque: a [callable] is the identity of a
    [std::function]; invoking one is recorded in the history and has no
    other effect on the pool: it returns, does not throw and does not call
    back into the pool.  Atomics and the mutex are sequentially
    consistent, [size_t] has 64 bits, and thread creation does not fail. *)

From Stdlib Require Import ZArith String.
From stdpp Require Import numbers list.

Local Open Scope Z_scope.

(** ** Integers of the source *)

(** [size_t] is 64 bits wide. *)
Definition size_t_bits : Z := 64.
Definition size_t_modulus : Z := 2 ^ size_t_bits.

(** The integral types a loop body may take as its argument
    ([std::is_integral_v<arg_type>]); [bool] is left out, [++i] does not
    compile for it. *)
Inductive width := W8 | W16 | W32 | W64.

Record int_type := IntType { it_signed : bool; it_width : width }.

Definition bits (w : width) : Z :=
  match w with W8 => 8 | W16 => 16 | W32 => 32 | W64 => 64 end.

Definition type_size_t : int_type := IntType false W64.
Definition type_int : int_type := IntType true W32.
Definition type_uint8_t : int_type := IntType false W8.

(** Conversion of an integer value to [ty] (modular, as C++20 defines it). *)
Definition convert (ty : int_type) (z : Z) : Z :=
  let m := z mod 2 ^ bits (it_width ty) in
  if it_signed ty && (2 ^ (bits (it_width ty) - 1) <=? m)
  then m - 2 ^ bits (it_width ty) else m.

(** The value of [i] after the conversion to [size_t] that the comparison
    [i < end] applies to its left operand. *)
Definition to_size_t (z : Z) : Z := z mod size_t_modulus.

(** [++i] at type [ty].  Types narrower than [int] are promoted, incremented
    and converted back; unsigned types wrap; a signed [int] or [long] at its
    maximum has no defined successor. *)
Definition incr (ty : int_type) (i : Z) : option Z :=
  match it_width ty with
  | W8 | W16 => Some (convert ty (i + 1))
  | W32 | W64 =>
      if it_signed ty
      then if i + 1 <? 2 ^ (bits (it_width ty) - 1) then Some (i + 1) else None
      else Some ((i + 1) mod 2 ^ bits (it_width ty))
  end.

(** ** Callables, jobs and events *)

(** The identity of a [std::function] object. *)
Definition callable := nat.

(** The two admissible shapes of [Func] in [run_loop]:
    [std::function<void()>] and [std::function<void(T)>], [T] integral. *)
Inductive Body :=
| Body0 (f : callable)
| BodyI (ty : int_type) (f : callable).

(** [induction_type]: [size_t] when the body is invocable without argument,
    [arg_type] otherwise. *)
Definition induction_type (b : Body) : int_type :=
  match b with
  | Body0 _ => type_size_t
  | BodyI ty _ => ty
  end.

(** What sits in the queue: the closure a [Job] wraps. *)
Inductive Job :=
| JTask (task : callable)
    (* Job{std::move(task)}: the caller's callable itself *)
| JRun (task : callable) (sem : nat)
    (* [&]() { task(); sem.release(); } *)
| JLoop (loop_body : Body) (i : Z) (sem : nat).
    (* [&, i]() { loop_body() or loop_body(i); sem.release(); } *)

(** The semaphore a closure releases, if any. *)
Definition job_sem (j : Job) : option nat :=
  match j with
  | JTask _ => None
  | JRun _ s => Some s
  | JLoop _ _ s => Some s
  end.

(** The call the closure makes first: the callable and its argument. *)
Definition job_call (j : Job) : callable * option Z :=
  match j with
  | JTask t => (t, None)
  | JRun t _ => (t, None)
  | JLoop (Body0 f) _ _ => (f, None)
  | JLoop (BodyI _ f) i _ => (f, Some i)
  end.

Inductive event :=
| EvPush (j : Job)       (* jobs.push / jobs.emplace *)
| EvPop (j : Job)        (* jobs.front(); jobs.pop() *)
| EvInvoke (j : Job)     (* the callable inside [j] was invoked *)
| EvRelease (j : Job)    (* [j] executed sem.release() *)
| EvAcquire (s : nat).   (* a caller returned from sem.acquire() *)

(** ** Control points *)

Inductive owner :=
| OWorker (w : nat)
| OClient (c : nat).

(** Control points of [worker_loop]. *)
Inductive wpc :=
| WLoop               (* while (running.load()) *)
| WLock               (* std::unique_lock lock(data_lock): acquiring *)
| WPred               (* cv.wait: evaluating the predicate, lock held *)
| WWait               (* cv.wait: predicate false, about to release and block *)
| WBlocked            (* cv.wait: blocked, or woken and re-acquiring the lock *)
| WCheck              (* if (!running.load()) *)
| WPop                (* Job job = std::move(jobs.front()); jobs.pop(); *)
| WUnlock (j : Job)   (* lock.unlock(); *)
| WExec (j : Job)     (* job.job(): about to invoke the inner callable *)
| WRelease (j : Job)  (* inside the closure: sem.release(); *)
| WExit.              (* returned from worker_loop *)

(** Control points of the callers, one group per method. *)
Inductive cpc :=
| CIdle
(* detach_task(task) *)
| DT_lock (task : callable)
| DT_push (task : callable)
| DT_unlock
| DT_notify
(* detach_tasks(tasks): vector (V1) or span (V2) *)
| DTs_lock (tasks : list callable)
| DTs_loop (rest : list callable)
| DTs_unlock
| DTs_notify
(* detach_tasks(tasks, num_tasks) (V1) *)
| DTa_lock (tasks : list callable) (num_tasks : Z)
| DTa_loop (tasks : list callable) (num_tasks : Z) (i : Z)
| DTa_unlock
| DTa_notify
(* run_tasks(tasks) (V2) *)
| RT_sem (tasks : list callable)
| RT_lock (tasks : list callable) (sem : nat)
| RT_loop (tasks : list callable) (sem : nat) (rest : list callable)
| RT_unlock (tasks : list callable) (sem : nat)
| RT_notify (tasks : list callable) (sem : nat)
| RT_acquire (tasks : list callable) (sem : nat) (i : nat)
| RT_ret (tasks : list callable) (sem : nat)
(* run_loop(start, end, loop_body) (V2) *)
| RL_sem (start end_ : Z) (b : Body)
| RL_lock (start end_ : Z) (b : Body) (sem : nat)
| RL_loop (start end_ : Z) (b : Body) (sem : nat) (i : Z)
| RL_unlock (start end_ : Z) (b : Body) (sem : nat)
| RL_notify (start end_ : Z) (b : Body) (sem : nat)
| RL_acquire (start end_ : Z) (b : Body) (sem : nat) (i : Z)
| RL_ret (start end_ : Z) (b : Body) (sem : nat)
(* ~ThreadPool() *)
| D_store
| D_notify
| D_join (k : nat).

(** ** The object and its surroundings *)

Record ThreadPool := mkPool {
  running : bool;              (* std::atomic<bool> running = true *)
  threads : list wpc;          (* std::vector<std::thread> threads *)
  jobs : list Job;             (* std::queue<Job> jobs; the head is front() *)
  data_lock : option owner;    (* std::mutex data_lock; None: free *)
  cv : list nat                (* std::condition_variable cv: blocked workers *)
}.

Inductive lifetime := Alive | Destroying | Destroyed.

Record world := mkWorld {
  pool : ThreadPool;
  life : lifetime;
  sems : list nat;             (* the counting semaphores of the callers *)
  clients : list cpc;
  log : list event
}.

Inductive exn := runtime_error (what : string).

Inductive result (A : Type) :=
| Ok (a : A)
| Throw (e : exn).
Arguments Ok {A} a.
Arguments Throw {A} e.

(** The methods a caller can invoke. *)
Inductive call :=
| CReset (num_threads : Z)
| CDetachTask (task : callable)
| CDetachTasks (tasks : list callable)
| CDetachTasksArr (tasks : list callable) (num_tasks : Z)
| CRunTasks (tasks : list callable)
| CRunLoop (start end_ : Z) (b : Body)
| CDestroy.

(** One transition: which thread moves.  [choice] is the waiter that a
    [notify_one] executed in this step wakes. *)
Inductive label :=
| LWorker (w : nat)
| LSpurious (w : nat)
| LCall (c : nat) (m : call)
| LClient (c : nat) (choice : nat).

Inductive revision := Rev1 | Rev2.

(** ** Field updates *)

Definition set_running (b : bool) (p : ThreadPool) : ThreadPool :=
  mkPool b (threads p) (jobs p) (data_lock p) (cv p).
Definition set_threads (t : list wpc) (p : ThreadPool) : ThreadPool :=
  mkPool (running p) t (jobs p) (data_lock p) (cv p).
Definition set_jobs (q : list Job) (p : ThreadPool) : ThreadPool :=
  mkPool (running p) (threads p) q (data_lock p) (cv p).
Definition set_data_lock (o : option owner) (p : ThreadPool) : ThreadPool :=
  mkPool (running p) (threads p) (jobs p) o (cv p).
Definition set_cv (l : list nat) (p : ThreadPool) : ThreadPool :=
  mkPool (running p) (threads p) (jobs p) (data_lock p) l.

Definition set_pool (p : ThreadPool) (σ : world) : world :=
  mkWorld p (life σ) (sems σ) (clients σ) (log σ).
Definition set_life (l : lifetime) (σ : world) : world :=
  mkWorld (pool σ) l (sems σ) (clients σ) (log σ).
Definition set_sems (s : list nat) (σ : world) : world :=
  mkWorld (pool σ) (life σ) s (clients σ) (log σ).
Definition set_clients (cs : list cpc) (σ : world) : world :=
  mkWorld (pool σ) (life σ) (sems σ) cs (log σ).
Definition emit (e : event) (σ : world) : world :=
  mkWorld (pool σ) (life σ) (sems σ) (clients σ) (log σ ++ [e]).

Definition set_thread (w : nat) (pc : wpc) (σ : world) : world :=
  set_pool (set_threads (<[w := pc]> (threads (pool σ))) (pool σ)) σ.
Definition set_client (c : nat) (pc : cpc) (σ : world) : world :=
  set_clients (<[c := pc]> (clients σ)) σ.

(** ** Library primitives *)

(** [std::mutex::lock]: enabled only when the mutex is free. *)
Definition mutex_lock (o : owner) (p : ThreadPool) : option ThreadPool :=
  match data_lock p with
  | None => Some (set_data_lock (Some o) p)
  | Some _ => None
  end.

Definition mutex_unlock (p : ThreadPool) : ThreadPool :=
  set_data_lock None p.

Definition is_waiting (w : nat) (p : ThreadPool) : bool :=
  existsb (Nat.eqb w) (cv p).

Definition remove_waiter (w : nat) (p : ThreadPool) : ThreadPool :=
  set_cv (filter (λ x, x ≠ w) (cv p)) p.

(** [cv.notify_all()] *)
Definition notify_all (p : ThreadPool) : ThreadPool := set_cv [] p.

(** The wait set after one waiter, [choice], is woken; nothing to do when
    no thread waits. *)
Definition wake_one (choice : nat) (waiters : list nat) : option (list nat) :=
  match waiters with
  | [] => Some []
  | _ => if existsb (Nat.eqb choice) waiters
         then Some (filter (λ x, x ≠ choice) waiters)
         else None
  end.

(** [cv.notify_one()] *)
Definition notify_one (choice : nat) (p : ThreadPool) : option ThreadPool :=
  l ← wake_one choice (cv p);
  Some (set_cv l p).

(** [jobs.empty()] *)
Definition empty (q : list Job) : bool :=
  match q with
  | [] => true
  | _ :: _ => false
  end.

(** [jobs.push(j)] / [jobs.emplace(j)] *)
Definition push (j : Job) (σ : world) : world :=
  emit (EvPush j) (set_pool (set_jobs (jobs (pool σ) ++ [j]) (pool σ)) σ).

(** [sem.release()] *)
Definition sem_release (s : nat) (σ : world) : option world :=
  n ← sems σ !! s;
  Some (set_sems (<[s := S n]> (sems σ)) σ).

(** [sem.acquire()]: enabled only when the counter is positive. *)
Definition sem_acquire (s : nat) (σ : world) : option world :=
  n ← sems σ !! s;
  match n with
  | O => None
  | S n' => Some (emit (EvAcquire s) (set_sems (<[s := n']> (sems σ)) σ))
  end.

(** The object before the constructor body runs: the default member
    initialisers. *)
Definition fresh_pool : ThreadPool := mkPool true [] [] None [].

(** ** Revision 2: src/unnamed/part_000 *)

Module V2.

(** [void reset(size_t num_threads)]: the outcome and the object afterwards. *)
Definition reset (num_threads : Z) (p : ThreadPool) : result unit * ThreadPool :=
  if Z.of_nat (length (threads p)) <=? num_threads then
    (* for (size_t i = threads.size(); i < num_threads; i++)
         threads.emplace_back([this] { worker_loop(); }); *)
    (Ok tt,
     foldl (λ p' _, set_threads (threads p' ++ [WLoop]) p') p
           (seqZ (Z.of_nat (length (threads p)))
                 (num_threads - Z.of_nat (length (threads p)))))
  else (Throw (runtime_error "Cannot downscale thread pool"), p).

(** [size_t size() const] *)
Definition size (p : ThreadPool) : Z := Z.of_nat (length (threads p)).

(** [ThreadPool()], given what [std::thread::hardware_concurrency()] returns. *)
Definition ThreadPool_default (hardware_concurrency : Z) : result unit * ThreadPool :=
  reset hardware_concurrency fresh_pool.

(** [explicit ThreadPool(size_t num_threads)] *)
Definition ThreadPool_explicit (num_threads : Z) : result unit * ThreadPool :=
  reset num_threads fresh_pool.

(** [~ThreadPool()] *)
Definition ThreadPool_dtor (c : nat) (pc : cpc) (σ : world) : option (cpc * world) :=
  match pc with
  | D_store => (* running = false; *)
      Some (D_notify, set_pool (set_running false (pool σ)) σ)
  | D_notify => (* cv.notify_all(); *)
      Some (D_join 0, set_pool (notify_all (pool σ)) σ)
  | D_join k => (* for (auto& thread : threads) thread.join(); *)
      match threads (pool σ) !! k with
      | Some WExit => Some (D_join (S k), σ)
      | Some _ => None
      | None => Some (CIdle, set_life Destroyed σ)
      end
  | _ => None
  end.

(** [void detach_task(std::function<void()>&& task)] *)
Definition detach_task (c choice : nat) (pc : cpc) (σ : world) : option (cpc * world) :=
  match pc with
  | DT_lock t => (* std::scoped_lock<std::mutex> lock(data_lock); *)
      p ← mutex_lock (OClient c) (pool σ);
      Some (DT_push t, set_pool p σ)
  | DT_push t => (* jobs.emplace(std::move(task)); *)
      Some (DT_unlock, push (JTask t) σ)
  | DT_unlock => (* end of the inner block *)
      Some (DT_notify, set_pool (mutex_unlock (pool σ)) σ)
  | DT_notify => (* cv.notify_one(); *)
      p ← notify_one choice (pool σ);
      Some (CIdle, set_pool p σ)
  | _ => None
  end.

(** [void detach_tasks(std::span<std::function<void()>> tasks)] *)
Definition detach_tasks (c : nat) (pc : cpc) (σ : world) : option (cpc * world) :=
  match pc with
  | DTs_lock ts =>
      p ← mutex_lock (OClient c) (pool σ);
      Some (DTs_loop ts, set_pool p σ)
  | DTs_loop (t :: rest) => (* for (auto& task : tasks) jobs.emplace(std::move(task)); *)
      Some (DTs_loop rest, push (JTask t) σ)
  | DTs_loop [] =>
      Some (DTs_unlock, σ)
  | DTs_unlock =>
      Some (DTs_notify, set_pool (mutex_unlock (pool σ)) σ)
  | DTs_notify => (* cv.notify_all(); *)
      Some (CIdle, set_pool (notify_all (pool σ)) σ)
  | _ => None
  end.

(** [void run_tasks(std::span<std::function<void()>> tasks)] *)
Definition run_tasks (c : nat) (pc : cpc) (σ : world) : option (cpc * world) :=
  match pc with
  | RT_sem ts => (* std::counting_semaphore sem(0); *)
      Some (RT_lock ts (length (sems σ)), set_sems (sems σ ++ [O]) σ)
  | RT_lock ts s =>
      p ← mutex_lock (OClient c) (pool σ);
      Some (RT_loop ts s ts, set_pool p σ)
  | RT_loop ts s (t :: rest) =>
      (* for (auto& task : tasks)
           jobs.emplace([&]() { task(); sem.release(); }); *)
      Some (RT_loop ts s rest, push (JRun t s) σ)
  | RT_loop ts s [] =>
      Some (RT_unlock ts s, σ)
  | RT_unlock ts s =>
      Some (RT_notify ts s, set_pool (mutex_unlock (pool σ)) σ)
  | RT_notify ts s => (* cv.notify_all(); *)
      Some (RT_acquire ts s O, set_pool (notify_all (pool σ)) σ)
  | RT_acquire ts s i =>
      (* for (size_t i = 0; i < tasks.size(); i++) sem.acquire(); *)
      if (i <? length ts)%nat then
        σ' ← sem_acquire s σ;
        Some (RT_acquire ts s (S i), σ')
      else Some (RT_ret ts s, σ)
  | RT_ret ts s =>
      Some (CIdle, σ)
  | _ => None
  end.

(** [void run_loop(size_t start, size_t end, Func&& loop_body)] *)
Definition run_loop (c : nat) (pc : cpc) (σ : world) : option (cpc * world) :=
  match pc with
  | RL_sem a e b => (* std::counting_semaphore sem(0); *)
      Some (RL_lock a e b (length (sems σ)), set_sems (sems σ ++ [O]) σ)
  | RL_lock a e b s =>
      (* std::scoped_lock lock(data_lock); induction_type i = start; *)
      p ← mutex_lock (OClient c) (pool σ);
      Some (RL_loop a e b s (convert (induction_type b) a), set_pool p σ)
  | RL_loop a e b s i =>
      (* for (induction_type i = start; i < end; ++i)
           jobs.emplace([&, i]() { ...; sem.release(); }); *)
      if to_size_t i <? e then
        i' ← incr (induction_type b) i;
        Some (RL_loop a e b s i', push (JLoop b i s) σ)
      else Some (RL_unlock a e b s, σ)
  | RL_unlock a e b s =>
      Some (RL_notify a e b s, set_pool (mutex_unlock (pool σ)) σ)
  | RL_notify a e b s => (* cv.notify_all(); *)
      Some (RL_acquire a e b s a, set_pool (notify_all (pool σ)) σ)
  | RL_acquire a e b s i =>
      (* for (size_t i = start; i < end; i++) sem.acquire(); *)
      if i <? e then
        σ' ← sem_acquire s σ;
        Some (RL_acquire a e b s (i + 1), σ')
      else Some (RL_ret a e b s, σ)
  | RL_ret a e b s =>
      Some (CIdle, σ)
  | _ => None
  end.

(** [void worker_loop()], run by thread [w]. *)
Definition worker_loop (w : nat) (σ : world) : option world :=
  pc ← threads (pool σ) !! w;
  match pc with
  | WLoop => (* while (running.load()) *)
      Some (set_thread w (if running (pool σ) then WLock else WExit) σ)
  | WLock => (* std::unique_lock<std::mutex> lock(data_lock); *)
      p ← mutex_lock (OWorker w) (pool σ);
      Some (set_thread w WPred (set_pool p σ))
  | WPred => (* cv.wait(lock, [this] { return !jobs.empty() || !running.load(); }) *)
      if negb (empty (jobs (pool σ))) || negb (running (pool σ))
      then Some (set_thread w WCheck σ)
      else Some (set_thread w WWait σ)
  | WWait => (* wait(lock): release the mutex and block, atomically *)
      Some (set_thread w WBlocked
              (set_pool (set_cv (cv (pool σ) ++ [w]) (mutex_unlock (pool σ))) σ))
  | WBlocked => (* woken: re-acquire the mutex, evaluate the predicate again *)
      if is_waiting w (pool σ) then None
      else
        p ← mutex_lock (OWorker w) (pool σ);
        Some (set_thread w WPred (set_pool p σ))
  | WCheck => (* if (!running.load()) return; *)
      if negb (running (pool σ))
      then Some (set_thread w WExit (set_pool (mutex_unlock (pool σ)) σ))
      else Some (set_thread w WPop σ)
  | WPop => (* Job job = std::move(jobs.front()); jobs.pop(); *)
      match jobs (pool σ) with
      | [] => None
      | j :: q =>
          Some (set_thread w (WUnlock j)
                  (emit (EvPop j) (set_pool (set_jobs q (pool σ)) σ)))
      end
  | WUnlock j => (* lock.unlock(); *)
      Some (set_thread w (WExec j) (set_pool (mutex_unlock (pool σ)) σ))
  | WExec j => (* job.job(); *)
      Some (set_thread w (match job_sem j with
                          | None => WLoop
                          | Some _ => WRelease j
                          end)
              (emit (EvInvoke j) σ))
  | WRelease j => (* sem.release(); then the closure returns *)
      s ← job_sem j;
      σ' ← sem_release s σ;
      Some (set_thread w WLoop (emit (EvRelease j) σ'))
  | WExit => None
  end.

(** The statement a caller executes next. *)
Definition client_step (c choice : nat) (pc : cpc) (σ : world) : option (cpc * world) :=
  match pc with
  | CIdle => None
  | DT_lock _ | DT_push _ | DT_unlock | DT_notify => detach_task c choice pc σ
  | DTs_lock _ | DTs_loop _ | DTs_unlock | DTs_notify => detach_tasks c pc σ
  | DTa_lock _ _ | DTa_loop _ _ _ | DTa_unlock | DTa_notify => None
  | RT_sem _ | RT_lock _ _ | RT_loop _ _ _ | RT_unlock _ _ | RT_notify _ _
  | RT_acquire _ _ _ | RT_ret _ _ => run_tasks c pc σ
  | RL_sem _ _ _ | RL_lock _ _ _ _ | RL_loop _ _ _ _ _ | RL_unlock _ _ _ _
  | RL_notify _ _ _ _ | RL_acquire _ _ _ _ _ | RL_ret _ _ _ _ => run_loop c pc σ
  | D_store | D_notify | D_join _ => ThreadPool_dtor c pc σ
  end.

(** Entering a method.  [reset] runs to its end in one step. *)
Definition enter (m : call) (σ : world) : option (cpc * world) :=
  match m with
  | CReset n => Some (CIdle, set_pool (snd (reset n (pool σ))) σ)
  | CDetachTask t => Some (DT_lock t, σ)
  | CDetachTasks ts => Some (DTs_lock ts, σ)
  | CDetachTasksArr _ _ => None
  | CRunTasks ts => Some (RT_sem ts, σ)
  | CRunLoop a e b => Some (RL_sem a e b, σ)
  | CDestroy =>
      match life σ with
      | Alive => Some (D_store, set_life Destroying σ)
      | _ => None
      end
  end.

End V2.

(** ** Revision 1: src/ThreadPool.hpp *)

Module V1.

(** [void reset(size_t num_threads)] *)
Definition reset (num_threads : Z) (p : ThreadPool) : result unit * ThreadPool :=
  if Z.of_nat (length (threads p)) <=? num_threads then
    (Ok tt,
     foldl (λ p' _, set_threads (threads p' ++ [WLoop]) p') p
           (seqZ (Z.of_nat (length (threads p)))
                 (num_threads - Z.of_nat (length (threads p)))))
  else (Throw (runtime_error "Cannot downscale thread pool"), p).

(** [size_t size()] *)
Definition size (p : ThreadPool) : Z := Z.of_nat (length (threads p)).

(** [ThreadPool()] *)
Definition ThreadPool_default (hardware_concurrency : Z) : result unit * ThreadPool :=
  reset hardware_concurrency fresh_pool.

(** [explicit ThreadPool(size_t num_threads)] *)
Definition ThreadPool_explicit (num_threads : Z) : result unit * ThreadPool :=
  reset num_threads fresh_pool.

(** [~ThreadPool()] *)
Definition ThreadPool_dtor (c : nat) (pc : cpc) (σ : world) : option (cpc * world) :=
  match pc with
  | D_store =>
      Some (D_notify, set_pool (set_running false (pool σ)) σ)
  | D_notify =>
      Some (D_join 0, set_pool (notify_all (pool σ)) σ)
  | D_join k =>
      match threads (pool σ) !! k with
      | Some WExit => Some (D_join (S k), σ)
      | Some _ => None
      | None => Some (CIdle, set_life Destroyed σ)
      end
  | _ => None
  end.

(** [void detach_task(std::function<void()>&& task)]: the lock is a local
    of the whole function, so the notification is sent while it is held. *)
Definition detach_task (c choice : nat) (pc : cpc) (σ : world) : option (cpc * world) :=
  match pc with
  | DT_lock t => (* std::unique_lock<std::mutex> lock(data_lock); *)
      p ← mutex_lock (OClient c) (pool σ);
      Some (DT_push t, set_pool p σ)
  | DT_push t => (* jobs.push({std::move(task)}); *)
      Some (DT_notify, push (JTask t) σ)
  | DT_notify => (* cv.notify_one(); *)
      p ← notify_one choice (pool σ);
      Some (DT_unlock, set_pool p σ)
  | DT_unlock => (* end of the function *)
      Some (CIdle, set_pool (mutex_unlock (pool σ)) σ)
  | _ => None
  end.

(** [void detach_tasks(std::vector<std::function<void()>>&& tasks)] *)
Definition detach_tasks (c : nat) (pc : cpc) (σ : world) : option (cpc * world) :=
  match pc with
  | DTs_lock ts =>
      p ← mutex_lock (OClient c) (pool σ);
      Some (DTs_loop ts, set_pool p σ)
  | DTs_loop (t :: rest) => (* for (auto& task : tasks) jobs.push({std::move(task)}); *)
      Some (DTs_loop rest, push (JTask t) σ)
  | DTs_loop [] =>
      Some (DTs_notify, σ)
  | DTs_notify => (* cv.notify_all(); *)
      Some (DTs_unlock, set_pool (notify_all (pool σ)) σ)
  | DTs_unlock =>
      Some (CIdle, set_pool (mutex_unlock (pool σ)) σ)
  | _ => None
  end.

(** [void detach_tasks(std::function<void()>* tasks, size_t num_tasks)];
    reading past the end of the array has no defined behaviour. *)
Definition detach_tasks_array (c : nat) (pc : cpc) (σ : world) : option (cpc * world) :=
  match pc with
  | DTa_lock ts n =>
      p ← mutex_lock (OClient c) (pool σ);
      Some (DTa_loop ts n 0, set_pool p σ)
  | DTa_loop ts n i => (* for (size_t i = 0; i < num_tasks; i++) jobs.push({std::move(tasks[i])}); *)
      if i <? n then
        t ← ts !! Z.to_nat i;
        Some (DTa_loop ts n (i + 1), push (JTask t) σ)
      else Some (DTa_notify, σ)
  | DTa_notify => (* cv.notify_all(); *)
      Some (DTa_unlock, set_pool (notify_all (pool σ)) σ)
  | DTa_unlock =>
      Some (CIdle, set_pool (mutex_unlock (pool σ)) σ)
  | _ => None
  end.

(** [void worker_loop()], run by thread [w]. *)
Definition worker_loop (w : nat) (σ : world) : option world :=
  pc ← threads (pool σ) !! w;
  match pc with
  | WLoop => (* while (running.load()) *)
      Some (set_thread w (if running (pool σ) then WLock else WExit) σ)
  | WLock => (* std::unique_lock<std::mutex> lock(data_lock); *)
      p ← mutex_lock (OWorker w) (pool σ);
      Some (set_thread w WPred (set_pool p σ))
  | WPred => (* cv.wait(lock, [this] { return !jobs.empty() || !running.load(); }) *)
      if negb (empty (jobs (pool σ))) || negb (running (pool σ))
      then Some (set_thread w WCheck σ)
      else Some (set_thread w WWait σ)
  | WWait =>
      Some (set_thread w WBlocked
              (set_pool (set_cv (cv (pool σ) ++ [w]) (mutex_unlock (pool σ))) σ))
  | WBlocked =>
      if is_waiting w (pool σ) then None
      else
        p ← mutex_lock (OWorker w) (pool σ);
        Some (set_thread w WPred (set_pool p σ))
  | WCheck => (* if (!running.load()) return; *)
      if negb (running (pool σ))
      then Some (set_thread w WExit (set_pool (mutex_unlock (pool σ)) σ))
      else Some (set_thread w WPop σ)
  | WPop => (* Job job = std::move(jobs.front()); jobs.pop(); *)
      match jobs (pool σ) with
      | [] => None
      | j :: q =>
          Some (set_thread w (WUnlock j)
                  (emit (EvPop j) (set_pool (set_jobs q (pool σ)) σ)))
      end
  | WUnlock j => (* lock.unlock(); *)
      Some (set_thread w (WExec j) (set_pool (mutex_unlock (pool σ)) σ))
  | WExec j => (* job.job(); *)
      Some (set_thread w (match job_sem j with
                          | None => WLoop
                          | Some _ => WRelease j
                          end)
              (emit (EvInvoke j) σ))
  | WRelease j =>
      s ← job_sem j;
      σ' ← sem_release s σ;
      Some (set_thread w WLoop (emit (EvRelease j) σ'))
  | WExit => None
  end.

Definition client_step (c choice : nat) (pc : cpc) (σ : world) : option (cpc * world) :=
  match pc with
  | CIdle => None
  | DT_lock _ | DT_push _ | DT_unlock | DT_notify => detach_task c choice pc σ
  | DTs_lock _ | DTs_loop _ | DTs_unlock | DTs_notify => detach_tasks c pc σ
  | DTa_lock _ _ | DTa_loop _ _ _ | DTa_unlock | DTa_notify => detach_tasks_array c pc σ
  | RT_sem _ | RT_lock _ _ | RT_loop _ _ _ | RT_unlock _ _ | RT_notify _ _
  | RT_acquire _ _ _ | RT_ret _ _ => None
  | RL_sem _ _ _ | RL_lock _ _ _ _ | RL_loop _ _ _ _ _ | RL_unlock _ _ _ _
  | RL_notify _ _ _ _ | RL_acquire _ _ _ _ _ | RL_ret _ _ _ _ => None
  | D_store | D_notify | D_join _ => ThreadPool_dtor c pc σ
  end.

Definition enter (m : call) (σ : world) : option (cpc * world) :=
  match m with
  | CReset n => Some (CIdle, set_pool (snd (reset n (pool σ))) σ)
  | CDetachTask t => Some (DT_lock t, σ)
  | CDetachTasks ts => Some (DTs_lock ts, σ)
  | CDetachTasksArr ts n => Some (DTa_lock ts n, σ)
  | CRunTasks _ => None
  | CRunLoop _ _ _ => None
  | CDestroy =>
      match life σ with
      | Alive => Some (D_store, set_life Destroying σ)
      | _ => None
      end
  end.

End V1.

(** ** The transition system *)

Definition worker_step (r : revision) (w : nat) (σ : world) : option world :=
  match r with
  | Rev1 => V1.worker_loop w σ
  | Rev2 => V2.worker_loop w σ
  end.

(** A spurious wake-up of a blocked worker, which the standard permits. *)
Definition spurious (w : nat) (σ : world) : option world :=
  if is_waiting w (pool σ)
  then Some (set_pool (remove_waiter w (pool σ)) σ)
  else None.

Definition call_step (r : revision) (c : nat) (m : call) (σ : world) : option world :=
  pc ← clients σ !! c;
  match pc with
  | CIdle =>
      '(pc', σ') ← match r with
                   | Rev1 => V1.enter m σ
                   | Rev2 => V2.enter m σ
                   end;
      Some (set_client c pc' σ')
  | _ => None
  end.

Definition caller_step (r : revision) (c choice : nat) (σ : world) : option world :=
  pc ← clients σ !! c;
  '(pc', σ') ← match r with
               | Rev1 => V1.client_step c choice pc σ
               | Rev2 => V2.client_step c choice pc σ
               end;
  Some (set_client c pc' σ').

Definition fire (r : revision) (l : label) (σ : world) : option world :=
  match l with
  | LWorker w => worker_step r w σ
  | LSpurious w => spurious w σ
  | LCall c m => call_step r c m σ
  | LClient c choice => caller_step r c choice σ
  end.

(** Nothing moves once the object is destroyed. *)
Definition step (r : revision) (l : label) (σ : world) : option world :=
  match life σ with
  | Destroyed => None
  | _ => fire r l σ
  end.

Fixpoint exec (r : revision) (ls : list label) (σ : world) : option world :=
  match ls with
  | [] => Some σ
  | l :: ls' =>
      σ' ← step r l σ;
      exec r ls' σ'
  end.

(** The world right after [ThreadPool pool(num_threads)], with [k] callers
    about to use the pool. *)
Definition init (r : revision) (num_threads : Z) (k : nat) : world :=
  mkWorld (snd (match r with
                | Rev1 => V1.ThreadPool_explicit num_threads
                | Rev2 => V2.ThreadPool_explicit num_threads
                end))
          Alive [] (replicate k CIdle) [].

Inductive reachable (r : revision) : world → Prop :=
| reachable_init n k : reachable r (init r n k)
| reachable_step σ l σ' : reachable r σ → step r l σ = Some σ' → reachable r σ'.

(** ** Histories *)

Definition pushes (h : list event) : list Job :=
  omap (λ e, match e with EvPush j => Some j | _ => None end) h.
Definition pops (h : list event) : list Job :=
  omap (λ e, match e with EvPop j => Some j | _ => None end) h.
Definition invokes (h : list event) : list Job :=
  omap (λ e, match e with EvInvoke j => Some j | _ => None end) h.
Definition releases (h : list event) : list Job :=
  omap (λ e, match e with EvRelease j => Some j | _ => None end) h.
Definition acquires (h : list event) : list nat :=
  omap (λ e, match e with EvAcquire s => Some s | _ => None end) h.

(** The calls made so far: which callable, with which argument. *)
Definition calls (h : list event) : list (callable * option Z) :=
  job_call <$> invokes h.

(** ** Who holds the mutex *)

(** The control points at which a worker owns [data_lock]. *)
Definition w_holds (pc : wpc) : bool :=
  match pc with
  | WPred | WWait | WCheck | WPop | WUnlock _ => true
  | _ => false
  end.

(** The control points at which a caller owns [data_lock].  In revision 1
    the notification is sent before the guard goes out of scope, in
    revision 2 after. *)
Definition c_holds (r : revision) (pc : cpc) : bool :=
  match pc with
  | DT_push _ | DTs_loop _ | DTa_loop _ _ _ | RT_loop _ _ _ | RL_loop _ _ _ _ _ => true
  | DT_unlock | DTs_unlock | DTa_unlock | RT_unlock _ _ | RL_unlock _ _ _ _ => true
  | DT_notify | DTs_notify | DTa_notify =>
      match r with Rev1 => true | Rev2 => false end
  | _ => false
  end.

(** The control points that exist in each revision. *)
Definition pc_of_rev (r : revision) (pc : cpc) : bool :=
  match pc with
  | DTa_lock _ _ | DTa_loop _ _ _ | DTa_unlock | DTa_notify =>
      match r with Rev1 => true | Rev2 => false end
  | RT_sem _ | RT_lock _ _ | RT_loop _ _ _ | RT_unlock _ _ | RT_notify _ _
  | RT_acquire _ _ _ | RT_ret _ _
  | RL_sem _ _ _ | RL_lock _ _ _ _ | RL_loop _ _ _ _ _ | RL_unlock _ _ _ _
  | RL_notify _ _ _ _ | RL_acquire _ _ _ _ _ | RL_ret _ _ _ _ =>
      match r with Rev1 => false | Rev2 => true end
  | _ => true
  end.

Record lock_inv (r : revision) (σ : world) : Prop := {
  li_worker : ∀ w pc, threads (pool σ) !! w = Some pc → w_holds pc = true →
                      data_lock (pool σ) = Some (OWorker w);
  li_client : ∀ c pc, clients σ !! c = Some pc → c_holds r pc = true →
                      data_lock (pool σ) = Some (OClient c);
  li_owner_w : ∀ w, data_lock (pool σ) = Some (OWorker w) →
                    ∃ pc, threads (pool σ) !! w = Some pc ∧ w_holds pc = true;
  li_owner_c : ∀ c, data_lock (pool σ) = Some (OClient c) →
                    ∃ pc, clients σ !! c = Some pc ∧ c_holds r pc = true;
  li_rev : ∀ c pc, clients σ !! c = Some pc → pc_of_rev r pc = true
}.

(** ** Where the jobs are *)

(** The queue discipline: what was pushed is what was popped, in that
    order, followed by what is still queued. *)
Definition fifo (σ : world) : Prop :=
  pushes (log σ) = pops (log σ) ++ jobs (pool σ).

(** The job a worker has taken and not finished. *)
Definition held_job (pc : wpc) : option Job :=
  match pc with
  | WUnlock j | WExec j | WRelease j => Some j
  | _ => None
  end.

Definition inflight (σ : world) : list Job := omap held_job (threads (pool σ)).

(** The job whose callable has returned and whose release is pending. *)
Definition releasing_job (pc : wpc) : option Job :=
  match pc with
  | WRelease j => Some j
  | _ => None
  end.

Definition releasing (σ : world) : list Job := omap releasing_job (threads (pool σ)).

(** The jobs whose closure has run to its end. *)
Definition finished (h : list event) : list Job :=
  omap (λ e, match e with
             | EvInvoke j => match job_sem j with None => Some j | Some _ => None end
             | EvRelease j => Some j
             | _ => None
             end) h.

(** The jobs among [js] that release semaphore [s]. *)
Definition on_sem (s : nat) (js : list Job) : list Job :=
  filter (λ j, job_sem j = Some s) js.

(** How often [s] was acquired. *)
Definition acquired (s : nat) (h : list event) : nat :=
  length (filter (λ x, x = s) (acquires h)).

(** The closure [run_tasks] builds around [task]. *)
Definition wrap (s : nat) (task : callable) : Job := JRun task s.

(** The semaphore in a caller's frame. *)
Definition sem_of (pc : cpc) : option nat :=
  match pc with
  | RT_lock _ s | RT_loop _ s _ | RT_unlock _ s | RT_notify _ s
  | RT_acquire _ s _ | RT_ret _ s => Some s
  | RL_lock _ _ _ s | RL_loop _ _ _ s _ | RL_unlock _ _ _ s
  | RL_notify _ _ _ s | RL_acquire _ _ _ s _ | RL_ret _ _ _ s => Some s
  | _ => None
  end.

(** ** Sample runs *)

(** A caller submits two tasks through [run_tasks] to a pool of one worker;
    the worker takes the first and is about to invoke it. *)
Definition demo_trace : list label :=
  [LCall 0 (CRunTasks [7; 8]%nat)] ++ replicate 7 (LClient 0 0)
  ++ replicate 6 (LWorker 0).

Definition demo_world : world :=
  default (init Rev2 1 1) (exec Rev2 demo_trace (init Rev2 1 1)).

(** The same run continued until [run_tasks] is about to return. *)
Definition demo_trace_done : list label :=
  demo_trace ++ replicate 11 (LWorker 0) ++ replicate 3 (LClient 0 0).

Definition demo_world_done : world :=
  default (init Rev2 1 1) (exec Rev2 demo_trace_done (init Rev2 1 1)).

(** ** Shutdown *)

(** One when the owner of the mutex is a worker that has passed its stop
    check and is about to take the head of the queue, zero otherwise. *)
Definition popping (σ : world) : nat :=
  match data_lock (pool σ) with
  | Some (OWorker w) =>
      match threads (pool σ) !! w with
      | Some WPop => 1
      | _ => 0
      end
  | _ => 0
  end.

(** The caller is in the destructor, past [running = false]. *)
Definition past_store (pc : cpc) : bool :=
  match pc with
  | D_notify | D_join _ => true
  | _ => false
  end.

Record shutdown_inv (σ : world) : Prop := {
  sd_flag : ∀ c pc, clients σ !! c = Some pc → past_store pc = true →
                    running (pool σ) = false;
  sd_joined : ∀ c k w pc, clients σ !! c = Some (D_join k) → (w < k)%nat →
                          threads (pool σ) !! w = Some pc → pc = WExit;
  sd_bound : ∀ c k, clients σ !! c = Some (D_join k) →
                    (k ≤ length (threads (pool σ)))%nat;
  sd_done : life σ = Destroyed →
            running (pool σ) = false ∧
            ∀ w pc, threads (pool σ) !! w = Some pc → pc = WExit
}.

(** The reading of C7 under which every task queued when the stop flag is
    set stays unexecuted: once [running] is false no job leaves the queue. *)
Definition queue_frozen_after_stop (r : revision) : Prop :=
  ∀ σ ls σ', reachable r σ → running (pool σ) = false →
             exec r ls σ = Some σ' → pops (log σ') = pops (log σ).

(** A worker is past its stop check when the destructor sets the flag. *)
Definition race_trace : list label :=
  [LCall 0 (CDetachTask 7%nat)] ++ replicate 4 (LClient 0 0)
  ++ replicate 4 (LWorker 0)
  ++ [LCall 0 CDestroy; LClient 0 0].

Definition race_world (r : revision) : world :=
  default (init r 1 1) (exec r race_trace (init r 1 1)).

Definition race_world_after (r : revision) : world :=
  default (init r 1 1) (exec r (replicate 3 (LWorker 0)) (race_world r)).

(** ** What a whole call does *)

(** The world after an uninterrupted [detach_task(t)] that found the mutex
    free and woke [choice]. *)
Definition after_detach_task (choice : nat) (t : callable) (σ : world) : option world :=
  l ← wake_one choice (cv (pool σ));
  Some (mkWorld (mkPool (running (pool σ)) (threads (pool σ))
                        (jobs (pool σ) ++ [JTask t]) None l)
                (life σ) (sems σ) (clients σ) (log σ ++ [EvPush (JTask t)])).

(** The world after an uninterrupted [detach_tasks(ts)] that found the mutex
    free. *)
Definition after_detach_tasks (ts : list callable) (σ : world) : world :=
  mkWorld (mkPool (running (pool σ)) (threads (pool σ))
                  (jobs (pool σ) ++ (JTask <$> ts)) None [])
          (life σ) (sems σ) (clients σ)
          (log σ ++ ((λ t, EvPush (JTask t)) <$> ts)).

(** The labels of one caller executing a whole call without interruption. *)
Definition whole_detach_task (c choice : nat) (t : callable) : list label :=
  LCall c (CDetachTask t) :: replicate 4 (LClient c choice).

Definition whole_detach_tasks (c choice : nat) (ts : list callable) : list label :=
  LCall c (CDetachTasks ts) :: LClient c choice
  :: replicate (length ts) (LClient c choice) ++ replicate 3 (LClient c choice).

(** ** The bookkeeping of [run_tasks] *)

(** Every taken job is with a worker or has run to its end; every invoked
    job has run to its end or is about to release. *)
Record flight_inv (σ : world) : Prop := {
  fl_pops : pops (log σ) ≡ₚ inflight σ ++ finished (log σ);
  fl_invokes : invokes (log σ) ≡ₚ releasing σ ++ finished (log σ)
}.

(** The index of [run_loop] is a [size_t]: the body takes no argument or
    an unsigned 64-bit one. *)
Definition full_width (b : Body) : Prop := induction_type b = type_size_t.

Definition in_size_t (z : Z) : Prop := 0 ≤ z < size_t_modulus.

(** The closures [run_loop] builds for the [n] indices from [a] on. *)
Definition loop_jobs (b : Body) (s : nat) (a n : Z) : list Job :=
  (λ k, JLoop b k s) <$> seqZ a n.

(** What a caller inside [run_tasks] or [run_loop] knows about its own
    semaphore: which of its closures are pushed and how often it has
    acquired.  For [run_loop] the pushed closures are known when the index
    is a [size_t]. *)
Definition frame_inv (h : list event) (pc : cpc) : Prop :=
  match pc with
  | RT_lock ts s =>
      on_sem s (pushes h) = [] ∧ acquired s h = O
  | RT_loop ts s rest =>
      on_sem s (pushes h) ++ (wrap s <$> rest) = wrap s <$> ts ∧ acquired s h = O
  | RT_unlock ts s | RT_notify ts s =>
      on_sem s (pushes h) = wrap s <$> ts ∧ acquired s h = O
  | RT_acquire ts s i =>
      on_sem s (pushes h) = wrap s <$> ts ∧ acquired s h = i ∧
      (i ≤ length ts)%nat
  | RT_ret ts s =>
      on_sem s (pushes h) = wrap s <$> ts ∧ acquired s h = length ts
  | RL_lock a e b s =>
      on_sem s (pushes h) = [] ∧ acquired s h = O
  | RL_loop a e b s i =>
      acquired s h = O ∧
      (full_width b → in_size_t a → in_size_t e →
       a ≤ i ∧ (i ≤ e ∨ i = a) ∧
       on_sem s (pushes h) = loop_jobs b s a (i - a))
  | RL_unlock a e b s | RL_notify a e b s =>
      acquired s h = O ∧
      (full_width b → in_size_t a → in_size_t e →
       on_sem s (pushes h) = loop_jobs b s a (e - a))
  | RL_acquire a e b s i =>
      a ≤ i ∧ (i ≤ e ∨ i = a) ∧ acquired s h = Z.to_nat (i - a) ∧
      (full_width b → in_size_t a → in_size_t e →
       on_sem s (pushes h) = loop_jobs b s a (e - a))
  | RL_ret a e b s =>
      acquired s h = Z.to_nat (e - a) ∧
      (full_width b → in_size_t a → in_size_t e →
       on_sem s (pushes h) = loop_jobs b s a (e - a))
  | _ => True
  end.

Record sem_inv (σ : world) : Prop := {
  si_acq_bound : ∀ s, s ∈ acquires (log σ) → (s < length (sems σ))%nat;
  si_rel_bound : ∀ j s, j ∈ releases (log σ) → job_sem j = Some s →
                        (s < length (sems σ))%nat;
  si_push_bound : ∀ j s, j ∈ pushes (log σ) → job_sem j = Some s →
                         (s < length (sems σ))%nat;
  si_count : ∀ s n, sems σ !! s = Some n →
                    (n + acquired s (log σ))%nat
                    = length (on_sem s (releases (log σ)));
  si_client_bound : ∀ c pc s, clients σ !! c = Some pc → sem_of pc = Some s →
                              (s < length (sems σ))%nat;
  si_unique : ∀ c c' pc pc' s, clients σ !! c = Some pc →
                               clients σ !! c' = Some pc' →
                               sem_of pc = Some s → sem_of pc' = Some s → c = c';
  si_frame : ∀ c pc, clients σ !! c = Some pc → frame_inv (log σ) pc
}.

(** ** [run_loop] with an index type narrower than [size_t] *)

(** [run_loop(2147483648, 2147483649, std::function<void(int)>)] on a pool
    of one worker: the caller runs until it blocks. *)
Definition int_loop : call := CRunLoop (2 ^ 31) (2 ^ 31 + 1) (BodyI type_int 5%nat).

Definition int_loop_trace : list label :=
  LCall 0 int_loop :: replicate 5 (LClient 0 0).

Definition int_loop_world : world :=
  default (init Rev2 1 1) (exec Rev2 int_loop_trace (init Rev2 1 1)).

(** [run_loop(256, 3, std::function<void(uint8_t)>)]: the caller runs to
    its return, then the worker takes a job and invokes it. *)
Definition u8_loop : call := CRunLoop 256 3 (BodyI type_uint8_t 5%nat).

Definition u8_loop_trace : list label :=
  LCall 0 u8_loop :: replicate 9 (LClient 0 0) ++ replicate 7 (LWorker 0).

Definition u8_loop_world : world :=
  default (init Rev2 1 1) (exec Rev2 u8_loop_trace (init Rev2 1 1)).

(** Where a worker can be while the queue stays empty and the pool runs. *)
Definition idle_pc (pc : wpc) : bool :=
  match pc with
  | WLoop | WLock | WPred | WWait | WBlocked => true
  | _ => false
  end.

(** The caller of [int_loop] inside its first [sem.acquire()]. *)
Definition int_loop_waiting : cpc :=
  RL_acquire (2 ^ 31) (2 ^ 31 + 1) (BodyI type_int 5%nat) 0 (2 ^ 31).

(** The worlds in which the caller of [int_loop] waits and nothing is or
    will be there to wake it. *)
Definition int_loop_stuck (σ : world) : Prop :=
  jobs (pool σ) = [] ∧ running (pool σ) = true ∧ life σ = Alive ∧
  sems σ = [O] ∧ clients σ = [int_loop_waiting] ∧ log σ = [] ∧
  ∃ pc, threads (pool σ) = [pc] ∧ idle_pc pc = true.

(** ** The queue is not empty when a worker takes its head *)

Record pop_inv (σ : world) : Prop := {
  pi_pop : ∀ w, threads (pool σ) !! w = Some WPop → jobs (pool σ) ≠ [];
  pi_check : ∀ w, threads (pool σ) !! w = Some WCheck →
                  jobs (pool σ) ≠ [] ∨ running (pool σ) = false
}.

(** The destructor notifies between a worker's evaluation of the wait
    predicate and its blocking. *)
Definition late_wait_trace : list label :=
  replicate 3 (LWorker 0) ++ [LCall 0 CDestroy; LClient 0 0; LClient 0 0]
  ++ [LWorker 0].

Definition late_wait_world (r : revision) : world :=
  default (init r 1 1) (exec r late_wait_trace (init r 1 1)).

(** ** Who moves *)

(** The thread that executes a transition. *)
Definition thread_of (l : label) : option owner :=
  match l with
  | LWorker w => Some (OWorker w)
  | LClient c _ => Some (OClient c)
  | LSpurious _ | LCall _ _ => None
  end.

(** ** The life of a worker *)

(** The caller is inside the destructor. *)
Definition in_dtor (pc : cpc) : bool :=
  match pc with
  | D_store | D_notify | D_join _ => true
  | _ => false
  end.

Record alive_inv (σ : world) : Prop := {
  al_dtor : ∀ c pc, clients σ !! c = Some pc → in_dtor pc = true → life σ ≠ Alive;
  al_running : life σ = Alive → running (pool σ) = true;
  al_exit : ∀ w, threads (pool σ) !! w = Some WExit → running (pool σ) = false
}.

(** The job a worker has taken and not yet invoked. *)
Definition pending_job (pc : wpc) : option Job :=
  match pc with
  | WUnlock j | WExec j => Some j
  | _ => None
  end.

(** With at most one worker, jobs are invoked in the order taken. *)
Definition order_inv (σ : world) : Prop :=
  (length (threads (pool σ)) ≤ 1)%nat →
  pops (log σ) = invokes (log σ) ++ omap pending_job (threads (pool σ)).

(** ** Jobs that wait for a worker *)

(** The caller has pushed, or is pushing, and has not yet notified. *)
Definition will_notify (r : revision) (pc : cpc) : bool :=
  match pc with
  | DT_notify | DTs_loop _ | DTs_notify | DTa_loop _ _ _ | DTa_notify
  | RT_loop _ _ _ | RT_unlock _ _ | RT_notify _ _
  | RL_loop _ _ _ _ _ | RL_unlock _ _ _ _ | RL_notify _ _ _ _ => true
  | DT_unlock | DTs_unlock | DTa_unlock =>
      match r with Rev1 => false | Rev2 => true end
  | _ => false
  end.

Record wake_inv (r : revision) (σ : world) : Prop := {
  wk_cv : ∀ w, w ∈ cv (pool σ) → threads (pool σ) !! w = Some WBlocked;
  wk_wait : ∀ w, threads (pool σ) !! w = Some WWait → jobs (pool σ) = [];
  wk_awake : jobs (pool σ) ≠ [] → running (pool σ) = true →
             threads (pool σ) ≠ [] →
             (∃ w pc, threads (pool σ) !! w = Some pc ∧ w ∉ cv (pool σ)) ∨
             (∃ c pc, clients σ !! c = Some pc ∧ will_notify r pc = true)
}.

(** ** One worker serving the queue *)

(** One pass of a worker through its loop with job [j] at the head of the
    queue: the transitions it makes, the events it leaves, and what becomes
    of the semaphores. *)
Definition serve_steps (w : nat) (j : Job) : list label :=
  replicate (match job_sem j with Some _ => 8 | None => 7 end) (LWorker w).

Definition serve_log (j : Job) : list event :=
  [EvPop j; EvInvoke j]
  ++ match job_sem j with Some _ => [EvRelease j] | None => [] end.

Definition released (sm : list nat) (j : Job) : list nat :=
  match job_sem j with
  | Some s => match sm !! s with Some n => <[s := S n]> sm | None => sm end
  | None => sm
  end.

(** The world after one worker, left alone, has served all of [js]. *)
Definition after_jobs (js : list Job) (σ : world) : world :=
  mkWorld (mkPool (running (pool σ)) (threads (pool σ))
                  (drop (length js) (jobs (pool σ)))
                  (data_lock (pool σ)) (cv (pool σ)))
          (life σ) (foldl released (sems σ) js) (clients σ)
          (log σ ++ (js ≫= serve_log)).

(** ** A whole [run_tasks] *)

(** The transitions by which worker [w], idle at control point [pc] when
    the caller notifies, serves [n] closures that release a semaphore: eight
    for each pass through the loop, one fewer for the first pass of a worker
    that wakes inside [cv.wait] and so does not test [running] first. *)
Definition serving_steps (w : nat) (pc : wpc) (n : nat) : list label :=
  match pc, n with
  | WBlocked, S m => replicate 7 (LWorker w) ++ replicate (8 * m) (LWorker w)
  | _, _ => replicate (8 * n) (LWorker w)
  end.

(** Where the workers are then: [w] is at the head of its loop if it has
    served a job, and where it was otherwise. *)
Definition served (w n : nat) (ths : list wpc) : list wpc :=
  match n with
  | O => ths
  | S _ => <[w := WLoop]> ths
  end.

(** [run_tasks(ts)] on a pool whose worker [w] is idle at [pc]: the caller
    queues its closures and notifies ([run_tasks_entry]), the worker serves
    them, the caller collects the signals and returns. *)
Definition run_tasks_entry (c : nat) (ts : list callable) : list label :=
  LCall c (CRunTasks ts) :: replicate 2 (LClient c 0)
  ++ replicate (length ts) (LClient c 0) ++ replicate 3 (LClient c 0).

Definition whole_run_tasks (c w : nat) (pc : wpc) (ts : list callable) : list label :=
  run_tasks_entry c ts
  ++ serving_steps w pc (length ts)
  ++ replicate (length ts) (LClient c 0) ++ replicate 2 (LClient c 0).

Definition run_tasks_log (s : nat) (ts : list callable) : list event :=
  (EvPush <$> (wrap s <$> ts))
  ++ ((wrap s <$> ts) ≫= serve_log)
  ++ (EvAcquire <$> replicate (length ts) s).

Definition after_run_tasks (w : nat) (ts : list callable) (σ : world) : world :=
  mkWorld (mkPool (running (pool σ)) (served w (length ts) (threads (pool σ)))
                  (jobs (pool σ)) None [])
          (life σ) (sems σ ++ [O]) (clients σ)
          (log σ ++ run_tasks_log (length (sems σ)) ts).

(** ** A whole destructor *)

(** A worker that is not serving a job: at the head of its loop, or blocked
    in [cv.wait]. *)
Definition idle_worker (pc : wpc) : bool :=
  match pc with
  | WLoop | WBlocked => true
  | _ => false
  end.

(** The transitions by which an idle worker returns once the flag is down
    and it has been notified. *)
Definition exit_steps (w : nat) (pc : wpc) : list label :=
  replicate (match pc with WLoop => 1 | _ => 3 end) (LWorker w).

(** The destructor on a pool of idle workers [ths]: store and notify, every
    worker returns, every join passes. *)
Definition whole_dtor (c : nat) (ths : list wpc) : list label :=
  LCall c CDestroy :: replicate 2 (LClient c 0)
  ++ mjoin (imap exit_steps ths)
  ++ replicate (length ths) (LClient c 0) ++ [LClient c 0].

Definition after_dtor (σ : world) : world :=
  mkWorld (mkPool false (replicate (length (threads (pool σ))) WExit)
                  (jobs (pool σ)) None [])
          Destroyed (sems σ) (clients σ) (log σ).

(** ** A destructor that waits for a sleeping worker *)

(** Worker [w] sleeps in [cv.wait] while caller [c], alone, is in the joins
    of the destructor and has not passed [w]. *)
Definition hung (w c : nat) (σ : world) : Prop :=
  threads (pool σ) !! w = Some WBlocked ∧ w ∈ cv (pool σ) ∧
  life σ = Destroying ∧ running (pool σ) = false ∧
  (∃ k, clients σ !! c = Some (D_join k) ∧ (k ≤ w)%nat) ∧
  (∀ c' pc, clients σ !! c' = Some pc → c' = c ∨ pc = CIdle).

(** The transitions in which no new call is made and [w] is not woken
    spuriously. *)
Definition undisturbed (w : nat) (l : label) : bool :=
  match l with
  | LCall _ _ => false
  | LSpurious w' => negb (w' =? w)%nat
  | LWorker _ | LClient _ _ => true
  end.

(** ** A whole [detach_tasks] on an array *)

(** One caller executing [detach_tasks(tasks, num_tasks)] without
    interruption. *)
Definition whole_detach_tasks_array (c ch : nat) (ts : list callable) (n : Z) : list label :=
  LCall c (CDetachTasksArr ts n) :: LClient c ch
  :: replicate (Z.to_nat n) (LClient c ch) ++ replicate 3 (LClient c ch).

(** ** [run_loop] with bounds that fit the index type *)

(** The largest value of an integral type. *)
Definition max_value (ty : int_type) : Z :=
  if it_signed ty then 2 ^ (bits (it_width ty) - 1) - 1
  else 2 ^ bits (it_width ty) - 1.

(** [z] is a value of the index type of [b]. *)
Definition in_range (b : Body) (z : Z) : Prop :=
  0 ≤ z ≤ max_value (induction_type b).

(** What a caller inside [run_loop] knows about the closures it has pushed
    when both bounds are values of its index type. *)
Definition range_frame (h : list event) (pc : cpc) : Prop :=
  match pc with
  | RL_loop a e b s i =>
      in_range b a → in_range b e →
      a ≤ i ∧ (i ≤ e ∨ i = a) ∧ on_sem s (pushes h) = loop_jobs b s a (i - a)
  | RL_unlock a e b s | RL_notify a e b s | RL_acquire a e b s _ | RL_ret a e b s =>
      in_range b a → in_range b e →
      on_sem s (pushes h) = loop_jobs b s a (e - a)
  | _ => True
  end.

Definition range_inv (σ : world) : Prop :=
  ∀ c pc, clients σ !! c = Some pc → range_frame (log σ) pc.

(** ** A whole [run_loop] *)

(** [run_loop(a, e, b)] on a pool whose worker [w] is idle at [pc]; the
    caller queues and notifies in [run_loop_entry]. *)
Definition run_loop_entry (c : nat) (a e : Z) (b : Body) : list label :=
  LCall c (CRunLoop a e b) :: replicate 2 (LClient c 0)
  ++ replicate (Z.to_nat (e - a)) (LClient c 0) ++ replicate 3 (LClient c 0).

Definition whole_run_loop (c w : nat) (pc : wpc) (a e : Z) (b : Body) : list label :=
  run_loop_entry c a e b
  ++ serving_steps w pc (Z.to_nat (e - a))
  ++ replicate (Z.to_nat (e - a)) (LClient c 0) ++ replicate 2 (LClient c 0).

Definition run_loop_log (s : nat) (a e : Z) (b : Body) : list event :=
  (EvPush <$> loop_jobs b s a (e - a))
  ++ (loop_jobs b s a (e - a) ≫= serve_log)
  ++ (EvAcquire <$> replicate (Z.to_nat (e - a)) s).

Definition after_run_loop (w : nat) (a e : Z) (b : Body) (σ : world) : world :=
  mkWorld (mkPool (running (pool σ)) (served w (Z.to_nat (e - a)) (threads (pool σ)))
                  (jobs (pool σ)) None [])
          (life σ) (sems σ ++ [O]) (clients σ)
          (log σ ++ run_loop_log (length (sems σ)) a e b).

(** ** A pool without workers *)

Record no_worker_inv (σ : world) : Prop := {
  nw_pops : threads (pool σ) = [] → pops (log σ) = [];
  nw_invokes : threads (pool σ) = [] → invokes (log σ) = [];
  nw_releases : threads (pool σ) = [] → releases (log σ) = []
}.

(** ** Closures and the frames they refer to *)

(** The caller is inside [run_tasks] and its semaphore exists. *)
Definition in_run_tasks (pc : cpc) : bool :=
  match pc with
  | RT_lock _ _ | RT_loop _ _ _ | RT_unlock _ _ | RT_notify _ _
  | RT_acquire _ _ _ | RT_ret _ _ => true
  | _ => false
  end.

(** The span a caller inside [run_tasks] was given. *)
Definition frame_tasks (pc : cpc) : list callable :=
  match pc with
  | RT_sem ts | RT_lock ts _ | RT_loop ts _ _ | RT_unlock ts _ | RT_notify ts _
  | RT_acquire ts _ _ | RT_ret ts _ => ts
  | _ => []
  end.

(** Semaphore [s] lives in the frame of a caller that is inside
    [run_tasks]. *)
Definition sem_alive (s : nat) (σ : world) : Prop :=
  ∃ c pc, clients σ !! c = Some pc ∧ in_run_tasks pc = true ∧ sem_of pc = Some s.

(** Every closure of [run_tasks] that is queued or with a worker refers to
    a semaphore that is alive. *)
Record closure_inv (σ : world) : Prop := {
  ci_queued : ∀ t s, JRun t s ∈ jobs (pool σ) → sem_alive s σ;
  ci_held : ∀ w pc t s, threads (pool σ) !! w = Some pc →
                        held_job pc = Some (JRun t s) → sem_alive s σ
}.

(** ** Leaving a blocking call *)

(** The transition is a call made by caller [c]. *)
Definition calls_of (c : nat) (l : label) : bool :=
  match l with
  | LCall c' _ => (c' =? c)%nat
  | _ => false
  end.

(** [pc] is a control point of the blocking call [m], and the semaphore of
    the call, once created, is not older than [L]. *)
Definition frame (m : call) (L : nat) (pc : cpc) : Prop :=
  match m, pc with
  | CRunTasks ts, RT_sem ts' => ts' = ts
  | CRunTasks ts, RT_lock ts' s | CRunTasks ts, RT_loop ts' s _
  | CRunTasks ts, RT_unlock ts' s | CRunTasks ts, RT_notify ts' s
  | CRunTasks ts, RT_acquire ts' s _ | CRunTasks ts, RT_ret ts' s =>
      ts' = ts ∧ (L ≤ s)%nat
  | CRunLoop a e b, RL_sem a' e' b' => a' = a ∧ e' = e ∧ b' = b
  | CRunLoop a e b, RL_lock a' e' b' s | CRunLoop a e b, RL_loop a' e' b' s _
  | CRunLoop a e b, RL_unlock a' e' b' s | CRunLoop a e b, RL_notify a' e' b' s
  | CRunLoop a e b, RL_acquire a' e' b' s _ | CRunLoop a e b, RL_ret a' e' b' s =>
      a' = a ∧ e' = e ∧ b' = b ∧ (L ≤ s)%nat
  | _, _ => False
  end.

(** The last control point of a blocking call: past the acquire loop. *)
Definition return_point (pc : cpc) : bool :=
  match pc with
  | RT_ret _ _ | RL_ret _ _ _ _ => true
  | _ => false
  end.

(** ** [detach_task] called once for each task *)

(** [detach_task] called for the tasks of [ts] in turn; the notification of
    the [i]-th call wakes the waiter [chs !! i]. *)
Definition detach_each (c : nat) (chs : list nat) (ts : list callable) : list label :=
  mjoin (zip_with (whole_detach_task c) chs ts).

(** The wait set after one [notify_one] for each choice in [chs]. *)
Fixpoint wake_each (chs : list nat) (waiters : list nat) : option (list nat) :=
  match chs with
  | [] => Some waiters
  | ch :: chs => wake_one ch waiters ≫= wake_each chs
  end.

(** Choices that are always possible: each notification wakes the thread
    that has waited longest. *)
Fixpoint wake_heads (n : nat) (waiters : list nat) : list nat :=
  match n with
  | O => []
  | S n => let ch := default O (head waiters) in
           ch :: wake_heads n (filter (λ x, x ≠ ch) waiters)
  end.

(** The world [detach_each] leaves when the waiters left are [l]. *)
Definition after_detach_each (ts : list callable) (l : list nat) (σ : world) : world :=
  mkWorld (mkPool (running (pool σ)) (threads (pool σ))
                  (jobs (pool σ) ++ (JTask <$> ts)) None l)
          (life σ) (sems σ) (clients σ)
          (log σ ++ ((λ t, EvPush (JTask t)) <$> ts)).

(** ** Execution order *)

(** The jobs a call of [detach_task] or [detach_tasks] is to queue. *)
Definition detach_jobs (m : call) : list Job :=
  match m with
  | CDetachTask t => [JTask t]
  | CDetachTasks ts => JTask <$> ts
  | _ => []
  end.

(** [pc] is a control point of the detaching call [m]; [news] are the jobs
    pushed, by any caller, since [m] was entered, and the jobs that [m] has
    pushed are among them in the order of [m]'s argument. *)
Definition detach_frame (m : call) (news : list Job) (pc : cpc) : Prop :=
  match m, pc with
  | CDetachTask t, DT_lock t' | CDetachTask t, DT_push t' => t' = t
  | CDetachTask t, DT_unlock | CDetachTask t, DT_notify => [JTask t] `sublist_of` news
  | CDetachTasks ts, DTs_lock ts' => ts' = ts
  | CDetachTasks ts, DTs_loop rest =>
      ∃ pushed, ts = pushed ++ rest ∧ (JTask <$> pushed) `sublist_of` news
  | CDetachTasks ts, DTs_unlock | CDetachTasks ts, DTs_notify =>
      (JTask <$> ts) `sublist_of` news
  | _, _ => False
  end.

(** The reading of C5 under which insertion order is the order in which
    the tasks start to execute. *)
Definition starts_in_insertion_order (r : revision) : Prop :=
  ∀ σ, reachable r σ → invokes (log σ) `prefix_of` pushes (log σ).

(** Two tasks on a pool of two workers: the first worker takes the first
    task and releases the mutex, the second worker takes the second task and
    invokes it, and only then does the first worker invoke the first. *)
Definition overtake_trace : list label :=
  whole_detach_tasks 0 0 [3; 4]%nat
  ++ replicate 6 (LWorker 0) ++ replicate 7 (LWorker 1) ++ [LWorker 0].

Definition overtake_world (r : revision) : world :=
  default (init r 2 1) (exec r overtake_trace (init r 2 1)).

(** ** More sample runs *)

(** The only worker has found the queue empty and is about to block. *)
Definition wait_world (r : revision) : world :=
  default (init r 1 1) (exec r (replicate 3 (LWorker 0)) (init r 1 1)).

(** [run_tasks] with one task on a pool constructed with no thread: the
    caller has queued its closure and waits. *)
Definition no_worker_trace : list label :=
  LCall 0 (CRunTasks [7%nat]) :: replicate 6 (LClient 0 0).

Definition no_worker_world : world :=
  default (init Rev2 0 1) (exec Rev2 no_worker_trace (init Rev2 0 1)).

(** Two tasks detached to a pool of two workers, none of which has moved. *)
Definition busy_world : world :=
  after_detach_tasks [3; 4]%nat (init Rev1 2 1).



(** [run_loop(3, 5, std::function<void(int)>)] on a pool of one worker:
    the steps after the call, to the caller's return. *)
Definition loop_rest : list label :=
  replicate 7 (LClient 0 0) ++ replicate 16 (LWorker 0) ++ replicate 4 (LClient 0 0).

Definition loop_world_back : world :=
  default (init Rev2 1 1)
    (exec Rev2 (LCall 0 (CRunLoop 3 5 (BodyI type_int 5%nat)) :: loop_rest)
       (init Rev2 1 1)).

(** The only worker of a pool is asleep in [cv.wait]. *)
Definition asleep_world : world :=
  default (init Rev2 1 1) (exec Rev2 (replicate 4 (LWorker 0)) (init Rev2 1 1)).

(** Both workers of a pool are asleep in [cv.wait]. *)
Definition two_asleep (r : revision) : world :=
  default (init r 2 1)
    (exec r (replicate 4 (LWorker 0) ++ replicate 4 (LWorker 1)) (init r 2 1)).

(** * Properties *)

(** ** [reset], [size] and the constructors *)

Lemma emplace_loop (p : ThreadPool) (l : list Z) :
  foldl (λ p' _, set_threads (threads p' ++ [WLoop]) p') p l
  = set_threads (threads p ++ replicate (length l) WLoop) p.
Proof.
  revert p. induction l as [|x l IH]; intros p; simpl.
  - rewrite app_nil_r. by destruct p.
  - rewrite IH. destruct p; simpl. unfold set_threads; simpl.
    by rewrite <- app_assoc.
Qed.

Lemma V2_reset_grow (n : Z) (p : ThreadPool) :
  V2.size p ≤ n →
  V2.reset n p
  = (Ok tt, set_threads (threads p ++ replicate (Z.to_nat (n - V2.size p)) WLoop) p).
Proof.
  intros H. unfold V2.reset, V2.size in *.
  rewrite (proj2 (Z.leb_le _ _)) by done.
  by rewrite emplace_loop, length_seqZ.
Qed.

Lemma V2_reset_shrink (n : Z) (p : ThreadPool) :
  n < V2.size p →
  V2.reset n p = (Throw (runtime_error "Cannot downscale thread pool"), p).
Proof.
  intros H. unfold V2.reset, V2.size in *.
  by rewrite (proj2 (Z.leb_gt _ _)) by done.
Qed.

Lemma reset_same (n : Z) (p : ThreadPool) : V1.reset n p = V2.reset n p.
Proof. reflexivity. Qed.

Lemma size_same (p : ThreadPool) : V1.size p = V2.size p.
Proof. reflexivity. Qed.

Lemma size_set_threads (t : list wpc) (p : ThreadPool) :
  V2.size (set_threads t p) = Z.of_nat (length t).
Proof. reflexivity. Qed.

Lemma V2_reset_size (n : Z) (p : ThreadPool) :
  V2.size p ≤ n → V2.size (snd (V2.reset n p)) = n.
Proof.
  intros H. rewrite V2_reset_grow by done. simpl.
  rewrite size_set_threads, length_app, length_replicate.
  unfold V2.size in *. lia.
Qed.

Lemma set_client_same (c : nat) (pc : cpc) (σ : world) :
  clients σ !! c = Some pc → set_client c pc σ = σ.
Proof.
  intros H. unfold set_client, set_clients.
  rewrite list_insert_id by done. by destruct σ.
Qed.

(** C2.  Revision-independent: in both files, [reset] called with a value
    below the current thread count throws [std::runtime_error] at once and
    the object it was called on is exactly as before; a caller making this
    call leaves the whole world as it was. *)
Theorem reset_below_size_rejected (n : Z) (p : ThreadPool) :
  n < V2.size p →
  V1.reset n p = (Throw (runtime_error "Cannot downscale thread pool"), p) ∧
  V2.reset n p = (Throw (runtime_error "Cannot downscale thread pool"), p) ∧
  (∀ r c σ, pool σ = p → life σ ≠ Destroyed → clients σ !! c = Some CIdle →
            step r (LCall c (CReset n)) σ = Some σ).
Proof.
  intros H. rewrite reset_same, V2_reset_shrink by done.
  split; [done|]. split; [done|].
  intros r c σ Hp Hl Hc. unfold step, fire, call_step.
  destruct (life σ) eqn:E; try done; rewrite Hc; simpl;
    destruct r; simpl; rewrite ?reset_same, Hp, V2_reset_shrink by done; simpl;
    rewrite <- Hp; f_equal;
    (transitivity (set_client c CIdle σ); [by destruct σ | by apply set_client_same]).
Qed.

Lemma reset_below_size_rejected_witness :
  1 < V2.size (snd (V2.ThreadPool_explicit 2)) ∧
  V1.reset 1 (snd (V2.ThreadPool_explicit 2))
  = (Throw (runtime_error "Cannot downscale thread pool"),
     snd (V2.ThreadPool_explicit 2)) ∧
  V2.reset 1 (snd (V2.ThreadPool_explicit 2))
  = (Throw (runtime_error "Cannot downscale thread pool"),
     snd (V2.ThreadPool_explicit 2)) ∧
  step Rev2 (LCall 0%nat (CReset 1)) (init Rev2 2 1) = Some (init Rev2 2 1).
Proof.
  assert (H : 1 < V2.size (snd (V2.ThreadPool_explicit 2))) by reflexivity.
  split; [exact H|].
  destruct (reset_below_size_rejected 1 _ H) as (H1 & H2 & H3).
  split; [exact H1|]. split; [exact H2|].
  apply H3; [reflexivity | discriminate | reflexivity].
Defined.

(** C9.  In both files [reset] throws exactly when the argument is below
    the current thread count; with the argument equal to the thread count
    it returns normally and the object is unchanged. *)
Theorem reset_throws_iff_below (n : Z) (p : ThreadPool) :
  ((∃ e, fst (V1.reset n p) = Throw e) ↔ n < V1.size p) ∧
  ((∃ e, fst (V2.reset n p) = Throw e) ↔ n < V2.size p) ∧
  (n = V1.size p → V1.reset n p = (Ok tt, p)) ∧
  (n = V2.size p → V2.reset n p = (Ok tt, p) ∧ V2.size (snd (V2.reset n p)) = V2.size p).
Proof.
  rewrite !reset_same, !size_same.
  assert (Hiff : (∃ e, fst (V2.reset n p) = Throw e) ↔ n < V2.size p).
  { split.
    - intros [e He]. destruct (Z_lt_le_dec n (V2.size p)) as [|Hle]; [done|].
      rewrite V2_reset_grow in He by done. discriminate.
    - intros Hlt. rewrite V2_reset_shrink by done. eauto. }
  assert (Heq : n = V2.size p → V2.reset n p = (Ok tt, p)).
  { intros ->. rewrite V2_reset_grow by lia.
    rewrite Z.sub_diag. simpl. rewrite app_nil_r. by destruct p. }
  split; [exact Hiff|]. split; [exact Hiff|]. split; [exact Heq|].
  intros Hn. split; [auto|]. by rewrite Heq.
Qed.

Lemma reset_throws_iff_below_witness :
  V2.reset 2 (snd (V2.ThreadPool_explicit 2)) = (Ok tt, snd (V2.ThreadPool_explicit 2)) ∧
  V2.size (snd (V2.reset 2 (snd (V2.ThreadPool_explicit 2)))) = 2.
Proof.
  pose proof (reset_throws_iff_below 2 (snd (V2.ThreadPool_explicit 2))) as (_ & _ & _ & H).
  apply H. reflexivity.
Defined.

(** C1, as the code has it.  Default construction starts exactly as many
    workers as the hardware-concurrency hint says, in both files; no lower
    bound is applied, so [size()] is at least one just when the hint is. *)
Theorem default_size_is_hint (hc : Z) :
  0 ≤ hc →
  (∃ p, V1.ThreadPool_default hc = (Ok tt, p) ∧ V1.size p = hc ∧
        threads p = replicate (Z.to_nat hc) WLoop) ∧
  (∃ p, V2.ThreadPool_default hc = (Ok tt, p) ∧ V2.size p = hc ∧
        threads p = replicate (Z.to_nat hc) WLoop ∧ (1 ≤ V2.size p ↔ 1 ≤ hc)).
Proof.
  intros H. unfold V1.ThreadPool_default, V2.ThreadPool_default.
  rewrite reset_same.
  assert (Hs : V2.size fresh_pool ≤ hc) by (unfold V2.size; simpl; lia).
  pose proof (V2_reset_size hc fresh_pool Hs) as Hsz.
  rewrite V2_reset_grow in * by done.
  split; eexists; (split; [reflexivity|]); simpl in *;
    rewrite ?size_same; (split; [exact Hsz|]).
  - unfold V2.size; simpl. f_equal. lia.
  - split; [unfold V2.size; simpl; f_equal; lia|]. rewrite Hsz. done.
Qed.

Lemma default_size_is_hint_witness :
  0 ≤ 3 ∧ ∃ p, V2.ThreadPool_default 3 = (Ok tt, p) ∧ V2.size p = 3.
Proof.
  split; [lia|].
  destruct (default_size_is_hint 3 ltac:(lia)) as [_ (p & H1 & H2 & _)].
  exists p. split; assumption.
Defined.

(** C1 as stated fails: with a hint of zero the pool has no worker at all. *)
Lemma default_zero_hint_no_worker :
  ¬ (1 ≤ V1.size (snd (V1.ThreadPool_default 0))) ∧
  ¬ (1 ≤ V2.size (snd (V2.ThreadPool_default 0))).
Proof. split; vm_compute; intros H; apply H; reflexivity. Qed.

(** ** Case analysis of a transition *)

Lemma step_fire r l σ σ' :
  step r l σ = Some σ' → life σ ≠ Destroyed ∧ fire r l σ = Some σ'.
Proof. unfold step. destruct (life σ); done. Qed.

Lemma worker_loop_same (w : nat) (σ : world) :
  V1.worker_loop w σ = V2.worker_loop w σ.
Proof. reflexivity. Qed.

Lemma worker_step_any (r : revision) (w : nat) (σ : world) :
  worker_step r w σ = V2.worker_loop w σ.
Proof. by destruct r. Qed.

Lemma dtor_same (c : nat) (pc : cpc) (σ : world) :
  V1.ThreadPool_dtor c pc σ = V2.ThreadPool_dtor c pc σ.
Proof. reflexivity. Qed.

Lemma reset_snd (n : Z) (p : ThreadPool) :
  snd (V2.reset n p)
  = set_threads (threads p ++ replicate (Z.to_nat (n - V2.size p)) WLoop) p.
Proof.
  destruct (Z_lt_le_dec n (V2.size p)) as [Hlt|Hle].
  - rewrite V2_reset_shrink by done. simpl.
    replace (Z.to_nat (n - V2.size p)) with O by lia.
    simpl. rewrite app_nil_r. by destruct p.
  - by rewrite V2_reset_grow.
Qed.

Ltac destruct_world σ :=
  destruct σ as [[run ths q lk cvs] lf sm cl lg].

Ltac unfold_methods H :=
  unfold fire, spurious, call_step, caller_step,
    V2.worker_loop, V1.client_step, V2.client_step,
    V1.enter, V2.enter, V1.detach_task, V2.detach_task,
    V1.detach_tasks, V2.detach_tasks, V1.detach_tasks_array,
    V2.run_tasks, V2.run_loop, V2.ThreadPool_dtor,
    mutex_lock, mutex_unlock, notify_one, wake_one, notify_all, remove_waiter,
    sem_release, sem_acquire, push, emit,
    set_thread, set_client, set_pool, set_life, set_sems, set_clients,
    set_running, set_threads, set_jobs, set_data_lock, set_cv in H.

(** Splits a hypothesis [fire r l σ = Some σ'] into one goal per statement
    of the source that can have been executed. *)
Ltac fire_cases H :=
  match type of H with
  | fire ?r ?l ?σ = Some _ =>
      destruct_world σ;
      destruct l as [?w|?w|?c m|?c ?ch];
      [ unfold fire in H; rewrite worker_step_any in H;
        unfold V2.worker_loop in H; simpl in H;
        destruct (_ !! _) as [[]|] eqn:? in H; simpl in H; try discriminate H
      | unfold fire, spurious in H; simpl in H
      | destruct r, m;
        unfold fire, call_step in H; simpl in H;
        destruct (_ !! _) as [[]|] eqn:? in H; simpl in H; try discriminate H
      | destruct r;
        unfold fire, caller_step in H; simpl in H;
        destruct (_ !! _) as [[]|] eqn:? in H; simpl in H; try discriminate H ];
      unfold_methods H;
      rewrite ?dtor_same, ?reset_same, ?reset_snd in H;
      unfold_methods H; simpl in H;
      repeat (first [ progress simplify_option_eq | case_match ]);
      simpl in *
  end.

(** ** The queue discipline *)

Lemma pushes_app h e : pushes (h ++ [e]) = pushes h ++ pushes [e].
Proof. apply omap_app. Qed.
Lemma pops_app h e : pops (h ++ [e]) = pops h ++ pops [e].
Proof. apply omap_app. Qed.
Lemma invokes_app h e : invokes (h ++ [e]) = invokes h ++ invokes [e].
Proof. apply omap_app. Qed.
Lemma releases_app h e : releases (h ++ [e]) = releases h ++ releases [e].
Proof. apply omap_app. Qed.
Lemma acquires_app h e : acquires (h ++ [e]) = acquires h ++ acquires [e].
Proof. apply omap_app. Qed.
Lemma finished_app h e : finished (h ++ [e]) = finished h ++ finished [e].
Proof. apply omap_app. Qed.

Lemma fifo_init r n k : fifo (init r n k).
Proof.
  unfold fifo, init. simpl. destruct r;
    unfold V1.ThreadPool_explicit, V2.ThreadPool_explicit;
    rewrite ?reset_same, reset_snd; reflexivity.
Qed.

Lemma fifo_step r l σ σ' : step r l σ = Some σ' → fifo σ → fifo σ'.
Proof.
  intros [_ H]%step_fire. unfold fifo. fire_cases H; intros I;
    rewrite ?pushes_app, ?pops_app; simpl; rewrite ?app_nil_r; try done.
  all: rewrite I, <- ?app_assoc; done.
Qed.

Lemma fifo_reachable r σ : reachable r σ → fifo σ.
Proof. induction 1; eauto using fifo_init, fifo_step. Qed.

(** ** Mutual exclusion *)

Lemma init_unfold r n k :
  init r n k
  = mkWorld (mkPool true (replicate (Z.to_nat n) WLoop) [] None [])
            Alive [] (replicate k CIdle) [].
Proof.
  unfold init. destruct r;
    unfold V1.ThreadPool_explicit, V2.ThreadPool_explicit;
    rewrite ?reset_same, reset_snd; unfold V2.size; simpl;
    by rewrite Z.sub_0_r.
Qed.

Ltac split_lookup :=
  repeat match goal with
  | H : <[_ := _]> _ !! _ = Some _ |- _ =>
      apply list_lookup_insert_Some in H;
      destruct H as [(? & ? & ?) | (? & H)]; simplify_eq
  | H : (_ ++ replicate _ _) !! _ = Some _ |- _ =>
      apply lookup_app_Some in H;
      destruct H as [H | [_ [? _]%lookup_replicate_1]]; simplify_eq
  | H : replicate _ _ !! _ = Some _ |- _ =>
      apply lookup_replicate_1 in H; destruct H as [? _]; simplify_eq
  end.

Ltac use_holders L1 L2 :=
  repeat match goal with
  | Hc : ?l !! ?c = Some ?pc |- _ =>
      first [ pose proof (L2 _ _ Hc eq_refl) as ?; clear Hc
            | pose proof (L1 _ _ Hc eq_refl) as ?; clear Hc ]
  end.

Ltac solve_owner L3 L4 :=
  let x := fresh "x" in
  let Hx := fresh "Hx" in
  let pc0 := fresh "pc0" in
  let Hpc0 := fresh "Hpc0" in
  let Hh0 := fresh "Hh0" in
  intros x Hx;
  try (first [ destruct (L3 _ Hx) as (pc0 & Hpc0 & Hh0)
             | destruct (L4 _ Hx) as (pc0 & Hpc0 & Hh0) ]);
  simplify_eq; simpl in *; try done;
  lazymatch goal with
  | |- ∃ pc, <[?w := ?pc']> ?l !! ?y = Some pc ∧ _ =>
      destruct (decide (w = y)) as [?|?];
      [ simplify_eq; simpl in *;
        first [ done
              | exists pc'; split;
                [ apply list_lookup_insert_eq; eapply lookup_lt_Some; eassumption
                | done ] ]
      | rewrite list_lookup_insert_ne by done; eauto ]
  | |- ∃ pc, (?l ++ _) !! ?y = Some pc ∧ _ =>
      exists pc0; split; [by apply lookup_app_l_Some | done]
  | |- _ => eauto
  end.

Lemma lock_inv_init r n k : lock_inv r (init r n k).
Proof.
  rewrite init_unfold. split; simpl.
  - intros w pc Hl Hh. by split_lookup.
  - intros c pc Hl Hh. by split_lookup.
  - done.
  - done.
  - intros c pc Hl. by split_lookup.
Qed.

Lemma lock_inv_step r l σ σ' : step r l σ = Some σ' → lock_inv r σ → lock_inv r σ'.
Proof.
  intros [_ H]%step_fire. fire_cases H; intros [L1 L2 L3 L4 L5]; simpl in *.
  all: split; simpl.
  all: try (intros w' pc' Hl Hh; split_lookup; simpl in *; try done;
        try (pose proof (L1 _ _ Hl Hh)); try (pose proof (L2 _ _ Hl Hh));
        use_holders L1 L2; congruence).
  all: try (intros w' pc' Hl; split_lookup; simpl in *; try done; by eapply L5).
  all: solve_owner L3 L4.
Qed.

Lemma lock_inv_reachable r σ : reachable r σ → lock_inv r σ.
Proof. induction 1; eauto using lock_inv_init, lock_inv_step. Qed.

(** ** The pool only grows *)

Lemma threads_monotone r l σ σ' :
  step r l σ = Some σ' →
  (length (threads (pool σ)) ≤ length (threads (pool σ')))%nat.
Proof.
  intros [_ H]%step_fire. fire_cases H;
    rewrite ?length_insert, ?length_app; lia.
Qed.

(** C6.  In revision 2 (and in revision 1, whose [reset] and [size] read the
    same), [reset(M)] on a pool of K < M threads returns normally, appends
    exactly M - K threads, each at the entry of [worker_loop], touches
    nothing else, and leaves [size() == M]; no call of [reset] and no
    transition of the system ever lowers the thread count. *)
Theorem reset_grows_pool (K M : Z) (p : ThreadPool) :
  V2.size p = K → K < M →
  (∃ p', V2.reset M p = (Ok tt, p') ∧ V1.reset M p = (Ok tt, p') ∧
         threads p' = threads p ++ replicate (Z.to_nat (M - K)) WLoop ∧
         V2.size p' = M ∧
         running p' = running p ∧ jobs p' = jobs p ∧
         data_lock p' = data_lock p ∧ cv p' = cv p) ∧
  (∀ n q, V2.size q ≤ V2.size (snd (V2.reset n q))) ∧
  (∀ r l σ σ', step r l σ = Some σ' → V2.size (pool σ) ≤ V2.size (pool σ')).
Proof.
  intros HK HM. split; [|split].
  - eexists. change (V1.reset M p) with (V2.reset M p).
    rewrite V2_reset_grow by lia.
    split; [reflexivity|]. split; [reflexivity|].
    unfold V2.size in *. simpl. rewrite HK. split; [done|].
    rewrite length_app, length_replicate. split; [lia|]. done.
  - intros n q. rewrite reset_snd. unfold V2.size. simpl.
    rewrite length_app. lia.
  - intros r l σ σ' H%threads_monotone. unfold V2.size. lia.
Qed.

Lemma reset_grows_pool_witness :
  ∃ p', V2.reset 5 (snd (V2.ThreadPool_explicit 2)) = (Ok tt, p') ∧
        threads p' = replicate 5 WLoop ∧ V2.size p' = 5.
Proof.
  destruct (reset_grows_pool 2 5 (snd (V2.ThreadPool_explicit 2)))
    as [(p' & H1 & _ & H2 & H3 & _) _]; [reflexivity | lia |].
  exists p'. split; [exact H1|]. split; [exact H2 | exact H3].
Defined.

(** ** Runs *)

Lemma exec_reachable r ls σ σ' :
  reachable r σ → exec r ls σ = Some σ' → reachable r σ'.
Proof.
  revert σ. induction ls as [|l ls IH]; intros σ Hr H; simpl in H.
  - by simplify_eq.
  - destruct (step r l σ) as [σ1|] eqn:E; [|done]. simpl in H.
    eapply IH; [|done]. by eapply reachable_step.
Qed.

Lemma exec_app r ls1 ls2 σ :
  exec r (ls1 ++ ls2) σ = exec r ls1 σ ≫= exec r ls2.
Proof.
  revert σ. induction ls1 as [|l ls1 IH]; intros σ; simpl; [done|].
  destruct (step r l σ); simpl; [apply IH | done].
Qed.

Lemma demo_reachable : reachable Rev2 demo_world.
Proof.
  apply (exec_reachable Rev2 demo_trace (init Rev2 1 1)).
  - apply reachable_init.
  - vm_compute. reflexivity.
Qed.

Lemma demo_done_reachable : reachable Rev2 demo_world_done.
Proof.
  apply (exec_reachable Rev2 demo_trace_done (init Rev2 1 1)).
  - apply reachable_init.
  - vm_compute. reflexivity.
Qed.

(** ** Tasks run outside the lock *)

Lemma log_grows_not {A} (l : list A) (e : A) : l ≠ l ++ [e].
Proof.
  intros H. apply (f_equal length) in H. rewrite length_app in H. simpl in H. lia.
Qed.

(** C8.  At every reachable state of either revision, a worker that is
    executing a job (inside [job.job()], before or after the inner callable
    returns) does not own [data_lock]; every invocation of a callable is made
    by a worker at that point of its loop; and the statement before it,
    [lock.unlock()], is executed by the owner of the mutex and frees it
    without invoking anything. *)
Theorem task_body_runs_unlocked (r : revision) (σ : world) :
  reachable r σ →
  (∀ w j, threads (pool σ) !! w = Some (WExec j) ∨
          threads (pool σ) !! w = Some (WRelease j) →
          data_lock (pool σ) ≠ Some (OWorker w)) ∧
  (∀ l σ' j, step r l σ = Some σ' → log σ' = log σ ++ [EvInvoke j] →
     ∃ w, l = LWorker w ∧ threads (pool σ) !! w = Some (WExec j) ∧
          data_lock (pool σ) ≠ Some (OWorker w) ∧
          data_lock (pool σ') = data_lock (pool σ)) ∧
  (∀ w j σ', threads (pool σ) !! w = Some (WUnlock j) →
     step r (LWorker w) σ = Some σ' →
     data_lock (pool σ) = Some (OWorker w) ∧ data_lock (pool σ') = None ∧
     threads (pool σ') !! w = Some (WExec j) ∧ log σ' = log σ).
Proof.
  intros Hr. pose proof (lock_inv_reachable r σ Hr) as [L1 L2 L3 L4 L5].
  assert (Hexec : ∀ w j, threads (pool σ) !! w = Some (WExec j) ∨
          threads (pool σ) !! w = Some (WRelease j) →
          data_lock (pool σ) ≠ Some (OWorker w)).
  { intros w j Hw Hl. destruct (L3 _ Hl) as (pc & Hpc & Hh).
    destruct Hw as [Hw|Hw]; rewrite Hw in Hpc; by simplify_eq. }
  split; [exact Hexec|]. split.
  - intros l σ' j [_ H]%step_fire Hlog. clear L1 L2 L3 L4 L5.
    revert Hlog. fire_cases H; intros Hlog;
      try (by apply log_grows_not in Hlog);
      try (apply app_inv_head in Hlog; by simplify_eq).
    apply app_inv_head in Hlog. simplify_eq.
    eexists. split; [done|]. split; [done|]. split; [|done].
    eapply Hexec. by left.
  - intros w j σ' Hw [_ H]%step_fire.
    unfold fire in H. rewrite worker_step_any in H.
    unfold V2.worker_loop in H. rewrite Hw in H. simpl in H. simplify_eq.
    simpl. split; [by eapply L1|]. split; [done|]. split; [|done].
    apply list_lookup_insert_eq. by eapply lookup_lt_Some.
Qed.

Lemma task_body_runs_unlocked_witness :
  threads (pool demo_world) !! 0%nat = Some (WExec (JRun 7%nat 0)) ∧
  data_lock (pool demo_world) ≠ Some (OWorker 0).
Proof.
  split; [reflexivity|].
  apply (proj1 (task_body_runs_unlocked Rev2 demo_world demo_reachable)
           0%nat (JRun 7%nat 0)).
  left. reflexivity.
Defined.

(** ** Shutdown *)

Lemma popping_le_1 σ : (popping σ ≤ 1)%nat.
Proof. unfold popping. repeat case_match; lia. Qed.

Lemma stop_step r l σ σ' :
  lock_inv r σ → running (pool σ) = false → step r l σ = Some σ' →
  running (pool σ') = false ∧
  (length (pops (log σ')) + popping σ' ≤ length (pops (log σ)) + popping σ)%nat.
Proof.
  intros L Hrun [_ H]%step_fire. revert L Hrun.
  fire_cases H; intros [L1 L2 L3 L4 L5] Hrun; simpl in *; simplify_eq.
  all: split; [done|].
  all: rewrite ?pops_app; simpl; rewrite ?app_nil_r, ?length_app; simpl.
  all: unfold popping; simpl.
  all: try (match goal with
            | Hp : _ !! _ = Some WPop |- _ =>
                pose proof (L1 _ _ Hp eq_refl); simplify_eq;
                rewrite Hp, list_lookup_insert_eq by (by eapply lookup_lt_Some);
                lia
            end).
  all: try (use_holders L1 L2; simplify_eq).
  all: repeat case_match; simplify_eq; split_lookup; try lia.
Qed.

Lemma stop_exec r ls σ σ' :
  reachable r σ → running (pool σ) = false → exec r ls σ = Some σ' →
  running (pool σ') = false ∧
  (length (pops (log σ')) + popping σ' ≤ length (pops (log σ)) + popping σ)%nat.
Proof.
  revert σ. induction ls as [|l ls IH]; intros σ Hr Hrun H; simpl in H.
  - by simplify_eq.
  - destruct (step r l σ) as [σ1|] eqn:E; [|done]. simpl in H.
    destruct (stop_step r l σ σ1) as [Hrun1 Hle]; auto using lock_inv_reachable.
    destruct (IH σ1) as [Hrun' Hle']; eauto using reachable_step.
    split; [done|lia].
Qed.

Lemma shutdown_inv_init r n k : shutdown_inv (init r n k).
Proof.
  rewrite init_unfold. split; simpl.
  - intros c pc Hl. by split_lookup.
  - intros c j w pc Hl. by split_lookup.
  - intros c j Hl. by split_lookup.
  - done.
Qed.

Lemma shutdown_inv_step r l σ σ' :
  step r l σ = Some σ' → shutdown_inv σ → shutdown_inv σ'.
Proof.
  intros [Hlife H]%step_fire. revert Hlife.
  fire_cases H; intros Hlife [S1 S2 S3 S4]; simpl in *.
  all: split; simpl; try done.
  all: try (intros c' pc' Hl Hp; split_lookup; simpl in *; try done; eauto; fail).
  all: try (intros c' k' Hl; split_lookup; simpl in *;
            rewrite ?length_insert, ?length_app; try done;
            try (match goal with
                 | Hk : _ !! ?k = Some _ |- (S ?k ≤ _)%nat =>
                     apply lookup_lt_Some in Hk
                 end);
            try (match goal with
                 | Hc : _ !! _ = Some (D_join _) |- _ =>
                     pose proof (S3 _ _ Hc)
                 end); lia).
  all: try (intros c' k' w' pc' Hc Hlt Hl; split_lookup; simpl in *;
            try done; try (by eapply S2);
            try (exfalso;
                 match goal with
                 | Hc : _ !! _ = Some (D_join _), Ht : _ !! _ = Some _ |- _ =>
                     pose proof (S2 _ _ _ _ Hc ltac:(eassumption) Ht); discriminate
                 end); fail).
  all: try (intros _; split; [by eapply S1|];
            intros w' pc' Hl;
            match goal with
            | Hc : _ !! _ = Some (D_join ?k), Hn : _ !! ?k = None |- _ =>
                apply lookup_ge_None in Hn;
                pose proof (lookup_lt_Some _ _ _ Hl);
                eapply (S2 _ _ _ _ Hc); [|done]; lia
            end).
  all: intros c' k' w' pc' Hc Hlt Hl;
    apply list_lookup_insert_Some in Hc;
    destruct Hc as [(? & ? & ?) | (? & Hc)]; simplify_eq; try lia.
  all: try (apply lookup_app_Some in Hl; destruct Hl as [Hl | [Hge _]];
            [by eapply S2 | pose proof (S3 _ _ Hc); lia]).
  all: try (by eapply S2).
  all: destruct (decide (w' = k)) as [->|?]; [congruence|];
    match goal with
    | Hc : _ !! _ = Some (D_join _) |- _ => eapply (S2 _ _ _ _ Hc); [|done]; lia
    end.
Qed.

Lemma shutdown_inv_reachable r σ : reachable r σ → shutdown_inv σ.
Proof. induction 1; eauto using shutdown_inv_init, shutdown_inv_step. Qed.

Lemma race_reachable r : reachable r (race_world r).
Proof.
  apply (exec_reachable r race_trace (init r 1 1)).
  - apply reachable_init.
  - destruct r; vm_compute; reflexivity.
Qed.

(** C7, as the code has it.  In both revisions the destructor stores
    [false] into [running], then empties the wait set with [notify_all],
    then joins the threads one after the other, each join passing only when
    that worker has returned; when it ends the flag is down, every worker
    has returned and nothing moves any more, so whatever is still queued is
    dropped.  A worker that reads the flag as false, at the head of its loop
    or after waking, returns without touching the queue.  From the moment
    the flag is down, at most one more job is taken from the queue: by the
    worker, if any, that had already passed its check and owns the mutex. *)
Theorem shutdown_discipline (r : revision) (σ : world) :
  reachable r σ →
  (∀ c ch σ', clients σ !! c = Some D_store →
     step r (LClient c ch) σ = Some σ' →
     running (pool σ') = false ∧ clients σ' !! c = Some D_notify) ∧
  (∀ c ch σ', clients σ !! c = Some D_notify →
     step r (LClient c ch) σ = Some σ' →
     running (pool σ') = false ∧ cv (pool σ') = [] ∧
     clients σ' !! c = Some (D_join 0)) ∧
  (∀ c ch k σ', clients σ !! c = Some (D_join k) →
     step r (LClient c ch) σ = Some σ' →
     (threads (pool σ) !! k = Some WExit ∧
      clients σ' !! c = Some (D_join (S k)) ∧ life σ' = life σ) ∨
     (threads (pool σ) !! k = None ∧ life σ' = Destroyed)) ∧
  (life σ = Destroyed →
     running (pool σ) = false ∧
     (∀ w pc, threads (pool σ) !! w = Some pc → pc = WExit) ∧
     (∀ l, step r l σ = None)) ∧
  (∀ w σ', running (pool σ) = false →
     threads (pool σ) !! w = Some WLoop ∨ threads (pool σ) !! w = Some WCheck →
     step r (LWorker w) σ = Some σ' →
     threads (pool σ') !! w = Some WExit ∧
     jobs (pool σ') = jobs (pool σ) ∧ log σ' = log σ) ∧
  (∀ ls σ', running (pool σ) = false → exec r ls σ = Some σ' →
     running (pool σ') = false ∧
     (length (pops (log σ')) ≤ length (pops (log σ)) + popping σ)%nat ∧
     (length (pops (log σ')) ≤ length (pops (log σ)) + 1)%nat).
Proof.
  intros Hr. pose proof (shutdown_inv_reachable r σ Hr) as [S1 S2 S3 S4].
  repeat apply conj.
  - intros c ch σ' Hc [_ H]%step_fire.
    unfold fire, caller_step in H. rewrite Hc in H.
    destruct r; simplify_option_eq; (split; [done|]);
      apply list_lookup_insert_eq; by eapply lookup_lt_Some.
  - intros c ch σ' Hc [_ H]%step_fire.
    pose proof (S1 _ _ Hc eq_refl) as Hrun.
    unfold fire, caller_step in H. rewrite Hc in H.
    destruct r; simplify_option_eq; (split; [done|]); (split; [done|]);
      apply list_lookup_insert_eq; by eapply lookup_lt_Some.
  - intros c ch k σ' Hc [_ H]%step_fire.
    unfold fire, caller_step in H. rewrite Hc in H.
    destruct r; simpl in H; rewrite ?dtor_same in H; unfold V2.ThreadPool_dtor in H;
      destruct (threads (pool σ) !! k) as [[]|] eqn:E; simplify_option_eq;
      first [ right; done
            | left; split; [done|]; split; [|done];
              apply list_lookup_insert_eq; by eapply lookup_lt_Some ].
  - intros Hd. destruct (S4 Hd) as [? ?]. repeat split; try done.
    intros l. unfold step. by rewrite Hd.
  - intros w σ' Hrun Hw [_ H]%step_fire.
    unfold fire in H. rewrite worker_step_any in H. unfold V2.worker_loop in H.
    destruct Hw as [Hw|Hw]; rewrite Hw in H; simpl in H; rewrite Hrun in H;
      simpl in H; simplify_eq; simpl; (split; [|done]);
      apply list_lookup_insert_eq; by eapply lookup_lt_Some.
  - intros ls σ' Hrun H.
    destruct (stop_exec r ls σ σ' Hr Hrun H) as [H1 H2].
    pose proof (popping_le_1 σ). repeat split; [done|lia|lia].
Qed.

Lemma race_continues r :
  exec r (replicate 3 (LWorker 0)) (race_world r) = Some (race_world_after r).
Proof. destruct r; vm_compute; reflexivity. Qed.

Lemma shutdown_discipline_witness :
  running (pool (race_world Rev1)) = false ∧
  (length (pops (log (race_world_after Rev1)))
   ≤ length (pops (log (race_world Rev1))) + 1)%nat.
Proof.
  assert (Hrun : running (pool (race_world Rev1)) = false)
    by (vm_compute; reflexivity).
  split; [exact Hrun|].
  pose proof (shutdown_discipline Rev1 (race_world Rev1) (race_reachable Rev1))
    as (_ & _ & _ & _ & _ & H).
  exact (proj2 (proj2 (H _ _ Hrun (race_continues Rev1)))).
Defined.

(** C7 as stated fails.  The worker has passed [if (!running.load())] when
    the destructor stores [false]; the task queued at that moment is then
    taken and invoked. *)
Lemma stop_flag_race :
  (running (pool (race_world Rev1)) = false ∧
   jobs (pool (race_world Rev1)) = [JTask 7%nat] ∧
   invokes (log (race_world Rev1)) = [] ∧
   exec Rev1 (replicate 3 (LWorker 0)) (race_world Rev1)
   = Some (race_world_after Rev1) ∧
   invokes (log (race_world_after Rev1)) = [JTask 7%nat]) ∧
  ¬ queue_frozen_after_stop Rev1 ∧ ¬ queue_frozen_after_stop Rev2.
Proof.
  split; [|split].
  - repeat apply conj; vm_compute; reflexivity.
  - intros H.
    assert (Hrun : running (pool (race_world Rev1)) = false)
      by (vm_compute; reflexivity).
    specialize (H _ _ _ (race_reachable Rev1) Hrun (race_continues Rev1)).
    vm_compute in H. discriminate H.
  - intros H.
    assert (Hrun : running (pool (race_world Rev2)) = false)
      by (vm_compute; reflexivity).
    specialize (H _ _ _ (race_reachable Rev2) Hrun (race_continues Rev2)).
    vm_compute in H. discriminate H.
Qed.

(** ** The two revisions *)

Lemma call_cases c σ :
  (life σ = Destroyed ∨ clients σ !! c ≠ Some CIdle) ∨
  (life σ ≠ Destroyed ∧ clients σ !! c = Some CIdle).
Proof.
  destruct (life σ); destruct (clients σ !! c) as [[]|]; auto;
    right; split; done.
Qed.

Lemma exec_caller r c ch pc pc' σ σ' ls :
  life σ ≠ Destroyed → clients σ !! c = Some pc →
  match r with
  | Rev1 => V1.client_step c ch pc σ
  | Rev2 => V2.client_step c ch pc σ
  end = Some (pc', σ') →
  exec r (LClient c ch :: ls) σ = exec r ls (set_client c pc' σ').
Proof.
  intros Hl Hc Hs. cbn [exec]. unfold step, fire, caller_step.
  destruct (life σ); try done; rewrite Hc; simpl; by rewrite Hs.
Qed.

Lemma exec_caller_blocked r c ch pc σ ls :
  clients σ !! c = Some pc →
  match r with
  | Rev1 => V1.client_step c ch pc σ
  | Rev2 => V2.client_step c ch pc σ
  end = None →
  exec r (LClient c ch :: ls) σ = None.
Proof.
  intros Hc Hs. cbn [exec]. unfold step, fire, caller_step.
  destruct (life σ); try done; rewrite Hc; simpl; by rewrite Hs.
Qed.

Lemma exec_call r c m pc' σ σ' ls :
  life σ ≠ Destroyed → clients σ !! c = Some CIdle →
  match r with
  | Rev1 => V1.enter m σ
  | Rev2 => V2.enter m σ
  end = Some (pc', σ') →
  exec r (LCall c m :: ls) σ = exec r ls (set_client c pc' σ').
Proof.
  intros Hl Hc Hs. cbn [exec]. unfold step, fire, call_step.
  destruct (life σ); try done; rewrite Hc; simpl; by rewrite Hs.
Qed.

Lemma exec_call_refused r c m σ ls :
  life σ = Destroyed ∨ clients σ !! c ≠ Some CIdle →
  exec r (LCall c m :: ls) σ = None.
Proof.
  intros H. cbn [exec]. unfold step, fire, call_step.
  destruct (life σ) eqn:E; try done;
    (destruct H as [H|H]; [done|]);
    destruct (clients σ !! c) as [[]|]; simpl; done.
Qed.

Local Arguments exec : simpl never.

Ltac caller_runs pc :=
  erewrite (exec_caller _ _ _ pc);
  [ | simpl; done
    | simpl; apply list_lookup_insert_eq; rewrite ?length_insert; done
    | simpl; try reflexivity ].

Lemma detach_task_run r c ch t σ :
  life σ ≠ Destroyed → clients σ !! c = Some CIdle → data_lock (pool σ) = None →
  exec r (whole_detach_task c ch t) σ = after_detach_task ch t σ.
Proof.
  unfold whole_detach_task. intros Hl Hc Hk. destruct_world σ. simpl in Hl, Hc, Hk. subst lk.
  pose proof (lookup_lt_Some _ _ _ Hc) as Hlt.
  erewrite exec_call; [|done|done|by destruct r].
  simpl replicate.
  caller_runs (DT_lock t); [|by destruct r].
  unfold after_detach_task, set_client, set_pool, set_clients, set_data_lock; simpl.
  destruct r.
  - caller_runs (DT_push t).
    unfold push, emit, set_client, set_pool, set_clients, set_jobs; simpl.
    destruct (wake_one ch cvs) as [l|] eqn:En; simpl.
    + caller_runs DT_notify.
      2:{ unfold notify_one; simpl. rewrite En. reflexivity. }
      caller_runs DT_unlock. simpl.
      unfold set_client, set_pool, set_clients, mutex_unlock, set_cv, set_data_lock; simpl.
      rewrite !list_insert_insert_eq, list_insert_id by done. done.
    + apply (exec_caller_blocked Rev1 c ch DT_notify).
      * simpl. apply list_lookup_insert_eq. by rewrite !length_insert.
      * simpl. unfold notify_one; simpl. by rewrite En.
  - caller_runs (DT_push t).
    caller_runs DT_unlock.
    unfold push, emit, set_client, set_pool, set_clients, set_jobs, mutex_unlock,
      set_data_lock; simpl.
    destruct (wake_one ch cvs) as [l|] eqn:En; simpl.
    + caller_runs DT_notify.
      2:{ unfold notify_one; simpl. rewrite En. reflexivity. }
      simpl. unfold set_client, set_pool, set_clients, set_cv; simpl.
      rewrite !list_insert_insert_eq, list_insert_id by done. done.
    + apply (exec_caller_blocked Rev2 c ch DT_notify).
      * simpl. apply list_lookup_insert_eq. by rewrite !length_insert.
      * simpl. unfold notify_one; simpl. by rewrite En.
Qed.

Lemma detach_task_locked r c ch t o σ ls :
  data_lock (pool σ) = Some o →
  exec r (LCall c (CDetachTask t) :: LClient c ch :: ls) σ = None.
Proof.
  intros Hk.
  destruct (call_cases c σ) as [?|[Hl Hc]]; [by apply exec_call_refused|].
  pose proof (lookup_lt_Some _ _ _ Hc) as Hlt.
  erewrite exec_call; [|done|done|by destruct r].
  apply (exec_caller_blocked r c ch (DT_lock t)).
  - simpl. by apply list_lookup_insert_eq.
  - destruct r; simpl; unfold mutex_lock; simpl; by rewrite Hk.
Qed.

Lemma detach_task_agree c ch t σ :
  exec Rev1 (whole_detach_task c ch t) σ = exec Rev2 (whole_detach_task c ch t) σ.
Proof.
  destruct (call_cases c σ) as [?|[Hl Hc]];
    [unfold whole_detach_task; by rewrite !exec_call_refused|].
  destruct (data_lock (pool σ)) as [o|] eqn:Hk.
  - unfold whole_detach_task. simpl replicate.
    by rewrite !(detach_task_locked _ _ _ _ o).
  - by rewrite !detach_task_run.
Qed.

Lemma detach_loop r c ch ts run ths q lk cvs lf sm cl lg ls :
  lf ≠ Destroyed → cl !! c = Some (DTs_loop ts) →
  exec r (replicate (length ts) (LClient c ch) ++ ls)
       (mkWorld (mkPool run ths q lk cvs) lf sm cl lg)
  = exec r ls (mkWorld (mkPool run ths (q ++ (JTask <$> ts)) lk cvs) lf sm
                       (<[c := DTs_loop []]> cl)
                       (lg ++ ((λ t, EvPush (JTask t)) <$> ts))).
Proof.
  revert q cl lg. induction ts as [|t ts IH]; intros q cl lg Hl Hc.
  - simpl. by rewrite list_insert_id, !app_nil_r.
  - pose proof (lookup_lt_Some _ _ _ Hc) as Hlt.
    cbn [length replicate app].
    erewrite (exec_caller _ _ _ (DTs_loop (t :: ts))); [|done|done|by destruct r].
    unfold push, emit, set_client, set_pool, set_clients, set_jobs; simpl.
    rewrite IH; [|done|by apply list_lookup_insert_eq].
    by rewrite list_insert_insert_eq, <- !app_assoc.
Qed.

Lemma detach_tasks_run r c ch ts σ :
  life σ ≠ Destroyed → clients σ !! c = Some CIdle → data_lock (pool σ) = None →
  exec r (whole_detach_tasks c ch ts) σ = Some (after_detach_tasks ts σ).
Proof.
  unfold whole_detach_tasks. intros Hl Hc Hk.
  destruct_world σ. simpl in Hl, Hc, Hk. subst lk.
  pose proof (lookup_lt_Some _ _ _ Hc) as Hlt.
  erewrite exec_call; [|done|done|by destruct r].
  caller_runs (DTs_lock ts); [|by destruct r].
  unfold after_detach_tasks, set_client, set_pool, set_clients, set_data_lock; simpl.
  rewrite detach_loop; [|done|].
  2:{ apply list_lookup_insert_eq. by rewrite length_insert. }
  simpl replicate.
  destruct r.
  - caller_runs (DTs_loop []). caller_runs DTs_notify. caller_runs DTs_unlock.
    cbn [exec].
    unfold set_client, set_pool, set_clients, mutex_unlock, notify_all, set_cv,
      set_data_lock; simpl.
    rewrite !list_insert_insert_eq, list_insert_id by done. done.
  - caller_runs (DTs_loop []). caller_runs DTs_unlock. caller_runs DTs_notify.
    cbn [exec].
    unfold set_client, set_pool, set_clients, mutex_unlock, notify_all, set_cv,
      set_data_lock; simpl.
    rewrite !list_insert_insert_eq, list_insert_id by done. done.
Qed.

Lemma detach_tasks_agree c ch ts σ :
  exec Rev1 (whole_detach_tasks c ch ts) σ = exec Rev2 (whole_detach_tasks c ch ts) σ.
Proof.
  destruct (call_cases c σ) as [?|[Hl Hc]];
    [unfold whole_detach_tasks; by rewrite !exec_call_refused|].
  destruct (data_lock (pool σ)) as [o|] eqn:Hk.
  - unfold whole_detach_tasks.
    pose proof (lookup_lt_Some _ _ _ Hc) as Hlt.
    erewrite !exec_call; [|done|done|reflexivity|done|done|reflexivity].
    rewrite !(exec_caller_blocked _ c ch (DTs_lock ts)); try done.
    all: try (simpl; by apply list_lookup_insert_eq).
    all: simpl; unfold mutex_lock; simpl; by rewrite Hk.
  - by rewrite !detach_tasks_run.
Qed.

(** C10.  The two files agree on everything they share.  [reset], [size],
    both constructors, the destructor and [worker_loop] are the same
    functions, so every worker transition, every [reset] and every
    destructor transition is the same in both revisions.  [detach_task] and
    [detach_tasks] differ only in whether the notification is sent before
    or after the guard releases the mutex: run without interruption from
    the same world with the same arguments, each call ends in the same
    world (same queue, same threads, same wait set, same history), or is
    blocked or refused in both. *)
Theorem revisions_agree :
  (∀ n p, V1.reset n p = V2.reset n p) ∧
  (∀ p, V1.size p = V2.size p) ∧
  (∀ hc, V1.ThreadPool_default hc = V2.ThreadPool_default hc) ∧
  (∀ n, V1.ThreadPool_explicit n = V2.ThreadPool_explicit n) ∧
  (∀ n k, init Rev1 n k = init Rev2 n k) ∧
  (∀ c pc σ, V1.ThreadPool_dtor c pc σ = V2.ThreadPool_dtor c pc σ) ∧
  (∀ w σ, V1.worker_loop w σ = V2.worker_loop w σ) ∧
  (∀ w σ, step Rev1 (LWorker w) σ = step Rev2 (LWorker w) σ) ∧
  (∀ w σ, step Rev1 (LSpurious w) σ = step Rev2 (LSpurious w) σ) ∧
  (∀ c n σ, step Rev1 (LCall c (CReset n)) σ = step Rev2 (LCall c (CReset n)) σ) ∧
  (∀ c σ, step Rev1 (LCall c CDestroy) σ = step Rev2 (LCall c CDestroy) σ) ∧
  (∀ c ch pc σ, clients σ !! c = Some pc →
     pc = D_store ∨ pc = D_notify ∨ (∃ k, pc = D_join k) →
     step Rev1 (LClient c ch) σ = step Rev2 (LClient c ch) σ) ∧
  (∀ c ch t σ,
     exec Rev1 (whole_detach_task c ch t) σ = exec Rev2 (whole_detach_task c ch t) σ) ∧
  (∀ c ch ts σ,
     exec Rev1 (whole_detach_tasks c ch ts) σ = exec Rev2 (whole_detach_tasks c ch ts) σ) ∧
  (∀ r c ch t σ, life σ ≠ Destroyed → clients σ !! c = Some CIdle →
     data_lock (pool σ) = None →
     exec r (whole_detach_task c ch t) σ = after_detach_task ch t σ) ∧
  (∀ r c ch ts σ, life σ ≠ Destroyed → clients σ !! c = Some CIdle →
     data_lock (pool σ) = None →
     exec r (whole_detach_tasks c ch ts) σ = Some (after_detach_tasks ts σ)).
Proof.
  repeat apply conj; try reflexivity.
  - intros c ch pc σ Hc Hpc. unfold step, fire, caller_step. rewrite Hc.
    destruct Hpc as [->|[->|[k ->]]]; reflexivity.
  - apply detach_task_agree.
  - apply detach_tasks_agree.
  - apply detach_task_run.
  - apply detach_tasks_run.
Qed.

Lemma revisions_agree_witness :
  exec Rev1 (whole_detach_tasks 0 0 [3; 4]%nat) (init Rev1 2 1)
  = Some (after_detach_tasks [3; 4]%nat (init Rev1 2 1)) ∧
  exec Rev2 (whole_detach_tasks 0 0 [3; 4]%nat) (init Rev1 2 1)
  = Some (after_detach_tasks [3; 4]%nat (init Rev1 2 1)).
Proof.
  pose proof revisions_agree as H.
  do 15 (apply proj2 in H).
  split; apply H; solve [ discriminate | reflexivity ].
Defined.

(** ** Jobs in flight and semaphores *)

Lemma omap_split {A B} (f : A → option B) (l : list A) i x :
  l !! i = Some x →
  omap f l = omap f (take i l) ++ option_list (f x) ++ omap f (drop (S i) l).
Proof.
  intros H. rewrite <- (take_drop_middle l i x H) at 1.
  rewrite omap_app. simpl. by destruct (f x).
Qed.

Lemma omap_insert_split {A B} (f : A → option B) (l : list A) i x y :
  l !! i = Some x →
  omap f (<[i:=y]> l)
  = omap f (take i l) ++ option_list (f y) ++ omap f (drop (S i) l).
Proof.
  intros H. rewrite insert_take_drop by (by eapply lookup_lt_Some).
  rewrite omap_app. simpl. by destruct (f y).
Qed.

Lemma omap_app_replicate_none {A B} (f : A → option B) (l : list A) n x :
  f x = None → omap f (l ++ replicate n x) = omap f l.
Proof.
  intros H. rewrite omap_app.
  assert (omap f (replicate n x) = []) as ->; [|by rewrite app_nil_r].
  induction n; simpl; [done|]. by rewrite H.
Qed.

Lemma flight_inv_init r n k : flight_inv (init r n k).
Proof.
  rewrite init_unfold. split; simpl; unfold inflight, releasing; simpl.
  - by rewrite <- (app_nil_l (replicate _ _)), omap_app_replicate_none.
  - by rewrite <- (app_nil_l (replicate _ _)), omap_app_replicate_none.
Qed.

Lemma flight_inv_step r l σ σ' : step r l σ = Some σ' → flight_inv σ → flight_inv σ'.
Proof.
  intros [_ H]%step_fire.
  fire_cases H; intros [I1 I2]; unfold inflight, releasing in *; simpl in *.
  all: split; unfold inflight, releasing; simpl.
  all: rewrite ?pops_app, ?invokes_app, ?finished_app; simpl; rewrite ?app_nil_r.
  all: rewrite ?omap_app_replicate_none by done.
  all: try assumption.
  all: match goal with
       | Hw : ?ths !! ?w = Some ?pc |- context [omap ?f (<[?w := ?pc']> ?ths)] =>
           rewrite (omap_insert_split f ths w pc pc' Hw);
           rewrite (omap_split held_job ths w pc Hw) in I1;
           rewrite (omap_split releasing_job ths w pc Hw) in I2;
           simpl in *
       end.
  all: repeat match goal with
       | Hj : job_sem _ = _ |- _ => rewrite Hj; simpl
       end.
  all: first [ rewrite I1 | rewrite I2 ]; solve_Permutation.
Qed.

Lemma on_sem_snoc s js j :
  on_sem s (js ++ [j])
  = on_sem s js ++ (if decide (job_sem j = Some s) then [j] else []).
Proof.
  unfold on_sem. by rewrite filter_app.
Qed.

Lemma acquired_snoc s h e :
  acquired s (h ++ [e])
  = (acquired s h + match e with
                    | EvAcquire s' => if decide (s' = s) then 1 else 0
                    | _ => 0
                    end)%nat.
Proof.
  unfold acquired. rewrite acquires_app, filter_app, length_app. f_equal.
  destruct e; simpl; try done.
  rewrite filter_cons, filter_nil. by case_decide.
Qed.

Lemma on_sem_fresh L js :
  (∀ j s, j ∈ js → job_sem j = Some s → (s < L)%nat) → on_sem L js = [].
Proof.
  intros H. unfold on_sem. induction js as [|j js IH]; [done|].
  rewrite filter_cons. case_decide as Hd.
  - apply H in Hd; [lia|left].
  - apply IH. intros j' s Hin. apply H. by right.
Qed.

Lemma acquired_fresh L h :
  (∀ s, s ∈ acquires h → (s < L)%nat) → acquired L h = O.
Proof.
  intros H. unfold acquired. induction (acquires h) as [|x l IH]; [done|].
  rewrite filter_cons. case_decide as Hd.
  - subst. specialize (H L ltac:(left)). lia.
  - apply IH. intros s Hin. apply H. by right.
Qed.

Lemma frame_inv_ext h h' pc :
  (∀ s, sem_of pc = Some s →
        on_sem s (pushes h') = on_sem s (pushes h) ∧ acquired s h' = acquired s h) →
  frame_inv h pc → frame_inv h' pc.
Proof.
  intros H. destruct pc; simpl; try done;
    destruct (H _ eq_refl) as [-> ->]; done.
Qed.

Lemma frame_inv_other h e pc :
  pushes [e] = [] → acquires [e] = [] → frame_inv h pc → frame_inv (h ++ [e]) pc.
Proof.
  intros Hp Ha. apply frame_inv_ext. intros s _.
  rewrite pushes_app, Hp, app_nil_r. split; [done|].
  rewrite acquired_snoc. destruct e; simpl in *; try done; lia.
Qed.

Lemma frame_inv_push h j pc :
  (∀ s, sem_of pc = Some s → job_sem j ≠ Some s) →
  frame_inv h pc → frame_inv (h ++ [EvPush j]) pc.
Proof.
  intros Hne. apply frame_inv_ext. intros s Hs.
  rewrite pushes_app, acquired_snoc. simpl. rewrite on_sem_snoc.
  rewrite decide_False by (by apply Hne). rewrite app_nil_r. split; [done|lia].
Qed.

Lemma frame_inv_acquire h s' pc :
  sem_of pc ≠ Some s' →
  frame_inv h pc → frame_inv (h ++ [EvAcquire s']) pc.
Proof.
  intros Hne. apply frame_inv_ext. intros s Hs.
  rewrite pushes_app, acquired_snoc. simpl. rewrite app_nil_r.
  rewrite decide_False by congruence. split; [done|lia].
Qed.

Lemma to_size_t_small i : in_size_t i → to_size_t i = i.
Proof. intros H. unfold to_size_t. by apply Z.mod_small. Qed.

Lemma full_width_convert b a :
  full_width b → in_size_t a → convert (induction_type b) a = a.
Proof.
  unfold full_width. intros -> H. unfold convert. simpl.
  by apply Z.mod_small.
Qed.

Lemma full_width_incr b i i' :
  full_width b → 0 ≤ i → i + 1 < size_t_modulus →
  incr (induction_type b) i = Some i' → i' = i + 1.
Proof.
  unfold full_width. intros -> H0 H1. unfold incr. simpl. intros [= <-].
  apply Z.mod_small. unfold size_t_modulus, size_t_bits in H1. lia.
Qed.

Lemma loop_jobs_nil b s a n : n ≤ 0 → loop_jobs b s a n = [].
Proof. intros H. unfold loop_jobs. by rewrite seqZ_nil. Qed.

Lemma loop_jobs_snoc b s a n :
  0 ≤ n → loop_jobs b s a (n + 1) = loop_jobs b s a n ++ [JLoop b (a + n) s].
Proof.
  intros H. unfold loop_jobs. rewrite seqZ_app by lia.
  by rewrite fmap_app.
Qed.

Ltac is_run_tasks pc :=
  lazymatch pc with
  | RT_sem _ => idtac
  | RT_lock _ _ => idtac
  | RT_loop _ _ _ => idtac
  | RT_unlock _ _ => idtac
  | RT_notify _ _ => idtac
  | RT_acquire _ _ _ => idtac
  | RT_ret _ _ => idtac
  end.

Lemma sem_inv_init r n k : sem_inv (init r n k).
Proof.
  rewrite init_unfold. split; simpl.
  - intros s Hs. by apply elem_of_nil in Hs.
  - intros j s Hs. by apply elem_of_nil in Hs.
  - intros j s Hs. by apply elem_of_nil in Hs.
  - done.
  - intros c pc s Hl. by split_lookup.
  - intros c c' pc pc' s Hl. by split_lookup.
  - intros c pc Hl. by split_lookup.
Qed.

Ltac lt_facts :=
  repeat match goal with
  | H : _ !! _ = Some _ |- _ =>
      let H' := fresh "Hlt" in
      pose proof (lookup_lt_Some _ _ _ H) as H'; revert H
  end; intros.

Ltac in_snoc H :=
  rewrite ?pushes_app, ?acquires_app, ?releases_app in H; simpl in H;
  rewrite ?app_nil_r in H;
  try (apply elem_of_app in H; destruct H as [H | H%list_elem_of_singleton]).

Lemma sem_inv_step r l σ σ' : step r l σ = Some σ' → sem_inv σ → sem_inv σ'.
Proof.
  intros [_ H]%step_fire.
  fire_cases H; intros [B1 B2 B3 B4 B5 B6 B7]; simpl in *.
  all: split; simpl.
  (* si_acq_bound *)
  all: try (intros s' Hs; in_snoc Hs; simplify_eq;
            rewrite ?length_insert, ?length_app; simpl;
            try (pose proof (B1 _ Hs)); lt_facts; lia).
  (* si_rel_bound, si_push_bound *)
  all: try (intros j' s' Hs Hj'; in_snoc Hs; simplify_eq; simpl in *; simplify_eq;
            rewrite ?length_insert, ?length_app; simpl;
            try (pose proof (B2 _ _ Hs Hj')); try (pose proof (B3 _ _ Hs Hj'));
            try (match goal with
                 | Hc : _ !! _ = Some ?pc |- _ =>
                     lazymatch type of pc with
                     | cpc => pose proof (B5 _ _ _ Hc eq_refl)
                     end
                 end);
            lt_facts; lia).
  (* si_client_bound *)
  all: try (intros c0 pc0 s0 Hl Hs; split_lookup; simpl in *; simplify_eq;
            rewrite ?length_insert, ?length_app; simpl;
            try (pose proof (B5 _ _ _ Hl Hs));
            try (match goal with
                 | Hc : _ !! _ = Some ?pc |- _ =>
                     lazymatch type of pc with
                     | cpc => pose proof (B5 _ _ _ Hc eq_refl)
                     end
                 end);
            lt_facts; lia).
  (* si_unique *)
  all: try (intros c0 c0' pc0 pc0' s0 Hl Hl' Hs Hs'; split_lookup;
            simpl in *; simplify_eq; try done;
            try (by eapply B6);
            try (match goal with
                 | Hc : _ !! ?c = Some ?pc, Ho : _ !! ?c' = Some ?pc' |- ?c = ?c' =>
                     by eapply (B6 c c' pc pc')
                 | Hc : _ !! ?c = Some ?pc, Ho : _ !! ?c' = Some ?pc' |- ?c' = ?c =>
                     by eapply (B6 c' c pc' pc)
                 end);
            try (exfalso;
                 match goal with
                 | Ho : _ !! _ = Some ?pc, Hs : sem_of ?pc = Some _ |- _ =>
                     pose proof (B5 _ _ _ Ho Hs); lia
                 end); fail).
  (* si_count *)
  all: try (intros s0 n0 Hl;
            rewrite ?acquired_snoc, ?releases_app; simpl;
            rewrite ?app_nil_r, ?on_sem_snoc;
            try (apply list_lookup_insert_Some in Hl;
                 destruct Hl as [(? & ? & ?) | (? & Hl)]);
            try (apply lookup_snoc_Some in Hl;
                 destruct Hl as [[_ Hl] | [? ?]]);
            simplify_eq;
            repeat case_decide; simplify_eq; rewrite ?length_app; simpl;
            try (rewrite acquired_fresh by done);
            try (rewrite on_sem_fresh by done);
            try (match goal with
                 | Hc : _ !! _ = Some ?n |- _ =>
                     lazymatch type of n with
                     | nat => pose proof (B4 _ _ Hc)
                     end
                 end);
            try (pose proof (B4 _ _ Hl));
            simpl; lia).
  (* si_frame: the frames of the callers that did not move *)
  all: intros c0 pc0 Hl; split_lookup.
  all: try (lazymatch goal with
            | |- frame_inv (_ ++ [EvPush _]) _ =>
                apply frame_inv_push; [|by eapply B7];
                let s := fresh "s" in
                let Hs := fresh "Hs" in
                let Hj := fresh "Hj" in
                intros s Hs Hj; simpl in Hj; simplify_eq;
                match goal with
                | Hc : _ !! ?c = Some ?pc, Ho : _ !! ?c' = Some ?pc', Hn : ?c ≠ ?c' |- _ =>
                    apply Hn; by eapply (B6 c c' pc pc')
                end
            | |- frame_inv (_ ++ [EvAcquire _]) _ =>
                apply frame_inv_acquire; [|by eapply B7];
                let Hs := fresh "Hs" in
                intros Hs;
                match goal with
                | Hc : _ !! ?c = Some ?pc, Ho : _ !! ?c' = Some ?pc', Hn : ?c ≠ ?c' |- _ =>
                    apply Hn; by eapply (B6 c c' pc pc')
                end
            | |- frame_inv (_ ++ [_]) _ =>
                apply frame_inv_other; [done|done|by eapply B7]
            | |- frame_inv _ _ => by eapply B7
            end; fail).
  all: try done.
  (* si_frame: the frame of the caller that moved *)
  all: match goal with
       | Hc : _ !! _ = Some ?pc |- frame_inv _ _ =>
           lazymatch type of pc with
           | cpc => pose proof (B7 _ _ Hc) as F; simpl in F
           end
       end.
  all: repeat match goal with
       | Hb : (_ <? _)%nat = true |- _ => apply Nat.ltb_lt in Hb
       | Hb : (_ <? _)%nat = false |- _ => apply Nat.ltb_ge in Hb
       | Hb : (_ <? _) = true |- _ => apply Z.ltb_lt in Hb
       | Hb : (_ <? _) = false |- _ => apply Z.ltb_ge in Hb
       end.
  (* run_tasks *)
  all: try (match goal with
            | |- frame_inv _ ?pc => is_run_tasks pc
            end;
            simpl; rewrite ?pushes_app, ?acquired_snoc; simpl;
            rewrite ?on_sem_snoc, ?app_nil_r in *; simpl;
            rewrite ?decide_True by done;
            try (destruct F as (F1 & F2 & F3)); try (destruct F as (F1 & F2));
            try (split; [by apply on_sem_fresh | by apply acquired_fresh]);
            try (rewrite <- app_assoc);
            try (rewrite F1);
            repeat split; try done; lia).
  (* run_loop *)
  - simpl. split; [by apply on_sem_fresh | by apply acquired_fresh].
  - simpl. destruct F as [F1 F2]. split; [done|]. intros Hw Ha He.
    rewrite full_width_convert by done. rewrite Z.sub_diag, F1.
    split; [lia|]. split; [by right|]. by rewrite loop_jobs_nil.
  - simpl. rewrite pushes_app, acquired_snoc; simpl. rewrite on_sem_snoc.
    rewrite decide_True by done. destruct F as [F1 F2]. split; [lia|].
    intros Hw Ha He. destruct (F2 Hw Ha He) as (G1 & G2 & G3).
    assert (Hi : in_size_t i) by (unfold in_size_t in *; lia).
    match goal with
    | Hlt : to_size_t i < _ |- _ => rewrite to_size_t_small in Hlt by done
    end.
    match goal with
    | Hn : incr _ i = Some ?i' |- _ =>
        apply full_width_incr in Hn;
        [subst i' | done | unfold in_size_t in *; lia | unfold in_size_t in *; lia]
    end.
    split; [lia|]. split; [left; lia|].
    rewrite G3. replace (i + 1 - start) with ((i - start) + 1) by lia.
    rewrite loop_jobs_snoc by lia. do 3 f_equal. lia.
  - simpl. destruct F as [F1 F2]. split; [done|].
    intros Hw Ha He. destruct (F2 Hw Ha He) as (G1 & G2 & G3).
    assert (Hi : in_size_t i) by (unfold in_size_t in *; lia).
    match goal with
    | Hge : _ ≤ to_size_t i |- _ => rewrite to_size_t_small in Hge by done
    end.
    rewrite G3. destruct G2 as [G2| ->].
    + by replace i with end_ by lia.
    + by rewrite !loop_jobs_nil by lia.
  - exact F.
  - simpl. destruct F as [F1 F2].
    split; [lia|]. split; [by right|]. split; [rewrite F1; lia | exact F2].
  - simpl. rewrite pushes_app, acquired_snoc; simpl.
    rewrite app_nil_r, decide_True by done.
    destruct F as (G1 & G2 & G3 & G4).
    split; [lia|]. split; [left; lia|]. split; [lia | exact G4].
  - simpl. destruct F as (G1 & G2 & G3 & G4).
    split; [rewrite G3; lia | exact G4].
Qed.

Lemma sem_inv_reachable r σ : reachable r σ → sem_inv σ.
Proof. induction 1; eauto using sem_inv_init, sem_inv_step. Qed.

Lemma flight_inv_reachable r σ : reachable r σ → flight_inv σ.
Proof. induction 1; eauto using flight_inv_init, flight_inv_step. Qed.

(** ** [run_tasks] is a barrier *)

Lemma on_sem_finished s h : on_sem s (finished h) = on_sem s (releases h).
Proof.
  induction h as [|e h IH] using rev_ind; [done|].
  rewrite finished_app, releases_app. unfold on_sem in *.
  rewrite !filter_app, IH. f_equal.
  destruct e as [j|j|j|j|s']; simpl; try done.
  destruct (job_sem j) eqn:E; simpl; [done|].
  rewrite filter_cons. by rewrite decide_False by congruence.
Qed.

Lemma on_sem_releasing_nil s (l : list wpc) :
  on_sem s (omap held_job l) = [] → on_sem s (omap releasing_job l) = [].
Proof.
  unfold on_sem. induction l as [|pc l IH]; [done|].
  destruct pc; simpl; try done.
  all: rewrite ?filter_cons; case_decide; try done.
Qed.

(** A caller that has pushed the closures [js] on its semaphore and has
    acquired it [length js] times knows that every one of them has run to
    its end, once. *)
Lemma semaphore_barrier r σ s js :
  reachable r σ → (s < length (sems σ))%nat →
  on_sem s (pushes (log σ)) = js → acquired s (log σ) = length js →
  on_sem s (releases (log σ)) ≡ₚ js ∧
  on_sem s (invokes (log σ)) ≡ₚ js ∧
  on_sem s (jobs (pool σ)) = [] ∧
  on_sem s (inflight σ) = [] ∧
  sems σ !! s = Some O.
Proof.
  intros Hr Hlt HP HA.
  pose proof (fifo_reachable _ _ Hr) as Hfifo.
  pose proof (flight_inv_reachable _ _ Hr) as [Hpops Hinv].
  pose proof (sem_inv_reachable _ _ Hr) as [B1 B2 B3 B4 B5 B6 B7].
  destruct (lookup_lt_is_Some_2 _ _ Hlt) as [n Hn].
  pose proof (B4 _ _ Hn) as Hcount.
  unfold fifo in Hfifo.
  assert (HF : on_sem s (pushes (log σ))
               = on_sem s (pops (log σ)) ++ on_sem s (jobs (pool σ))).
  { unfold on_sem. by rewrite Hfifo, filter_app. }
  assert (HQ : on_sem s (pops (log σ))
               ≡ₚ on_sem s (inflight σ) ++ on_sem s (releases (log σ))).
  { rewrite <- on_sem_finished. unfold on_sem at 1 2 3.
    by rewrite Hpops, filter_app. }
  assert (HI : on_sem s (invokes (log σ))
               ≡ₚ on_sem s (releasing σ) ++ on_sem s (releases (log σ))).
  { rewrite <- on_sem_finished. unfold on_sem at 1 2 3.
    by rewrite Hinv, filter_app. }
  pose proof (f_equal length HF) as HFl.
  pose proof (Permutation_length HQ) as HQl.
  rewrite HP, length_app in HFl. rewrite length_app in HQl.
  assert (Hj : on_sem s (jobs (pool σ)) = []) by (apply length_zero_iff_nil; lia).
  assert (Hi : on_sem s (inflight σ) = []) by (apply length_zero_iff_nil; lia).
  assert (n = O) as -> by lia.
  rewrite Hj, app_nil_r in HF. rewrite Hi in HQ. simpl in HQ.
  assert (Hrl : on_sem s (releasing σ) = [])
    by (by apply on_sem_releasing_nil).
  rewrite Hrl in HI. simpl in HI.
  assert (HR : on_sem s (releases (log σ)) ≡ₚ js).
  { by rewrite <- HQ, <- HF, HP. }
  repeat apply conj; try done. by rewrite HI.
Qed.

Lemma frame_step r mc L me pcm l σ σ' :
  step r l σ = Some σ' → clients σ !! me = Some pcm → frame mc L pcm →
  (L ≤ length (sems σ))%nat → calls_of me l = false →
  (L ≤ length (sems σ'))%nat ∧
  ((∃ pc', clients σ' !! me = Some pc' ∧ frame mc L pc') ∨
   (return_point pcm = true ∧ (∃ ch, l = LClient me ch) ∧
    clients σ' !! me = Some CIdle)).
Proof.
  intros [_ H]%step_fire.
  fire_cases H; intros Hc Hf HL Hno; simpl in *.
  all: rewrite ?length_insert, ?length_app; simpl.
  all: (split; [lia|]).
  all: try (left; exists pcm; split; [done|done]).
  all: try (apply Nat.eqb_neq in Hno).
  all: match goal with
       | Ho : _ !! ?c0 = Some _ |- _ =>
           destruct (decide (c0 = me)) as [->|Hne];
           [ simplify_eq
           | left; exists pcm; split; [by rewrite list_lookup_insert_ne | done] ]
       end.
  all: try done.
  all: destruct mc; simpl in Hf; try done.
  all: try (left; eexists; split;
            [apply list_lookup_insert_eq; by eapply lookup_lt_Some|];
            simpl; intuition (try done; try lia); fail).
  all: right; split; [done|]; split; [eauto|];
    apply list_lookup_insert_eq; by eapply lookup_lt_Some.
Qed.

Lemma step_log_prefix r l σ σ' : step r l σ = Some σ' → log σ `prefix_of` log σ'.
Proof.
  intros [_ H]%step_fire.
  fire_cases H; simpl; try done; by apply prefix_app_r.
Qed.

Lemma exec_log_prefix r ls σ σ' : exec r ls σ = Some σ' → log σ `prefix_of` log σ'.
Proof.
  revert σ. induction ls as [|l ls IH]; intros σ H.
  - change (exec r [] σ) with (Some σ) in H. by simplify_eq.
  - change (exec r (l :: ls) σ) with (step r l σ ≫= exec r ls) in H.
    destruct (step r l σ) as [σ1|] eqn:E; [|done]. simpl in H.
    etransitivity; [by eapply step_log_prefix | by apply IH].
Qed.

(** A caller inside a blocking call is idle again only after a transition
    of its own made at the return point of that call. *)
Lemma returns_at_return_point r mc L me ls σ σ' pcm :
  clients σ !! me = Some pcm → frame mc L pcm → (L ≤ length (sems σ))%nat →
  exec r ls σ = Some σ' →
  forallb (λ l, negb (calls_of me l)) ls = true →
  clients σ' !! me = Some CIdle →
  ∃ ls1 ch ls2 σ1 pc1,
    ls = ls1 ++ LClient me ch :: ls2 ∧
    exec r ls1 σ = Some σ1 ∧
    exec r (LClient me ch :: ls2) σ1 = Some σ' ∧
    clients σ1 !! me = Some pc1 ∧ frame mc L pc1 ∧ return_point pc1 = true.
Proof.
  revert σ pcm. induction ls as [|l ls IH]; intros σ pcm Hc Hf HL H Hno Hidle.
  - change (exec r [] σ) with (Some σ) in H. simplify_eq.
    by destruct mc.
  - change (exec r (l :: ls) σ) with (step r l σ ≫= exec r ls) in H.
    cbn [forallb] in Hno. apply andb_true_iff in Hno as [Hno1 Hno2].
    apply negb_true_iff in Hno1.
    destruct (step r l σ) as [σ2|] eqn:E; [|done]. simpl in H.
    destruct (frame_step r mc L me pcm l σ σ2 E Hc Hf HL Hno1)
      as [HL2 [(pc2 & Hc2 & Hf2) | (Hret & [ch ->] & Hc2)]].
    + destruct (IH σ2 pc2 Hc2 Hf2 HL2 H Hno2 Hidle)
        as (ls1 & ch & ls2 & σ1 & pc1 & -> & H1 & H2 & H3 & H4 & H5).
      exists (l :: ls1), ch, ls2, σ1, pc1. split; [done|]. split; [|done].
      change (exec r (l :: ls1) σ) with (step r l σ ≫= exec r ls1).
      by rewrite E.
    + exists [], ch, ls, σ, pcm. split; [done|]. split; [done|]. split; [|done].
      change (exec r (LClient me ch :: ls) σ)
        with (step r (LClient me ch) σ ≫= exec r ls).
      by rewrite E.
Qed.

Lemma on_sem_older s js (L : nat) :
  (∀ j s', j ∈ js → job_sem j = Some s' → (s' < L)%nat) → (L ≤ s)%nat →
  on_sem s js = [].
Proof.
  intros H HL. apply on_sem_fresh. intros j s' Hj Hs. specialize (H _ _ Hj Hs). lia.
Qed.

Lemma exec_cons r l ls σ : exec r (l :: ls) σ = step r l σ ≫= exec r ls.
Proof. reflexivity. Qed.



(** ** [run_loop] with a [size_t] index *)

Lemma loop_jobs_length b s a n : length (loop_jobs b s a n) = Z.to_nat n.
Proof. unfold loop_jobs. by rewrite length_fmap, length_seqZ. Qed.

(** When the body takes no argument or a [size_t], and the bounds are
    [size_t] values, [run_loop] is the barrier its comment describes: at its
    return point one closure per index of the range was pushed, in order,
    each has invoked the body once (with its index, if the body takes one)
    and released once; for an empty range nothing was pushed and nothing
    acquired.  The index types for which this fails are the subject of
    [run_loop_narrow_index]. *)
Lemma run_loop_full_width (σ : world) (c : nat) (a e : Z) (b : Body) (s : nat) :
  reachable Rev2 σ →
  clients σ !! c = Some (RL_ret a e b s) →
  full_width b → in_size_t a → in_size_t e →
  on_sem s (pushes (log σ)) = loop_jobs b s a (e - a) ∧
  acquired s (log σ) = Z.to_nat (e - a) ∧
  on_sem s (releases (log σ)) ≡ₚ loop_jobs b s a (e - a) ∧
  on_sem s (invokes (log σ)) ≡ₚ loop_jobs b s a (e - a) ∧
  (∀ k, a ≤ k < e → job_call (JLoop b k s) ∈ calls (log σ)) ∧
  (e ≤ a → on_sem s (pushes (log σ)) = [] ∧ acquired s (log σ) = O ∧
           on_sem s (invokes (log σ)) = []).
Proof.
  intros Hr Hc Hw Ha He.
  pose proof (sem_inv_reachable _ _ Hr) as [_ _ _ _ B5 _ B7].
  destruct (B7 _ _ Hc) as [HA HP]. simpl in HP, HA.
  specialize (HP Hw Ha He).
  pose proof (B5 _ _ _ Hc eq_refl) as Hlt.
  destruct (semaphore_barrier Rev2 σ s _ Hr Hlt HP)
    as (HR & HI & Hj & Hi & Hn); [by rewrite loop_jobs_length|].
  repeat apply conj; try done.
  - intros k Hk. unfold calls.
    apply (list_elem_of_fmap_2' _ _ (JLoop b k s)); [|done].
    assert (Hin : JLoop b k s ∈ on_sem s (invokes (log σ))).
    { rewrite HI. unfold loop_jobs.
      apply (list_elem_of_fmap_2' _ _ k); [|done].
      apply list_elem_of_lookup. exists (Z.to_nat (k - a)).
      rewrite lookup_seqZ_lt by lia. f_equal. lia. }
    unfold on_sem in Hin. by apply list_elem_of_filter in Hin as [_ ?].
  - intros Hle. rewrite loop_jobs_nil in * by lia.
    rewrite HA. repeat split; [done | lia |].
    by apply Permutation_nil_r in HI.
Qed.

(** Left alone on a pool whose lock is free, [run_loop] over an empty range
    with a [size_t] index runs through in eight steps: it creates its
    semaphore, takes and drops the lock, notifies, and returns; it pushes
    nothing and never waits. *)
Lemma run_loop_empty_range c ch a e b σ :
  full_width b → in_size_t a → in_size_t e → e ≤ a →
  life σ ≠ Destroyed → clients σ !! c = Some CIdle → data_lock (pool σ) = None →
  exec Rev2 (LCall c (CRunLoop a e b) :: replicate 7 (LClient c ch)) σ
  = Some (set_pool (notify_all (pool σ)) (set_sems (sems σ ++ [O]) σ)).
Proof.
  intros Hw Ha He Hle Hl Hc Hk. destruct_world σ. simpl in Hl, Hc, Hk. subst lk.
  pose proof (lookup_lt_Some _ _ _ Hc) as Hlt.
  erewrite exec_call; [|done|done|reflexivity].
  simpl replicate.
  caller_runs (RL_sem a e b).
  caller_runs (RL_lock a e b (length sm)).
  rewrite full_width_convert by done.
  caller_runs (RL_loop a e b (length sm) a).
  2:{ rewrite to_size_t_small by done.
      by rewrite (proj2 (Z.ltb_ge a e)) by lia. }
  caller_runs (RL_unlock a e b (length sm)).
  caller_runs (RL_notify a e b (length sm)).
  caller_runs (RL_acquire a e b (length sm) a).
  2:{ by rewrite (proj2 (Z.ltb_ge a e)) by lia. }
  caller_runs (RL_ret a e b (length sm)).
  change (exec Rev2 [] ?x) with (Some x).
  cbv [set_client set_pool set_clients set_sems notify_all mutex_unlock
         set_cv set_data_lock pool sems clients life log running threads jobs data_lock cv].
  rewrite !list_insert_insert_eq.
  rewrite list_insert_id by exact Hc. reflexivity.
Qed.

(** ** [run_loop] and narrow index types *)

Lemma int_loop_stuck_step r l σ σ' :
  int_loop_stuck σ → step r l σ = Some σ' → int_loop_stuck σ'.
Proof.
  intros I [_ H]%step_fire. revert I. unfold int_loop_stuck.
  fire_cases H; intros (Hj & Hr & Hl & Hs & Hc & Hg & pc & Ht & Hi);
    unfold int_loop_waiting in *; simplify_eq; simpl in *.
  all: repeat match goal with
       | Hw : [_] !! ?w = Some _ |- _ =>
           destruct w; simpl in Hw; simplify_eq; simpl in *
       | Hw : [] !! ?w = Some _ |- _ => by destruct w
       end; try done.
  all: repeat split; eauto.
Qed.

Lemma int_loop_stuck_exec r ls σ σ' :
  int_loop_stuck σ → exec r ls σ = Some σ' → int_loop_stuck σ'.
Proof.
  revert σ. induction ls as [|l ls IH]; intros σ I H.
  - change (Some σ = Some σ') in H. by simplify_eq.
  - change (step r l σ ≫= exec r ls = Some σ') in H.
    destruct (step r l σ) as [σ1|] eqn:E; [|done]. simpl in H.
    eapply IH; [|done]. by eapply int_loop_stuck_step.
Qed.

Lemma int_loop_world_stuck : int_loop_stuck int_loop_world.
Proof.
  unfold int_loop_stuck. repeat apply conj; try (vm_compute; reflexivity).
  exists WLoop. split; vm_compute; reflexivity.
Qed.

(** C4 at two inputs the signature admits.

    [run_loop(2147483648, 2147483649, f)] with [f] a
    [std::function<void(int)>]: the induction variable is an [int], the
    start converts to -2147483648, which compares as a huge [size_t], so
    nothing is pushed; the caller then waits for one signal that no job
    will ever send: it never returns and [f] is never invoked.

    [run_loop(256, 3, g)] with [g] a [std::function<void(uint8_t)>]: the
    start converts to 0, so jobs for 0, 1 and 2 are pushed although
    [start > end]; the caller waits for nothing and returns, and a worker
    invokes [g(0)]. *)
Theorem run_loop_narrow_index :
  (exec Rev2 int_loop_trace (init Rev2 1 1) = Some int_loop_world ∧
   pushes (log int_loop_world) = [] ∧
   clients int_loop_world = [int_loop_waiting] ∧
   sems int_loop_world !! 0%nat = Some O ∧
   step Rev2 (LClient 0 0) int_loop_world = None ∧
   (∀ ls σ, exec Rev2 ls int_loop_world = Some σ →
            calls (log σ) = [] ∧ clients σ = [int_loop_waiting])) ∧
  (exec Rev2 u8_loop_trace (init Rev2 1 1) = Some u8_loop_world ∧
   clients u8_loop_world !! 0%nat
   = Some (RL_ret 256 3 (BodyI type_uint8_t 5%nat) 0) ∧
   acquires (log u8_loop_world) = [] ∧
   calls (log u8_loop_world) = [(5%nat, Some 0)]).
Proof.
  split.
  - split; [vm_compute; reflexivity|].
    split; [vm_compute; reflexivity|].
    split; [vm_compute; reflexivity|].
    split; [vm_compute; reflexivity|].
    split; [vm_compute; reflexivity|].
    intros ls σ H.
    destruct (int_loop_stuck_exec Rev2 ls _ _ int_loop_world_stuck H)
      as (_ & _ & _ & _ & Hc & Hg & _).
    by rewrite Hg.
  - split; [vm_compute; reflexivity|].
    split; [vm_compute; reflexivity|].
    split; vm_compute; reflexivity.
Qed.

Lemma run_loop_narrow_index_witness :
  exec Rev2 [LWorker 0; LWorker 0] int_loop_world
  = Some (default int_loop_world (exec Rev2 [LWorker 0; LWorker 0] int_loop_world)) ∧
  calls (log (default int_loop_world
                (exec Rev2 [LWorker 0; LWorker 0] int_loop_world))) = [].
Proof.
  assert (H : exec Rev2 [LWorker 0; LWorker 0] int_loop_world
              = Some (default int_loop_world
                        (exec Rev2 [LWorker 0; LWorker 0] int_loop_world)))
    by (vm_compute; reflexivity).
  split; [exact H|].
  pose proof run_loop_narrow_index as [(_ & _ & _ & _ & _ & Hall) _].
  exact (proj1 (Hall _ _ H)).
Defined.

(** ** [front] is called on a non-empty queue *)

Lemma pop_inv_init r n k : pop_inv (init r n k).
Proof.
  rewrite init_unfold. split; simpl; intros w Hl; by split_lookup.
Qed.

Lemma pop_inv_step r l σ σ' :
  lock_inv r σ → step r l σ = Some σ' → pop_inv σ → pop_inv σ'.
Proof.
  intros L [_ H]%step_fire. revert L.
  fire_cases H; intros [L1 L2 _ _ _] [P1 P2]; simpl in *.
  all: split; simpl.
  all: intros w' Hl; split_lookup; simpl in *; try done.
  all: try (by eapply P1); try (by eapply P2).
  all: try (by left); try (by right).
  all: try (by destruct q).
  all: try (match goal with
            | |- _ ++ [_] ≠ [] => by intros ?%app_eq_nil
            | |- _ ++ [_] ≠ [] ∨ _ => left; by intros [_ ?]%app_eq_nil
            end).
  - destruct q, run; simpl in *; first [done | by right | by left].
  - destruct (P2 _ Heqo) as [|Hf]; [done|]. by rewrite Hf in *.
  - pose proof (L1 _ _ Hl eq_refl). pose proof (L1 _ _ Heqo eq_refl). congruence.
  - pose proof (L1 _ _ Hl eq_refl). pose proof (L1 _ _ Heqo eq_refl). congruence.
Qed.

Lemma pop_inv_reachable r σ : reachable r σ → pop_inv σ.
Proof.
  induction 1; eauto using pop_inv_init, pop_inv_step, lock_inv_reachable.
Qed.

(** X4.  [jobs.front()] is never called on an empty queue: at every
    reachable state, spurious wake-ups and the race with the destructor
    included, a worker that has reached
    [Job job = std::move(jobs.front())] finds a job and its statement can
    be executed. *)
Lemma front_is_defined r σ w :
  reachable r σ → threads (pool σ) !! w = Some WPop →
  ∃ σ', step r (LWorker w) σ = Some σ'.
Proof.
  intros Hr Hw.
  pose proof (pi_pop _ (pop_inv_reachable _ _ Hr) _ Hw) as Hq.
  pose proof (sd_done _ (shutdown_inv_reachable _ _ Hr)) as Hd.
  unfold step, fire. rewrite worker_step_any. unfold V2.worker_loop.
  rewrite Hw. simpl.
  destruct (jobs (pool σ)) as [|j q]; [done|].
  destruct (life σ) eqn:E; eauto.
  destruct Hd as [_ Hall]; [done|].
  by specialize (Hall _ _ Hw).
Qed.

(** ** A notification that comes too early *)

(** The notification can come too early.  The worker found the queue empty
    and the pool running, and is about to block; the destructor stores the
    flag and notifies; the worker then blocks.  From there the destructor
    waits in [join] and the worker in [wait]: only a spurious wake-up lets
    the shutdown go on. *)
Lemma notification_before_wait (r : revision) :
  exec r late_wait_trace (init r 1 1) = Some (late_wait_world r) ∧
  running (pool (late_wait_world r)) = false ∧
  threads (pool (late_wait_world r)) = [WBlocked] ∧
  cv (pool (late_wait_world r)) = [0%nat] ∧
  clients (late_wait_world r) = [D_join 0] ∧
  ∀ l σ', step r l (late_wait_world r) = Some σ' → l = LSpurious 0.
Proof.
  split; [destruct r; vm_compute; reflexivity|].
  split; [destruct r; vm_compute; reflexivity|].
  split; [destruct r; vm_compute; reflexivity|].
  split; [destruct r; vm_compute; reflexivity|].
  split; [destruct r; vm_compute; reflexivity|].
  intros l σ' H.
  destruct r, l as [[|w]|[|w]|[|c] m|[|c] ch]; vm_compute in H; try done.
Qed.

(** * Further properties *)

(** ** Constructing and growing, and where the jobs are *)

(** X1.  [explicit ThreadPool(n)], in both files: the constructor returns
    normally for every [n], and the object it leaves has exactly [n]
    workers, each at the entry of [worker_loop], an empty queue, a free
    mutex, nobody waiting and the flag up; [size()] is [n]. *)
Theorem explicit_ctor_starts_workers (n : Z) :
  0 ≤ n →
  V1.ThreadPool_explicit n
  = (Ok tt, mkPool true (replicate (Z.to_nat n) WLoop) [] None []) ∧
  V2.ThreadPool_explicit n
  = (Ok tt, mkPool true (replicate (Z.to_nat n) WLoop) [] None []) ∧
  V1.size (snd (V1.ThreadPool_explicit n)) = n ∧
  V2.size (snd (V2.ThreadPool_explicit n)) = n.
Proof.
  intros Hn. unfold V1.ThreadPool_explicit, V2.ThreadPool_explicit.
  change (V1.reset n fresh_pool) with (V2.reset n fresh_pool).
  change V1.size with V2.size.
  assert (Hs : V2.size fresh_pool ≤ n) by (unfold V2.size; simpl; lia).
  rewrite V2_reset_grow by done. simpl.
  unfold V2.size, set_threads. simpl. rewrite Z.sub_0_r.
  repeat split; rewrite ?length_replicate; lia.
Qed.

Lemma explicit_ctor_starts_workers_witness :
  V2.ThreadPool_explicit 3 = (Ok tt, mkPool true [WLoop; WLoop; WLoop] [] None []).
Proof.
  exact (proj1 (proj2 (explicit_ctor_starts_workers 3 ltac:(lia)))).
Defined.

(** X2.  Growing in two steps is growing in one: on a pool of at most [n]
    threads, [reset(n)] followed by [reset(m)], [n <= m], returns normally
    and leaves the object that [reset(m)] alone leaves; after the pool has
    grown to [m], [reset(n)] with [n < m] throws and changes nothing. *)
Theorem reset_composes (n m : Z) (p : ThreadPool) :
  V2.size p ≤ n → n ≤ m →
  V2.reset m (snd (V2.reset n p)) = V2.reset m p ∧
  V1.reset m (snd (V1.reset n p)) = V1.reset m p ∧
  fst (V2.reset m p) = Ok tt ∧
  (n < m → ∃ e, V2.reset n (snd (V2.reset m p)) = (Throw e, snd (V2.reset m p))).
Proof.
  intros Hn Hm.
  change V1.reset with V2.reset.
  assert (Hc : V2.reset m (snd (V2.reset n p)) = V2.reset m p).
  { pose proof (V2_reset_size n p Hn) as Hsz.
    rewrite (V2_reset_grow m (snd _)) by lia. rewrite Hsz.
    rewrite (V2_reset_grow m p) by lia.
    rewrite (V2_reset_grow n p) by lia. simpl. f_equal.
    unfold set_threads. simpl. f_equal.
    rewrite <- app_assoc, <- replicate_add. do 2 f_equal. unfold V2.size in *. lia. }
  split; [exact Hc|]. split; [exact Hc|].
  split; [by rewrite V2_reset_grow by lia|].
  intros Hlt. eexists. apply V2_reset_shrink.
  rewrite V2_reset_size by lia. done.
Qed.

Lemma reset_composes_witness :
  V2.reset 5 (snd (V2.reset 3 fresh_pool)) = V2.reset 5 fresh_pool ∧
  ∃ e, V2.reset 3 (snd (V2.reset 5 fresh_pool)) = (Throw e, snd (V2.reset 5 fresh_pool)).
Proof.
  destruct (reset_composes 3 5 fresh_pool) as (H1 & _ & _ & H2);
    [vm_compute; discriminate | lia |].
  split; [exact H1 | apply H2; lia].
Defined.

Lemma releasing_sublist (l : list wpc) :
  omap releasing_job l `sublist_of` omap held_job l.
Proof.
  induction l as [|pc l IH]; [constructor|].
  destruct pc; simpl; try done; by constructor.
Qed.

Lemma invokes_popped r σ : reachable r σ → invokes (log σ) ⊆+ pops (log σ).
Proof.
  intros Hr. pose proof (flight_inv_reachable _ _ Hr) as [Hp Hi].
  rewrite Hp, Hi. apply submseteq_skips_r, sublist_submseteq, releasing_sublist.
Qed.

Lemma invokes_pushed r σ : reachable r σ → invokes (log σ) ⊆+ pushes (log σ).
Proof.
  intros Hr. pose proof (fifo_reachable _ _ Hr) as Hf. unfold fifo in Hf.
  rewrite Hf. by apply submseteq_inserts_r, (invokes_popped r).
Qed.

(** X5.  No job is lost and none is run twice.  At every reachable state the
    jobs pushed so far are, as a multiset, the jobs that have run to their
    end, the jobs held by workers and the jobs still queued; the jobs
    invoked are among the jobs popped, hence among the jobs pushed, each at
    most as often as it was pushed. *)
Theorem tasks_accounted (r : revision) (σ : world) :
  reachable r σ →
  pushes (log σ) ≡ₚ finished (log σ) ++ inflight σ ++ jobs (pool σ) ∧
  invokes (log σ) ⊆+ pops (log σ) ∧
  invokes (log σ) ⊆+ pushes (log σ) ∧
  calls (log σ) ⊆+ job_call <$> pushes (log σ).
Proof.
  intros Hr.
  pose proof (fifo_reachable _ _ Hr) as Hf. unfold fifo in Hf.
  pose proof (flight_inv_reachable _ _ Hr) as [Hp Hi].
  pose proof (invokes_popped _ _ Hr) as H1.
  pose proof (invokes_pushed _ _ Hr) as H2.
  split; [|split; [done|split; [done|]]].
  - rewrite Hf, Hp. rewrite (comm (++) (inflight σ)). by rewrite app_assoc.
  - unfold calls. by apply fmap_submseteq.
Qed.

Lemma tasks_accounted_witness :
  invokes (log demo_world_done) ⊆+ pushes (log demo_world_done).
Proof.
  exact (proj1 (proj2 (proj2 (tasks_accounted Rev2 demo_world_done demo_done_reachable)))).
Defined.

Lemma on_sem_submseteq s l k : l ⊆+ k → on_sem s l ⊆+ on_sem s k.
Proof.
  unfold on_sem. induction 1 as [|x l k _ IH|x y l|x l k _ IH|l k m _ IH1 _ IH2].
  - done.
  - rewrite !filter_cons. case_decide; [by constructor | done].
  - rewrite !filter_cons. repeat case_decide; try done. apply submseteq_swap.
  - rewrite filter_cons. case_decide; [by constructor | done].
  - by etransitivity.
Qed.

(** X10.  The count of a caller's semaphore is the number of closures that
    have released it minus the number of times it was acquired; so
    [sem.acquire()] has never returned more often than [sem.release()] was
    called, every closure that released had invoked its callable, and every
    closure that invoked had been pushed. *)
Theorem semaphore_accounting (r : revision) (σ : world) (s n : nat) :
  reachable r σ → sems σ !! s = Some n →
  (n + acquired s (log σ))%nat = length (on_sem s (releases (log σ))) ∧
  (acquired s (log σ) ≤ length (on_sem s (releases (log σ))))%nat ∧
  on_sem s (releases (log σ)) ⊆+ on_sem s (invokes (log σ)) ∧
  on_sem s (invokes (log σ)) ⊆+ on_sem s (pushes (log σ)).
Proof.
  intros Hr Hs.
  pose proof (sem_inv_reachable _ _ Hr) as [_ _ _ B4 _ _ _].
  pose proof (B4 _ _ Hs) as Hc.
  pose proof (flight_inv_reachable _ _ Hr) as [_ Hi].
  pose proof (invokes_pushed _ _ Hr) as H3.
  split; [done|]. split; [lia|]. split.
  - rewrite <- on_sem_finished. apply on_sem_submseteq.
    rewrite Hi. by apply submseteq_inserts_l.
  - by apply on_sem_submseteq.
Qed.

Lemma semaphore_accounting_witness :
  (0 + acquired 0 (log demo_world_done))%nat
  = length (on_sem 0 (releases (log demo_world_done))).
Proof.
  exact (proj1 (semaphore_accounting Rev2 demo_world_done 0 0 demo_done_reachable
                  ltac:(vm_compute; reflexivity))).
Defined.

(** ** One owner of the mutex *)

Lemma queue_step_owner r l σ σ' :
  lock_inv r σ → step r l σ = Some σ' → jobs (pool σ') ≠ jobs (pool σ) →
  ∃ o, thread_of l = Some o ∧ data_lock (pool σ) = Some o.
Proof.
  intros L [_ H]%step_fire. revert L.
  fire_cases H; intros [L1 L2 _ _ _] Hq; simpl in *; try done.
  all: eexists; split; [reflexivity|].
  all: first [ by eapply L1 | by eapply L2 ].
Qed.

(** X3.  [data_lock] has one owner.  At every reachable state no two
    workers, no two callers and no worker together with a caller are
    between taking and releasing the mutex; when the mutex is free nobody
    is; and a transition that changes the queue is made by the thread that
    owns the mutex. *)
Theorem mutual_exclusion (r : revision) (σ : world) :
  reachable r σ →
  (∀ w w' pc pc', threads (pool σ) !! w = Some pc → threads (pool σ) !! w' = Some pc' →
     w_holds pc = true → w_holds pc' = true → w = w') ∧
  (∀ c c' pc pc', clients σ !! c = Some pc → clients σ !! c' = Some pc' →
     c_holds r pc = true → c_holds r pc' = true → c = c') ∧
  (∀ w c pc pc', threads (pool σ) !! w = Some pc → clients σ !! c = Some pc' →
     w_holds pc = true → c_holds r pc' = true → False) ∧
  (data_lock (pool σ) = None →
     (∀ w pc, threads (pool σ) !! w = Some pc → w_holds pc = false) ∧
     (∀ c pc, clients σ !! c = Some pc → c_holds r pc = false)) ∧
  (∀ l σ', step r l σ = Some σ' → jobs (pool σ') ≠ jobs (pool σ) →
     ∃ o, thread_of l = Some o ∧ data_lock (pool σ) = Some o).
Proof.
  intros Hr. pose proof (lock_inv_reachable r σ Hr) as L.
  pose proof L as [L1 L2 L3 L4 L5].
  repeat apply conj.
  - intros w w' pc pc' Hw Hw' Hh Hh'.
    pose proof (L1 _ _ Hw Hh). pose proof (L1 _ _ Hw' Hh'). congruence.
  - intros c c' pc pc' Hc Hc' Hh Hh'.
    pose proof (L2 _ _ Hc Hh). pose proof (L2 _ _ Hc' Hh'). congruence.
  - intros w c pc pc' Hw Hc Hh Hh'.
    pose proof (L1 _ _ Hw Hh). pose proof (L2 _ _ Hc Hh'). congruence.
  - intros Hn. split.
    + intros w pc Hw. destruct (w_holds pc) eqn:E; [|done].
      pose proof (L1 _ _ Hw E). congruence.
    + intros c pc Hc. destruct (c_holds r pc) eqn:E; [|done].
      pose proof (L2 _ _ Hc E). congruence.
  - intros l σ' Hs Hq. by eapply queue_step_owner.
Qed.

Lemma mutual_exclusion_witness :
  threads (pool (race_world Rev2)) !! 0%nat = Some WPop ∧
  ∀ c pc, clients (race_world Rev2) !! c = Some pc → c_holds Rev2 pc = true → False.
Proof.
  assert (Hw : threads (pool (race_world Rev2)) !! 0%nat = Some WPop)
    by (vm_compute; reflexivity).
  split; [exact Hw|].
  intros c pc Hc Hh.
  exact (proj1 (proj2 (proj2 (mutual_exclusion Rev2 (race_world Rev2)
                                (race_reachable Rev2))))
           0%nat c WPop pc Hw Hc eq_refl Hh).
Defined.

(** ** The life of a worker *)

Lemma alive_inv_init r n k : alive_inv (init r n k).
Proof.
  rewrite init_unfold. split; simpl.
  - intros c pc Hl. by split_lookup.
  - done.
  - intros w Hl. by split_lookup.
Qed.

Lemma alive_inv_step r l σ σ' : step r l σ = Some σ' → alive_inv σ → alive_inv σ'.
Proof.
  intros [_ H]%step_fire.
  fire_cases H; intros [A1 A2 A3]; simpl in *.
  all: split; simpl.
  all: try (intros c' pc' Hl Hd; split_lookup; simpl in *; try done; by eapply A1).
  all: try (intros w' Hl; split_lookup; simpl in *; try done; by eapply A3).
  all: try (intros Hlf; try done; by eapply A2).
  all: try (intros Hlf; exfalso; by eapply A1).
  intros w0 _. by destruct run.
Qed.

Lemma alive_inv_reachable r σ : reachable r σ → alive_inv σ.
Proof. induction 1; eauto using alive_inv_init, alive_inv_step. Qed.

(** X7.  No worker returns from [worker_loop] before the destructor has
    started: while the object is alive the flag is up, no worker has
    returned and no caller is in the destructor.  A worker that has
    returned has seen the flag down, does not own the mutex, and stays
    returned. *)
Theorem worker_lifecycle (r : revision) (σ : world) :
  reachable r σ →
  (life σ = Alive →
     running (pool σ) = true ∧
     (∀ w, threads (pool σ) !! w ≠ Some WExit) ∧
     (∀ c pc, clients σ !! c = Some pc → in_dtor pc = false)) ∧
  (∀ w, threads (pool σ) !! w = Some WExit →
     running (pool σ) = false ∧ life σ ≠ Alive ∧
     data_lock (pool σ) ≠ Some (OWorker w) ∧
     ∀ l σ', step r l σ = Some σ' → threads (pool σ') !! w = Some WExit).
Proof.
  intros Hr. pose proof (alive_inv_reachable r σ Hr) as [A1 A2 A3].
  pose proof (lock_inv_reachable r σ Hr) as [_ _ L3 _ _].
  split.
  - intros Ha. split; [auto|]. split.
    + intros w Hw. specialize (A3 _ Hw). rewrite A2 in A3; done.
    + intros c pc Hc. destruct (in_dtor pc) eqn:E; [|done].
      by destruct (A1 _ _ Hc E).
  - intros w Hw. pose proof (A3 _ Hw) as Hrun.
    split; [done|]. split.
    { intros Ha. rewrite A2 in Hrun; done. }
    split.
    { intros Hl. destruct (L3 _ Hl) as (pc & Hpc & Hh). by simplify_eq. }
    intros l σ' [_ H]%step_fire. clear A1 A2 A3 L3 Hrun. revert Hw.
    fire_cases H; intros Hw; simpl in *; try done.
    all: try (destruct (decide (w0 = w)) as [->|?];
              [congruence | by rewrite list_lookup_insert_ne]).
    all: try (by apply lookup_app_l_Some).
Qed.

Lemma worker_lifecycle_witness :
  running (pool demo_world) = true ∧
  ∀ w, threads (pool demo_world) !! w ≠ Some WExit.
Proof.
  destruct (proj1 (worker_lifecycle Rev2 demo_world demo_reachable)
              ltac:(vm_compute; reflexivity)) as (H1 & H2 & _).
  split; [exact H1 | exact H2].
Defined.

(** ** One worker keeps the order *)

Lemma order_inv_init r n k : order_inv (init r n k).
Proof.
  rewrite init_unfold. intros _. simpl.
  generalize (Z.to_nat n). intros m. induction m; simpl; done.
Qed.

Lemma omap_pending_replicate (l : list wpc) m :
  omap pending_job (l ++ replicate m WLoop) = omap pending_job l.
Proof. by apply omap_app_replicate_none. Qed.

Ltac one_thread :=
  match goal with
  | Hl : ?ths !! ?w = Some _, Hlen : (length (<[?w := _]> ?ths) ≤ 1)%nat |- _ =>
      rewrite length_insert in Hlen;
      destruct ths as [|? [|? ?]]; simpl in Hlen; [done| |lia];
      destruct w as [|?]; [|done]; simpl in Hl; simplify_eq; simpl in *
  end.

Lemma order_inv_step r l σ σ' : step r l σ = Some σ' → order_inv σ → order_inv σ'.
Proof.
  intros [_ H]%step_fire. unfold order_inv.
  fire_cases H; intros I Hlen; simpl in *.
  all: rewrite ?pops_app, ?invokes_app; simpl; rewrite ?app_nil_r.
  all: try one_thread.
  all: try (specialize (I ltac:(lia)); simpl in I; rewrite ?app_nil_r in I).
  all: try done.
  all: try (by rewrite I).
  all: try (rewrite omap_pending_replicate; apply I;
            rewrite length_app in Hlen; lia).
  all: try (by rewrite I, <- app_assoc).
  all: by rewrite app_nil_r.
Qed.

Lemma order_inv_reachable r σ : reachable r σ → order_inv σ.
Proof. induction 1; eauto using order_inv_init, order_inv_step. Qed.

(** X6.  A pool with a single worker (or none) runs the tasks in the order
    of submission: at every reachable state the sequence of invoked jobs is
    a prefix of the sequence of popped jobs and of the sequence of pushed
    jobs. *)
Theorem single_worker_runs_in_order (r : revision) (σ : world) :
  reachable r σ → (length (threads (pool σ)) ≤ 1)%nat →
  invokes (log σ) `prefix_of` pops (log σ) ∧
  invokes (log σ) `prefix_of` pushes (log σ) ∧
  calls (log σ) `prefix_of` job_call <$> pushes (log σ).
Proof.
  intros Hr Hlen.
  pose proof (order_inv_reachable r σ Hr Hlen) as Ho.
  pose proof (fifo_reachable r σ Hr) as Hf. unfold fifo in Hf.
  assert (H1 : invokes (log σ) `prefix_of` pops (log σ)).
  { rewrite Ho. by apply prefix_app_r. }
  assert (H2 : invokes (log σ) `prefix_of` pushes (log σ)).
  { rewrite Hf. by apply prefix_app_r. }
  split; [done|]. split; [done|].
  destruct H2 as [k Hk]. exists (job_call <$> k).
  unfold calls. by rewrite Hk, fmap_app.
Qed.

Lemma single_worker_runs_in_order_witness :
  invokes (log demo_world_done) `prefix_of` pushes (log demo_world_done).
Proof.
  exact (proj1 (proj2 (single_worker_runs_in_order Rev2 demo_world_done
                         demo_done_reachable ltac:(vm_compute; lia)))).
Defined.

(** ** First in, first out *)

Lemma detach_frame_mono m news more pc :
  detach_frame m news pc → detach_frame m (news ++ more) pc.
Proof.
  destruct m, pc; simpl; try done.
  all: try (intros H; by apply sublist_inserts_r).
  intros (pushed & -> & H). exists pushed. split; [done|]. by apply sublist_inserts_r.
Qed.

Lemma step_pushes r l σ σ' :
  step r l σ = Some σ' → pushes (log σ) `prefix_of` pushes (log σ').
Proof.
  intros [k Hk]%step_log_prefix. rewrite Hk. unfold pushes. rewrite omap_app.
  by apply prefix_app_r.
Qed.

Lemma detach_frame_step r mc P me pcm l σ σ' news :
  step r l σ = Some σ' → clients σ !! me = Some pcm →
  pushes (log σ) = P ++ news → detach_frame mc news pcm →
  calls_of me l = false →
  ∃ news', pushes (log σ') = P ++ news' ∧
    ((∃ pc', clients σ' !! me = Some pc' ∧ detach_frame mc news' pc') ∨
     (clients σ' !! me = Some CIdle ∧ detach_jobs mc `sublist_of` news')).
Proof.
  intros Hs. pose proof (step_pushes _ _ _ _ Hs) as [k Hk].
  intros Hc Hp Hf Hno. exists (news ++ k).
  split; [by rewrite Hk, Hp, app_assoc|].
  revert Hc Hp Hf Hno Hk. apply step_fire in Hs as [_ H].
  fire_cases H; intros Hc Hp Hf Hno Hk; simpl in *.
  all: try (left; exists pcm; split; [done | by apply detach_frame_mono]).
  all: try (apply Nat.eqb_neq in Hno).
  all: match goal with
       | Ho : _ !! ?c0 = Some _ |- _ =>
           destruct (decide (c0 = me)) as [->|Hne];
           [ simplify_eq
           | left; exists pcm; split;
             [by rewrite list_lookup_insert_ne | by apply detach_frame_mono] ]
       end.
  all: try done.
  all: destruct mc; simpl in Hf; try done.
  all: rewrite ?pushes_app in Hk; simpl in Hk.
  all: rewrite ?Hp in Hk.
  all: first [ apply app_inv_head in Hk
             | rewrite <- (app_nil_r (P ++ news)) in Hk at 1; apply app_inv_head in Hk ].
  all: subst k.
  all: pose proof (lookup_lt_Some _ _ _ Heqo) as Hlt.
  all: rewrite list_lookup_insert_eq by done.
  all: try (right; split; [done|]; simpl; rewrite app_nil_r; done).
  all: left; eexists; split; [done|]; simpl.
  all: try done.
  all: try (by apply sublist_inserts_r).
  all: try (by apply sublist_inserts_l).
  all: try (exists []; split; [done|]; apply sublist_nil_l).
  all: try (destruct Hf as (pushed & -> & Hf); rewrite app_nil_r;
            by apply sublist_inserts_r).
  all: try (subst; by apply sublist_inserts_l).
  all: destruct Hf as (pushed & Hts & Hf); exists (pushed ++ [c1]);
    (split; [by rewrite <- app_assoc|]); rewrite fmap_app; by apply sublist_app.
Qed.

(** A caller inside [detach_task] or [detach_tasks] is idle again only
    after its jobs have been pushed, in the order of its argument. *)
Lemma detach_pushes_all r mc P me ls σ σ' pcm news :
  clients σ !! me = Some pcm → pushes (log σ) = P ++ news → detach_frame mc news pcm →
  exec r ls σ = Some σ' →
  forallb (λ l, negb (calls_of me l)) ls = true →
  clients σ' !! me = Some CIdle →
  ∃ news', pushes (log σ') = P ++ news' ∧ detach_jobs mc `sublist_of` news'.
Proof.
  revert σ pcm news. induction ls as [|l ls IH]; intros σ pcm news Hc Hp Hf H Hno Hidle.
  - change (exec r [] σ) with (Some σ) in H. simplify_eq.
    by destruct mc.
  - change (exec r (l :: ls) σ) with (step r l σ ≫= exec r ls) in H.
    cbn [forallb] in Hno. apply andb_true_iff in Hno as [Hno1 Hno2].
    apply negb_true_iff in Hno1.
    destruct (step r l σ) as [σ2|] eqn:E; [|done]. simpl in H.
    destruct (detach_frame_step r mc P me pcm l σ σ2 news E Hc Hp Hf Hno1)
      as (news2 & Hp2 & [(pc2 & Hc2 & Hf2) | (Hc2 & Hsub)]).
    + by apply (IH σ2 pc2 news2).
    + destruct (exec_log_prefix _ _ _ _ H) as [k Hk].
      exists (news2 ++ pushes k).
      split.
      * rewrite Hk. unfold pushes in *. rewrite omap_app, Hp2. by rewrite app_assoc.
      * by apply sublist_inserts_r.
Qed.

Lemma overtake_reachable r : reachable r (overtake_world r).
Proof.
  apply (exec_reachable r overtake_trace (init r 2 1)).
  - apply reachable_init.
  - destruct r; vm_compute; reflexivity.
Qed.

(** C5.  The queue is first in, first out, in both revisions.  A call of
    [detach_task] or [detach_tasks] that has returned has pushed its tasks,
    in the order given, whatever the other threads did meanwhile; left
    alone it appends exactly its tasks at the tail of the queue; each push
    appends at the tail and the worker removes the head and keeps it.  At
    every reachable state the jobs pushed so far are the jobs popped so
    far, in the same order, followed by the queue: jobs leave the queue in
    the order in which they entered it.  A job is invoked after it was
    removed, outside the lock: the jobs invoked are among the jobs removed,
    and with at most one worker they are invoked in the order of
    insertion. *)
Theorem queue_is_fifo (r : revision) (σ : world) :
  reachable r σ →
  pushes (log σ) = pops (log σ) ++ jobs (pool σ) ∧
  (∀ c t ls σ', exec r (LCall c (CDetachTask t) :: ls) σ = Some σ' →
     forallb (λ l, negb (calls_of c l)) ls = true →
     clients σ' !! c = Some CIdle →
     ∃ news, pushes (log σ') = pushes (log σ) ++ news ∧ [JTask t] `sublist_of` news) ∧
  (∀ c ts ls σ', exec r (LCall c (CDetachTasks ts) :: ls) σ = Some σ' →
     forallb (λ l, negb (calls_of c l)) ls = true →
     clients σ' !! c = Some CIdle →
     ∃ news, pushes (log σ') = pushes (log σ) ++ news ∧
             (JTask <$> ts) `sublist_of` news) ∧
  (∀ c ch t l, life σ ≠ Destroyed → clients σ !! c = Some CIdle →
     data_lock (pool σ) = None → wake_one ch (cv (pool σ)) = Some l →
     ∃ σ', exec r (whole_detach_task c ch t) σ = Some σ' ∧
           jobs (pool σ') = jobs (pool σ) ++ [JTask t] ∧
           pushes (log σ') = pushes (log σ) ++ [JTask t] ∧
           clients σ' !! c = Some CIdle) ∧
  (∀ c ch ts, life σ ≠ Destroyed → clients σ !! c = Some CIdle →
     data_lock (pool σ) = None →
     ∃ σ', exec r (whole_detach_tasks c ch ts) σ = Some σ' ∧
           jobs (pool σ') = jobs (pool σ) ++ (JTask <$> ts) ∧
           pushes (log σ') = pushes (log σ) ++ (JTask <$> ts) ∧
           clients σ' !! c = Some CIdle) ∧
  (∀ c ch t σ', clients σ !! c = Some (DT_push t) →
     step r (LClient c ch) σ = Some σ' →
     jobs (pool σ') = jobs (pool σ) ++ [JTask t]) ∧
  (∀ c ch t rest σ', clients σ !! c = Some (DTs_loop (t :: rest)) →
     step r (LClient c ch) σ = Some σ' →
     jobs (pool σ') = jobs (pool σ) ++ [JTask t] ∧
     clients σ' !! c = Some (DTs_loop rest)) ∧
  (∀ w σ', threads (pool σ) !! w = Some WPop →
     step r (LWorker w) σ = Some σ' →
     ∃ j q, jobs (pool σ) = j :: q ∧ jobs (pool σ') = q ∧
            threads (pool σ') !! w = Some (WUnlock j) ∧
            pops (log σ') = pops (log σ) ++ [j]) ∧
  pops (log σ) `prefix_of` pushes (log σ) ∧
  invokes (log σ) ⊆+ pops (log σ) ∧
  ((length (threads (pool σ)) ≤ 1)%nat → invokes (log σ) `prefix_of` pushes (log σ)).
Proof.
  intros Hr.
  pose proof (fifo_reachable r σ Hr) as Hfifo. unfold fifo in Hfifo.
  assert (Hcall : ∀ c mc pc0 ls σ',
            match r with Rev1 => V1.enter mc σ | Rev2 => V2.enter mc σ end = Some (pc0, σ) →
            detach_frame mc [] pc0 →
            exec r (LCall c mc :: ls) σ = Some σ' →
            forallb (λ l, negb (calls_of c l)) ls = true →
            clients σ' !! c = Some CIdle →
            ∃ news, pushes (log σ') = pushes (log σ) ++ news ∧
                    detach_jobs mc `sublist_of` news).
  { intros c mc pc0 ls σ' He Hf H Hno Hidle.
    destruct (call_cases c σ) as [Href|[Hl Hc]];
      [by rewrite exec_call_refused in H|].
    erewrite exec_call in H by done.
    apply (detach_pushes_all r mc (pushes (log σ)) c ls (set_client c pc0 σ) σ' pc0 []);
      try done.
    - simpl. apply list_lookup_insert_eq. by eapply lookup_lt_Some.
    - simpl. by rewrite app_nil_r. }
  split; [exact Hfifo|].
  split; [intros c t ls σ'; apply (Hcall c (CDetachTask t) (DT_lock t)); by destruct r|].
  split; [intros c ts ls σ'; apply (Hcall c (CDetachTasks ts) (DTs_lock ts)); by destruct r|].
  clear Hcall.
  split.
  { intros c ch t l Hl Hc Hk Hw. rewrite detach_task_run by done.
    unfold after_detach_task. rewrite Hw. simpl. eexists. split; [done|]. simpl.
    split; [done|]. split; [|done]. by rewrite pushes_app. }
  split.
  { intros c ch ts Hl Hc Hk. rewrite detach_tasks_run by done.
    eexists. split; [done|]. simpl. split; [done|]. split; [|done].
    unfold pushes. rewrite omap_app. f_equal.
    clear. induction ts as [|t ts IH]; [done|]. csimpl. by f_equal. }
  split.
  { intros c ch t σ' Hc [_ H]%step_fire.
    unfold fire, caller_step in H. rewrite Hc in H. by destruct r; simplify_option_eq. }
  split.
  { intros c ch t rest σ' Hc [_ H]%step_fire.
    unfold fire, caller_step in H. rewrite Hc in H.
    destruct r; simplify_option_eq; (split; [done|]);
      apply list_lookup_insert_eq; by eapply lookup_lt_Some. }
  split.
  { intros w σ' Hw [_ H]%step_fire.
    unfold fire in H. rewrite worker_step_any in H.
    unfold V2.worker_loop in H. rewrite Hw in H. simpl in H.
    destruct (jobs (pool σ)) as [|j q] eqn:E; [done|].
    simplify_eq. exists j, q. split; [done|]. simpl.
    split; [done|]. split.
    + apply list_lookup_insert_eq. by eapply lookup_lt_Some.
    + by rewrite pops_app. }
  split; [rewrite Hfifo; by apply prefix_app_r|].
  split; [by apply (invokes_popped r)|].
  intros Hlen. rewrite Hfifo, (order_inv_reachable r σ Hr Hlen), <- app_assoc.
  by apply prefix_app_r.
Qed.

Lemma queue_is_fifo_witness :
  (∃ σ', exec Rev1 (whole_detach_tasks 0 0 [3; 4]%nat) (init Rev1 2 1) = Some σ' ∧
         jobs (pool σ') = jobs (pool (init Rev1 2 1)) ++ (JTask <$> [3; 4]%nat)) ∧
  pushes (log (overtake_world Rev1))
  = pops (log (overtake_world Rev1)) ++ jobs (pool (overtake_world Rev1)).
Proof.
  split.
  - destruct (queue_is_fifo Rev1 (init Rev1 2 1) (reachable_init Rev1 2 1))
      as (_ & _ & _ & _ & H & _).
    destruct (H 0%nat 0%nat [3; 4]%nat) as (σ' & H1 & H2 & _).
    + vm_compute. discriminate.
    + vm_compute. reflexivity.
    + vm_compute. reflexivity.
    + exists σ'. split; [exact H1 | exact H2].
  - exact (proj1 (queue_is_fifo Rev1 (overtake_world Rev1) (overtake_reachable Rev1))).
Defined.

(** C5 as stated fails where it takes removal from the queue for the start
    of execution.  The two tasks leave the queue in the order in which they
    entered it, and the second is invoked before the first. *)
Lemma start_order_differs :
  (pushes (log (overtake_world Rev1)) = [JTask 3%nat; JTask 4%nat] ∧
   pops (log (overtake_world Rev1)) = [JTask 3%nat; JTask 4%nat] ∧
   invokes (log (overtake_world Rev1)) = [JTask 4%nat; JTask 3%nat]) ∧
  ¬ starts_in_insertion_order Rev1 ∧ ¬ starts_in_insertion_order Rev2.
Proof.
  split; [|split].
  - repeat apply conj; vm_compute; reflexivity.
  - intros H. destruct (H _ (overtake_reachable Rev1)) as [k Hk].
    vm_compute in Hk. discriminate Hk.
  - intros H. destruct (H _ (overtake_reachable Rev2)) as [k Hk].
    vm_compute in Hk. discriminate Hk.
Qed.

(** ** A queued job is not forgotten *)

Lemma existsb_eqb_elem (w : nat) (l : list nat) :
  existsb (Nat.eqb w) l = true ↔ w ∈ l.
Proof.
  rewrite existsb_exists. split.
  - intros (x & Hx & ->%Nat.eqb_eq). by apply list_elem_of_In.
  - intros H. exists w. split; [by apply list_elem_of_In | apply Nat.eqb_refl].
Qed.

Lemma existsb_eqb_not_elem (w : nat) (l : list nat) :
  existsb (Nat.eqb w) l = false ↔ w ∉ l.
Proof. rewrite <- existsb_eqb_elem. by destruct (existsb _ _). Qed.

Lemma wake_inv_init r n k : wake_inv r (init r n k).
Proof.
  rewrite init_unfold. split; simpl.
  - intros w Hw. by apply elem_of_nil in Hw.
  - intros w Hl. by split_lookup.
  - done.
Qed.

Lemma wake_cv_step r l σ σ' :
  step r l σ = Some σ' →
  (∀ w, w ∈ cv (pool σ) → threads (pool σ) !! w = Some WBlocked) →
  (∀ w, w ∈ cv (pool σ') → threads (pool σ') !! w = Some WBlocked).
Proof.
  intros [_ H]%step_fire.
  fire_cases H; intros K1 w0 Hin; simpl in *.
  all: try (by apply elem_of_nil in Hin).
  all: try (apply list_elem_of_filter in Hin as [? Hin]).
  all: try (apply elem_of_app in Hin as [Hin | ->%list_elem_of_singleton];
            [|apply list_lookup_insert_eq; by eapply lookup_lt_Some]).
  all: pose proof (K1 _ Hin) as Hb.
  all: try done.
  all: try (by apply lookup_app_l_Some).
  all: try (match goal with
            | Hw : ?ths !! ?w = Some _ |- <[?w := _]> ?ths !! ?w0 = _ =>
                destruct (decide (w = w0)) as [->|?];
                [ try congruence | by rewrite list_lookup_insert_ne ]
            end).
  all: try (match goal with
            | Hx : is_waiting _ _ = false |- _ =>
                unfold is_waiting in Hx; simpl in Hx;
                apply existsb_eqb_not_elem in Hx; done
            end).
Qed.

Lemma wake_wait_step r l σ σ' :
  lock_inv r σ → step r l σ = Some σ' →
  (∀ w, threads (pool σ) !! w = Some WWait → jobs (pool σ) = []) →
  (∀ w, threads (pool σ') !! w = Some WWait → jobs (pool σ') = []).
Proof.
  intros L [_ H]%step_fire. revert L.
  fire_cases H; intros [L1 L2 _ _ _] K2 w0 Hl; simpl in *.
  all: split_lookup; simpl in *; try done.
  all: try (by eapply K2).
  all: try (by destruct q).
  all: try (pose proof (L1 _ _ Hl eq_refl));
       try (match goal with
            | Hc : _ !! _ = Some _ |- _ => pose proof (L2 _ _ Hc eq_refl)
            end);
       try (match goal with
            | Hc : _ !! _ = Some WPop |- _ => pose proof (L1 _ _ Hc eq_refl)
            end);
       try congruence.
Qed.

Ltac keep_awake K :=
  let w0 := fresh "w0" in
  let pc0 := fresh "pc0" in
  let Hw0 := fresh "Hw0" in
  let Hn0 := fresh "Hn0" in
  destruct K as [(w0 & pc0 & Hw0 & Hn0) | (w0 & pc0 & Hw0 & Hn0)];
  [ left;
    first
      [ exists w0, pc0; split; [by apply lookup_app_l_Some | ]
      | match goal with
        | |- ∃ w pc, <[?w1 := ?pc1]> _ !! w = Some pc ∧ _ =>
            destruct (decide (w1 = w0)) as [->|?];
            [ exists w0, pc1; split;
              [ apply list_lookup_insert_eq; by eapply lookup_lt_Some | ]
            | exists w0, pc0; split; [by rewrite list_lookup_insert_ne | ] ]
        | |- _ => exists w0, pc0; split; [done|]
        end ];
    first [ done | rewrite list_elem_of_filter; by intros [? ?] ]
  | right;
    match goal with
    | |- ∃ c pc, <[?c1 := ?pc1]> _ !! c = Some pc ∧ _ =>
        destruct (decide (c1 = w0)) as [->|?];
        [ exists w0, pc1; split;
          [ apply list_lookup_insert_eq; by eapply lookup_lt_Some
          | simplify_eq; done ]
        | exists w0, pc0; split; [by rewrite list_lookup_insert_ne | done] ]
    | |- _ => exists w0, pc0; split; [done|done]
    end ].

Lemma wake_awake_step r l σ σ' :
  step r l σ = Some σ' → wake_inv r σ →
  jobs (pool σ') ≠ [] → running (pool σ') = true → threads (pool σ') ≠ [] →
  (∃ w pc, threads (pool σ') !! w = Some pc ∧ w ∉ cv (pool σ')) ∨
  (∃ c pc, clients σ' !! c = Some pc ∧ will_notify r pc = true).
Proof.
  intros [_ H]%step_fire.
  fire_cases H; intros [K1 K2 K3] Hq Hrun Hths; simpl in *.
  all: try done.
  (* the caller has pushed and will notify *)
  all: try (right; eexists _, _; split;
            [apply list_lookup_insert_eq; by eapply lookup_lt_Some | reflexivity]; fail).
  (* a worker about to block saw the queue empty *)
  all: try (match goal with
            | Hw : _ !! _ = Some WWait |- _ => by rewrite (K2 _ Hw) in Hq
            end).
  (* notify_all, or notify_one with nobody waiting *)
  all: try (match goal with
            | |- (∃ w pc, ?ths !! w = Some pc ∧ w ∉ []) ∨ _ =>
                left; destruct ths as [|pc0 ths0]; [done|];
                exists O, pc0; split; [done | apply not_elem_of_nil]
            end).
  (* notify_one wakes the chosen waiter *)
  all: try (match goal with
            | Hx : existsb (Nat.eqb ?ch) ?cvs = true |- _ =>
                apply existsb_eqb_elem in Hx; left; exists ch, WBlocked;
                split; [by apply K1|];
                rewrite list_elem_of_filter; by intros [? ?]
            end).
  (* everything else leaves an awake worker awake *)
  all: try (let K := fresh "K" in
            assert (K := K3 ltac:(done) ltac:(done) ltac:(by intros ->));
            keep_awake K; fail).
  (* notify_one wakes the chosen waiter *)
  3,4: match goal with
       | |- (∃ w pc, _ ∧ w ∉ filter _ ?cvs) ∨ _ =>
           assert (Hin : ch ∈ cvs) by (by apply existsb_eqb_elem);
           left; exists ch, WBlocked; split; [by apply K1|];
           rewrite list_elem_of_filter; by intros [? ?]
       end.
  (* reset: the threads it appends do not wait *)
  all: destruct ths as [|pc0 ths0];
    [ left; simpl in *;
      match goal with
      | |- ∃ w pc, ?l !! w = Some pc ∧ _ =>
          destruct l as [|pc1 l1]; [done|]; exists O, pc1; split; [done|];
          intros Hin%K1; done
      end
    | assert (K := K3 ltac:(done) ltac:(done) ltac:(done)); keep_awake K ].
Qed.

Lemma wake_inv_step r l σ σ' :
  lock_inv r σ → step r l σ = Some σ' → wake_inv r σ → wake_inv r σ'.
Proof.
  intros L Hs K. split.
  - eapply wake_cv_step; [done|]. apply K.
  - eapply wake_wait_step; [done|done|]. apply K.
  - by eapply wake_awake_step.
Qed.

Lemma wake_inv_reachable r σ : reachable r σ → wake_inv r σ.
Proof.
  induction 1; eauto using wake_inv_init, wake_inv_step, lock_inv_reachable.
Qed.

(** X8.  A queued job is not forgotten in either revision.  At every
    reachable state in which the queue is not empty, the flag is up and the
    pool has a thread, some worker is neither asleep in the condition
    variable nor about to fall asleep nor gone, or some caller that has
    pushed still has its notification to send. *)
Theorem queued_job_finds_worker (r : revision) (σ : world) :
  reachable r σ →
  jobs (pool σ) ≠ [] → running (pool σ) = true → threads (pool σ) ≠ [] →
  (∃ w pc, threads (pool σ) !! w = Some pc ∧ pc ≠ WExit ∧ pc ≠ WWait ∧
           w ∉ cv (pool σ)) ∨
  (∃ c pc, clients σ !! c = Some pc ∧ will_notify r pc = true).
Proof.
  intros Hr Hq Hrun Hths.
  pose proof (wake_inv_reachable r σ Hr) as [K1 K2 K3].
  pose proof (alive_inv_reachable r σ Hr) as [_ _ A3].
  destruct (K3 Hq Hrun Hths) as [(w & pc & Hw & Hn)|?]; [left|by right].
  exists w, pc. split; [done|]. split; [|split; [|done]].
  - intros ->. specialize (A3 _ Hw). congruence.
  - intros ->. by specialize (K2 _ Hw).
Qed.

(** ** One worker serving the queue *)

Lemma exec_worker r w σ σ' ls :
  life σ ≠ Destroyed → V2.worker_loop w σ = Some σ' →
  exec r (LWorker w :: ls) σ = exec r ls σ'.
Proof.
  intros Hl Hs.
  change (exec r (LWorker w :: ls) σ) with (step r (LWorker w) σ ≫= exec r ls).
  unfold step, fire. rewrite worker_step_any.
  destruct (life σ); try done; by rewrite Hs.
Qed.

Ltac worker_runs :=
  erewrite exec_worker;
  [ | simpl; done
    | unfold V2.worker_loop; cbn [pool threads];
      first [ erewrite list_lookup_insert_eq by (rewrite ?length_insert; eassumption)
            | match goal with Hw : _ !! _ = Some _ |- _ => rewrite Hw end ];
      cbn; reflexivity ];
  cbv [set_thread set_pool set_threads set_jobs set_data_lock mutex_unlock emit
       pool threads running jobs data_lock cv life sems clients log];
  rewrite ?list_insert_insert_eq.

Lemma serve_one r w j q ths cvs lf sm cl lg ls :
  lf ≠ Destroyed → ths !! w = Some WLoop →
  (∀ s, job_sem j = Some s → (s < length sm)%nat) →
  exec r (serve_steps w j ++ ls) (mkWorld (mkPool true ths (j :: q) None cvs) lf sm cl lg)
  = exec r ls (mkWorld (mkPool true ths q None cvs) lf (released sm j) cl
                       (lg ++ serve_log j)).
Proof.
  intros Hl Hw Hs. pose proof (lookup_lt_Some _ _ _ Hw) as Hlt.
  unfold serve_steps, serve_log, released.
  destruct (job_sem j) as [s|] eqn:Ej.
  - destruct (lookup_lt_is_Some_2 sm s (Hs _ eq_refl)) as [n Hn]. rewrite Hn.
    cbn [replicate app].
    do 7 worker_runs. rewrite Ej.
    erewrite exec_worker; [|done|].
    2:{ unfold V2.worker_loop. cbn [pool threads].
        rewrite list_lookup_insert_eq by done. cbn. rewrite Ej. cbn.
        unfold sem_release. cbn. rewrite Hn. cbn. reflexivity. }
    cbv [set_thread set_pool set_threads set_sems emit
         pool threads running jobs data_lock cv life sems clients log].
    rewrite list_insert_insert_eq, list_insert_id by done.
    by rewrite <- !app_assoc.
  - cbn [replicate app].
    do 7 worker_runs. rewrite Ej.
    change (exec r ([] ++ ls)) with (exec r ls).
    rewrite list_insert_id by done.
    by rewrite <- !app_assoc.
Qed.

Lemma released_length sm j : length (released sm j) = length sm.
Proof.
  unfold released. repeat case_match; by rewrite ?length_insert.
Qed.

Lemma serve_all r w js q ths cvs lf sm cl lg ls :
  lf ≠ Destroyed → ths !! w = Some WLoop →
  Forall (λ j, ∀ s, job_sem j = Some s → (s < length sm)%nat) js →
  exec r ((js ≫= serve_steps w) ++ ls)
       (mkWorld (mkPool true ths (js ++ q) None cvs) lf sm cl lg)
  = exec r ls (mkWorld (mkPool true ths q None cvs) lf (foldl released sm js) cl
                       (lg ++ (js ≫= serve_log))).
Proof.
  intros Hl Hw. revert sm lg. induction js as [|j js IH]; intros sm lg Hs.
  - simpl. by rewrite app_nil_r.
  - apply Forall_cons in Hs as [Hj Hs].
    rewrite !bind_cons, <- !app_assoc. cbn [app].
    rewrite serve_one by done.
    rewrite IH.
    + cbn [foldl]. by rewrite <- app_assoc.
    + eapply Forall_impl; [exact Hs|]. intros j' Hj' s. rewrite released_length. auto.
Qed.

(** X9.  One worker left alone empties the queue.  From a state in which
    the flag is up, the mutex is free and worker [w] is at the head of its
    loop, the passes of [w] through [worker_loop], one per queued job, take
    the jobs from the head one after the other, invoke each once in queue
    order, release the semaphore of each closure that has one, and leave the
    queue empty and [w] at the head of its loop again. *)
Theorem worker_drains_queue (r : revision) (σ : world) (w : nat) :
  life σ ≠ Destroyed → running (pool σ) = true → data_lock (pool σ) = None →
  threads (pool σ) !! w = Some WLoop →
  Forall (λ j, ∀ s, job_sem j = Some s → (s < length (sems σ))%nat) (jobs (pool σ)) →
  exec r (jobs (pool σ) ≫= serve_steps w) σ = Some (after_jobs (jobs (pool σ)) σ) ∧
  jobs (pool (after_jobs (jobs (pool σ)) σ)) = [] ∧
  invokes (log (after_jobs (jobs (pool σ)) σ)) = invokes (log σ) ++ jobs (pool σ) ∧
  threads (pool (after_jobs (jobs (pool σ)) σ)) !! w = Some WLoop.
Proof.
  intros Hl Hrun Hk Hw Hs. destruct_world σ. simpl in *. subst run lk.
  split; [|split; [|split]].
  - pose proof (serve_all r w q [] ths cvs lf sm cl lg [] Hl Hw Hs) as H.
    rewrite !app_nil_r in H. rewrite H. unfold after_jobs. simpl.
    by rewrite drop_all.
  - unfold after_jobs. simpl. by rewrite drop_all.
  - unfold after_jobs. simpl. unfold invokes. rewrite omap_app. f_equal.
    clear. induction q as [|j q IH]; [done|].
    rewrite bind_cons, omap_app, IH. unfold serve_log.
    by destruct (job_sem j).
  - done.
Qed.

(** ** [run_tasks] from call to return *)

Lemma run_tasks_pushes c ch ts s rest run ths q lk cvs lf sm cl lg ls :
  lf ≠ Destroyed → cl !! c = Some (RT_loop ts s rest) →
  exec Rev2 (replicate (length rest) (LClient c ch) ++ ls)
       (mkWorld (mkPool run ths q lk cvs) lf sm cl lg)
  = exec Rev2 ls (mkWorld (mkPool run ths (q ++ (wrap s <$> rest)) lk cvs) lf sm
                          (<[c := RT_loop ts s []]> cl)
                          (lg ++ ((λ t, EvPush (wrap s t)) <$> rest))).
Proof.
  revert q cl lg. induction rest as [|t rest IH]; intros q cl lg Hl Hc.
  - simpl. by rewrite list_insert_id, !app_nil_r.
  - pose proof (lookup_lt_Some _ _ _ Hc) as Hlt.
    cbn [length replicate app].
    erewrite (exec_caller _ _ _ (RT_loop ts s (t :: rest))); [|done|done|reflexivity].
    unfold push, emit, set_client, set_pool, set_clients, set_jobs; simpl.
    rewrite IH; [|done|by apply list_lookup_insert_eq].
    by rewrite list_insert_insert_eq, <- !app_assoc.
Qed.

Lemma run_tasks_acquires c ch ts s i k m p lf sm cl lg ls :
  lf ≠ Destroyed → cl !! c = Some (RT_acquire ts s i) →
  sm !! s = Some (k + m)%nat → (i + k ≤ length ts)%nat →
  exec Rev2 (replicate k (LClient c ch) ++ ls) (mkWorld p lf sm cl lg)
  = exec Rev2 ls (mkWorld p lf (<[s := m]> sm)
                          (<[c := RT_acquire ts s (i + k)]> cl)
                          (lg ++ replicate k (EvAcquire s))).
Proof.
  revert i sm cl lg. induction k as [|k IH]; intros i sm cl lg Hl Hc Hs Hi.
  - simpl. rewrite Nat.add_0_r, !list_insert_id, app_nil_r by done. done.
  - pose proof (lookup_lt_Some _ _ _ Hc) as Hlt.
    pose proof (lookup_lt_Some _ _ _ Hs) as Hlts.
    cbn [replicate app].
    erewrite (exec_caller _ _ _ (RT_acquire ts s i)); [|done|done|].
    2:{ simpl. rewrite (proj2 (Nat.ltb_lt i (length ts))) by lia.
        unfold sem_acquire. simpl. rewrite Hs. simpl. reflexivity. }
    unfold emit, set_client, set_pool, set_clients, set_sems; simpl.
    rewrite (IH (S i)); [|done| | |lia].
    + rewrite !list_insert_insert_eq, <- app_assoc. simpl.
      by replace (S (i + k))%nat with (i + S k)%nat by lia.
    + by apply list_lookup_insert_eq.
    + by apply list_lookup_insert_eq.
Qed.

Lemma released_all sm n js :
  Forall (λ j, job_sem j = Some (length sm)) js →
  foldl released (sm ++ [n]) js = sm ++ [(n + length js)%nat].
Proof.
  revert n. induction js as [|j js IH]; intros n Hs; simpl.
  - by rewrite Nat.add_0_r.
  - apply Forall_cons in Hs as [Hj Hs].
    unfold released at 2. rewrite Hj.
    rewrite lookup_app_r, Nat.sub_diag by done. simpl.
    rewrite insert_app_r_alt, Nat.sub_diag by done. simpl.
    rewrite IH by done. do 2 f_equal. lia.
Qed.

Lemma serve_steps_all w js :
  Forall (λ j, is_Some (job_sem j)) js →
  js ≫= serve_steps w = replicate (8 * length js) (LWorker w).
Proof.
  induction js as [|j js IH]; intros Hs; [done|].
  apply Forall_cons in Hs as [[s Hj] Hs].
  rewrite bind_cons, IH by done. unfold serve_steps. rewrite Hj.
  rewrite <- replicate_add. f_equal. simpl length. lia.
Qed.

Lemma invokes_served lg js more :
  invokes (lg ++ (EvPush <$> js) ++ (js ≫= serve_log) ++ (EvAcquire <$> more))
  = invokes lg ++ js.
Proof.
  unfold invokes. rewrite !omap_app. f_equal.
  assert (omap (λ e, match e with EvInvoke j => Some j | _ => None end)
            (EvPush <$> js) = []) as ->.
  { induction js; simpl; done. }
  assert (omap (λ e, match e with EvInvoke j => Some j | _ => None end)
            (EvAcquire <$> more) = []) as ->.
  { induction more; simpl; done. }
  rewrite app_nil_r. simpl.
  induction js as [|j js IH]; [done|].
  rewrite bind_cons, omap_app, IH. unfold serve_log. by destruct (job_sem j).
Qed.

(** The first pass of a worker that wakes inside [cv.wait]. *)
Lemma serve_woken r w j s n q ths lf sm cl lg ls :
  lf ≠ Destroyed → ths !! w = Some WBlocked →
  job_sem j = Some s → sm !! s = Some n →
  exec r (replicate 7 (LWorker w) ++ ls)
       (mkWorld (mkPool true ths (j :: q) None []) lf sm cl lg)
  = exec r ls (mkWorld (mkPool true (<[w := WLoop]> ths) q None []) lf (released sm j) cl
                       (lg ++ serve_log j)).
Proof.
  intros Hl Hw Ej Hn. pose proof (lookup_lt_Some _ _ _ Hw) as Hlt.
  unfold serve_log, released. rewrite Ej, Hn.
  cbn [replicate app].
  do 6 worker_runs. rewrite Ej.
  erewrite exec_worker; [|done|].
  2:{ unfold V2.worker_loop. cbn [pool threads].
      rewrite list_lookup_insert_eq by done. cbn. rewrite Ej. cbn.
      unfold sem_release. cbn. rewrite Hn. cbn. reflexivity. }
  cbv [set_thread set_pool set_threads set_sems emit
       pool threads running jobs data_lock cv life sems clients log].
  rewrite list_insert_insert_eq.
  by rewrite <- !app_assoc.
Qed.

(** An idle worker, notified, serves all the closures of one call. *)
Lemma serve_from_idle r w pc s js ths lf sm cl lg ls :
  lf ≠ Destroyed → ths !! w = Some pc → idle_worker pc = true →
  Forall (λ j, job_sem j = Some s) js → (s < length sm)%nat →
  exec r (serving_steps w pc (length js) ++ ls)
       (mkWorld (mkPool true ths js None []) lf sm cl lg)
  = exec r ls (mkWorld (mkPool true (served w (length js) ths) [] None []) lf
                       (foldl released sm js) cl (lg ++ (js ≫= serve_log))).
Proof.
  intros Hl Hw Hi Hs Hlt.
  assert (Hall : ∀ js' ths', ths' !! w = Some WLoop →
            Forall (λ j, job_sem j = Some s) js' → ∀ sm' lg', length sm' = length sm →
            exec r (replicate (8 * length js') (LWorker w) ++ ls)
              (mkWorld (mkPool true ths' js' None []) lf sm' cl lg')
            = exec r ls (mkWorld (mkPool true ths' [] None []) lf
                           (foldl released sm' js') cl (lg' ++ (js' ≫= serve_log)))).
  { intros js' ths' Hw' Hs' sm' lg' Hlen.
    rewrite <- serve_steps_all.
    2:{ eapply Forall_impl; [exact Hs'|]. intros j ->. eauto. }
    rewrite <- (app_nil_r js') at 2.
    rewrite serve_all; [done|done|done|].
    eapply Forall_impl; [exact Hs'|]. intros j -> s' [= <-]. lia. }
  destruct pc; try done.
  - (* at the head of the loop *)
    assert (Hsv : served w (length js) ths = ths).
    { unfold served. destruct (length js); [done|]. by apply list_insert_id. }
    rewrite Hsv.
    replace (serving_steps w WLoop (length js))
      with (replicate (8 * length js) (LWorker w)) by (by destruct js).
    by apply Hall.
  - (* inside the wait *)
    destruct js as [|j js]; [by rewrite app_nil_r|].
    apply Forall_cons in Hs as [Hj Hs].
    destruct (lookup_lt_is_Some_2 sm s Hlt) as [n Hn].
    unfold serving_steps, served. cbn [length]. rewrite <- app_assoc.
    rewrite (serve_woken r w j s n) by done.
    rewrite Hall; [| |done|by rewrite released_length].
    2:{ apply list_lookup_insert_eq. by eapply lookup_lt_Some. }
    rewrite bind_cons, <- app_assoc. done.
Qed.

Lemma run_tasks_entry_run c ts ths cvs lf sm cl lg ls :
  lf ≠ Destroyed → cl !! c = Some CIdle →
  exec Rev2 (run_tasks_entry c ts ++ ls) (mkWorld (mkPool true ths [] None cvs) lf sm cl lg)
  = exec Rev2 ls
      (mkWorld (mkPool true ths (wrap (length sm) <$> ts) None []) lf (sm ++ [O])
               (<[c := RT_acquire ts (length sm) 0]> cl)
               (lg ++ (EvPush <$> (wrap (length sm) <$> ts)))).
Proof.
  intros Hl Hc. pose proof (lookup_lt_Some _ _ _ Hc) as Hlt.
  unfold run_tasks_entry. rewrite <- app_comm_cons, <- !app_assoc.
  erewrite exec_call; [|done|done|reflexivity].
  cbn [replicate app].
  caller_runs (RT_sem ts).
  caller_runs (RT_lock ts (length sm)).
  cbv [set_client set_pool set_clients set_sems set_data_lock
       pool threads running jobs data_lock cv life sems clients log].
  rewrite !list_insert_insert_eq.
  rewrite (run_tasks_pushes c 0%nat ts (length sm) ts); [|done|by apply list_lookup_insert_eq].
  rewrite list_insert_insert_eq. cbn [app].
  caller_runs (RT_loop ts (length sm) []).
  caller_runs (RT_unlock ts (length sm)).
  caller_runs (RT_notify ts (length sm)).
  cbv [set_client set_pool set_clients mutex_unlock notify_all set_cv set_data_lock
       pool threads running jobs data_lock cv life sems clients log].
  rewrite !list_insert_insert_eq. cbn [app].
  by rewrite <- list_fmap_compose.
Qed.

(** X11.  [run_tasks(tasks)] returns when a worker is there to serve it.  On
    a running pool with an empty queue, a free mutex and an idle worker [w],
    be it at the head of its loop or asleep in [cv.wait], the caller's steps
    followed by the worker's and the caller's again end with the caller back
    from the call, the queue empty, the mutex free, nobody waiting, the
    semaphore used up, and every task invoked exactly once, in the order of
    [tasks]; the notification has woken the sleeping worker, which is at
    the head of its loop at the end.  Having queued and notified, the
    caller cannot take its first acquire before the worker has released:
    it waits.  For an empty [tasks] the call returns without waiting and
    the worker does not move. *)
Theorem run_tasks_completes (c w : nat) (pc : wpc) (ts : list callable) (σ : world) :
  life σ ≠ Destroyed → clients σ !! c = Some CIdle →
  data_lock (pool σ) = None → running (pool σ) = true → jobs (pool σ) = [] →
  threads (pool σ) !! w = Some pc → idle_worker pc = true →
  exec Rev2 (whole_run_tasks c w pc ts) σ = Some (after_run_tasks w ts σ) ∧
  invokes (log (after_run_tasks w ts σ))
  = invokes (log σ) ++ (wrap (length (sems σ)) <$> ts) ∧
  calls (log (after_run_tasks w ts σ)) = calls (log σ) ++ ((λ t, (t, None)) <$> ts) ∧
  (ts ≠ [] → threads (pool (after_run_tasks w ts σ)) !! w = Some WLoop) ∧
  (ts ≠ [] → ∀ ch, exec Rev2 (run_tasks_entry c ts ++ [LClient c ch]) σ = None).
Proof.
  intros Hl Hc Hk Hrun Hq Hw Hi. destruct_world σ. simpl in Hl, Hc, Hk, Hrun, Hq, Hw.
  subst lk run q.
  pose proof (lookup_lt_Some _ _ _ Hc) as Hlt.
  assert (Hinv : invokes (lg ++ run_tasks_log (length sm) ts)
                 = invokes lg ++ (wrap (length sm) <$> ts))
    by apply invokes_served.
  split; [|split; [|split; [|split]]].
  - unfold whole_run_tasks, after_run_tasks.
    cbv [pool threads running jobs data_lock cv life sems clients log].
    rewrite run_tasks_entry_run by done.
    rewrite <- (length_fmap (wrap (length sm)) ts) at 1.
    rewrite (serve_from_idle Rev2 w pc (length sm)); [|done|done|done| |].
    2:{ apply Forall_forall. by intros j [t [-> _]]%list_elem_of_fmap. }
    2:{ rewrite length_app. simpl. lia. }
    rewrite released_all.
    2:{ apply Forall_forall. by intros j [t [-> _]]%list_elem_of_fmap. }
    rewrite !length_fmap. cbn [Nat.add].
    rewrite (run_tasks_acquires c 0%nat ts (length sm) 0%nat (length ts) 0%nat); [|done| | |lia].
    2:{ by apply list_lookup_insert_eq. }
    2:{ rewrite lookup_app_r, Nat.sub_diag by done. simpl. f_equal. lia. }
    rewrite list_insert_insert_eq. simpl.
    caller_runs (RT_acquire ts (length sm) (length ts)).
    2:{ by rewrite Nat.ltb_irrefl. }
    caller_runs (RT_ret ts (length sm)).
    change (exec Rev2 [] ?x) with (Some x).
    cbv [set_client set_pool set_clients
         pool threads running jobs data_lock cv life sems clients log].
    rewrite !list_insert_insert_eq. rewrite (list_insert_id cl) by done.
    rewrite insert_app_r_alt, Nat.sub_diag by done. cbn [insert list_insert].
    unfold run_tasks_log.
    rewrite fmap_replicate. by rewrite <- !app_assoc.
  - exact Hinv.
  - unfold calls, after_run_tasks. simpl. rewrite Hinv, fmap_app.
    f_equal. rewrite <- list_fmap_compose. done.
  - intros Hne. unfold after_run_tasks. cbn [pool threads].
    destruct ts as [|t ts]; [done|]. cbn [length served].
    apply list_lookup_insert_eq. by eapply lookup_lt_Some.
  - intros Hne ch. rewrite run_tasks_entry_run by done.
    apply (exec_caller_blocked Rev2 c ch (RT_acquire ts (length sm) 0)).
    + simpl. by apply list_lookup_insert_eq.
    + destruct ts as [|t ts]; [done|]. simpl.
      unfold sem_acquire. simpl.
      by rewrite lookup_app_r, Nat.sub_diag by done.
Qed.

(** ** The destructor on an idle pool *)

Lemma workers_exit r pre ths q lf sm cl lg ls :
  lf ≠ Destroyed → Forall (λ pc, idle_worker pc = true) ths →
  exec r (mjoin (imap (λ i, exit_steps (length pre + i)) ths) ++ ls)
       (mkWorld (mkPool false (pre ++ ths) q None []) lf sm cl lg)
  = exec r ls (mkWorld (mkPool false (pre ++ replicate (length ths) WExit) q None [])
                       lf sm cl lg).
Proof.
  intros Hl. revert pre. induction ths as [|pc ths IH]; intros pre Hi.
  - done.
  - apply Forall_cons in Hi as [Hpc Hi].
    rewrite imap_cons. cbn [mjoin list_join]. rewrite <- app_assoc.
    rewrite Nat.add_0_r.
    assert (Hw : (pre ++ pc :: ths) !! length pre = Some pc)
      by apply list_lookup_middle, eq_refl.
    assert (Hlt : (length pre < length (pre ++ pc :: ths))%nat)
      by (rewrite length_app; simpl; lia).
    assert (Hins : ∀ x, <[length pre := x]> (pre ++ pc :: ths) = pre ++ x :: ths).
    { intros x. rewrite insert_app_r_alt, Nat.sub_diag by done. done. }
    assert (Hnext : exec r (mjoin (imap ((λ i, exit_steps (length pre + i)) ∘ S) ths) ++ ls)
              (mkWorld (mkPool false (pre ++ WExit :: ths) q None []) lf sm cl lg)
            = exec r ls (mkWorld (mkPool false
                                    (pre ++ replicate (length (pc :: ths)) WExit) q None [])
                                 lf sm cl lg)).
    { rewrite (imap_ext _ (λ i, exit_steps (length (pre ++ [WExit]) + i))).
      2:{ intros i x _. simpl. rewrite length_app. simpl. f_equal. lia. }
      replace (pre ++ WExit :: ths) with ((pre ++ [WExit]) ++ ths)
        by (by rewrite <- app_assoc).
      rewrite (IH (pre ++ [WExit])) by done.
      by rewrite <- app_assoc. }
    destruct pc; try done; unfold exit_steps; cbn [replicate app].
    + worker_runs. by rewrite Hins.
    + erewrite exec_worker; [|done|].
      2:{ unfold V2.worker_loop. cbn [pool threads]. rewrite Hw. cbn. reflexivity. }
      cbv [set_thread set_pool set_threads set_jobs set_data_lock mutex_unlock emit
           pool threads running jobs data_lock cv life sems clients log].
      erewrite exec_worker; [|done|].
      2:{ unfold V2.worker_loop. cbn [pool threads].
          rewrite list_lookup_insert_eq by done. cbn.
          rewrite orb_true_r. reflexivity. }
      cbv [set_thread set_pool set_threads set_jobs set_data_lock mutex_unlock emit
           pool threads running jobs data_lock cv life sems clients log].
      rewrite list_insert_insert_eq.
      worker_runs. by rewrite Hins.
Qed.

Lemma joins_pass r c k n q lk cvs run lf sm cl lg ls :
  lf ≠ Destroyed → cl !! c = Some (D_join k) →
  exec r (replicate n (LClient c 0) ++ ls)
       (mkWorld (mkPool run (replicate (k + n) WExit) q lk cvs) lf sm cl lg)
  = exec r ls (mkWorld (mkPool run (replicate (k + n) WExit) q lk cvs) lf sm
                       (<[c := D_join (k + n)]> cl) lg).
Proof.
  intros Hl. revert k cl. induction n as [|n IH]; intros k cl Hc.
  - rewrite Nat.add_0_r. by rewrite list_insert_id.
  - pose proof (lookup_lt_Some _ _ _ Hc) as Hlt.
    cbn [replicate app].
    erewrite (exec_caller _ _ _ (D_join k) (D_join (S k))); [|done|done|].
    2:{ destruct r; simpl; rewrite lookup_replicate_2 by lia; reflexivity. }
    unfold set_client, set_clients. cbn [pool life sems clients log].
    replace (k + S n)%nat with (S k + n)%nat by lia.
    rewrite IH by (by apply list_lookup_insert_eq).
    by rewrite list_insert_insert_eq.
Qed.

(** X17.  The destructor returns on an idle pool.  When every worker is at
    the head of its loop or blocked in [cv.wait], the destructor's store
    and notification, the return of every worker and the joins end with
    the object destroyed: the flag down, every worker returned, the mutex
    free.  The jobs still queued stay where they are and the history is
    unchanged: none of them is invoked. *)
Theorem destructor_completes (r : revision) (c : nat) (σ : world) :
  life σ = Alive → clients σ !! c = Some CIdle → data_lock (pool σ) = None →
  Forall (λ pc, idle_worker pc = true) (threads (pool σ)) →
  exec r (whole_dtor c (threads (pool σ))) σ = Some (after_dtor σ).
Proof.
  intros Hl Hc Hk Hi. destruct_world σ. simpl in *. subst lk lf.
  pose proof (lookup_lt_Some _ _ _ Hc) as Hlt.
  unfold whole_dtor, after_dtor.
  cbv [pool threads running jobs data_lock cv life sems clients log].
  erewrite exec_call; [|done|done|by destruct r].
  cbn [replicate app].
  caller_runs D_store; [|by destruct r].
  caller_runs D_notify; [|by destruct r].
  cbv [set_client set_pool set_clients set_life set_running notify_all set_cv
       pool threads running jobs data_lock cv life sems clients log].
  rewrite !list_insert_insert_eq.
  pose proof (workers_exit r [] ths q Destroying sm (<[c:=D_join 0]> cl) lg) as Hx.
  cbn [app length Nat.add] in Hx. rewrite Hx by done. clear Hx.
  pose proof (joins_pass r c 0 (length ths) q None [] false Destroying sm
                (<[c:=D_join 0]> cl) lg) as Hj.
  cbn [Nat.add] in Hj. rewrite Hj; [|done|by apply list_lookup_insert_eq]. clear Hj.
  rewrite list_insert_insert_eq.
  erewrite (exec_caller _ _ _ (D_join (length ths)) CIdle); [|done| |].
  2:{ by apply list_lookup_insert_eq. }
  2:{ assert (Hn : replicate (length ths) WExit !! length ths = None)
        by (by apply lookup_replicate_None).
      destruct r; simpl; rewrite Hn; reflexivity. }
  change (exec r [] ?x) with (Some x).
  cbv [set_client set_pool set_clients set_life
       pool threads running jobs data_lock cv life sems clients log].
  rewrite list_insert_insert_eq, list_insert_id by done. done.
Qed.

(** ** The destructor and a worker about to block *)

Lemma hung_step r w c l σ σ' :
  hung w c σ → undisturbed w l = true → step r l σ = Some σ' → hung w c σ'.
Proof.
  intros J Hu [_ H]%step_fire. revert J Hu. unfold hung.
  fire_cases H; intros (J1 & J2 & J3 & J4 & (k0 & J5 & J6) & J7) Hu; simpl in *.
  all: try done.
  (* a caller other than the one in the destructor is idle *)
  all: try (match goal with
            | Hc : _ !! ?c0 = Some ?pc |- _ =>
                lazymatch type of pc with cpc => idtac end;
                lazymatch pc with D_join _ => fail | _ => idtac end;
                destruct (J7 _ _ Hc) as [->|?]; congruence
            end).
  (* a worker other than [w] moves *)
  all: try (match goal with
            | Hw : ?t !! ?w0 = Some _ |- <[?w0 := _]> ?t !! _ = _ ∧ _ =>
                assert (w0 ≠ w) by
                  (intros ->;
                   first [ congruence
                         | match goal with
                           | Hx : is_waiting _ _ = false |- _ =>
                               unfold is_waiting in Hx; simpl in Hx;
                               apply existsb_eqb_not_elem in Hx; done
                           end ]);
                rewrite list_lookup_insert_ne by done;
                repeat split; eauto; apply elem_of_app; by left
            end).
  - (* a spurious wake-up of another worker *)
    apply negb_true_iff, Nat.eqb_neq in Hu.
    repeat split; eauto. apply list_elem_of_filter. split; [congruence|done].
  - (* join of a worker that has returned *)
    destruct (J7 _ _ Heqo) as [->|?]; [|done]. simplify_eq.
    assert (k ≠ w) by (intros ->; congruence).
    repeat split; try done.
    + exists (S k). split; [|lia].
      apply list_lookup_insert_eq. by eapply lookup_lt_Some.
    + intros c' pc [(? & ? & ?)|(? & Hc)]%list_lookup_insert_Some; eauto.
  - (* the last join cannot be reached *)
    destruct (J7 _ _ Heqo) as [->|?]; [|done]. simplify_eq.
    match goal with Hn : _ !! _ = None |- _ => apply lookup_ge_None in Hn end.
    apply lookup_lt_Some in J1. lia.
  - destruct (J7 _ _ Heqo) as [->|?]; [|done]. simplify_eq.
    assert (k ≠ w) by (intros ->; congruence).
    repeat split; try done.
    + exists (S k). split; [|lia].
      apply list_lookup_insert_eq. by eapply lookup_lt_Some.
    + intros c' pc [(? & ? & ?)|(? & Hc)]%list_lookup_insert_Some; eauto.
  - destruct (J7 _ _ Heqo) as [->|?]; [|done]. simplify_eq.
    match goal with Hn : _ !! _ = None |- _ => apply lookup_ge_None in Hn end.
    apply lookup_lt_Some in J1. lia.
Qed.

Lemma hung_exec r w c ls σ σ' :
  hung w c σ → forallb (undisturbed w) ls = true → exec r ls σ = Some σ' →
  hung w c σ'.
Proof.
  revert σ. induction ls as [|l ls IH]; intros σ J Hu H.
  - change (exec r [] σ) with (Some σ) in H. by simplify_eq.
  - change (exec r (l :: ls) σ) with (step r l σ ≫= exec r ls) in H.
    cbn [forallb] in Hu. apply andb_true_iff in Hu as [Hu1 Hu2].
    destruct (step r l σ) as [σ1|] eqn:E; [|done].
    eapply IH; [|done|exact H]. by eapply hung_step.
Qed.

(** X18.  The destructor can wait for ever.  [running = false] and
    [cv.notify_all()] are executed without [data_lock]; when they fall
    between a worker's evaluation of the wait predicate and its blocking,
    the worker blocks after the notification.  From then on, as long as no
    other call is made and the worker is not woken spuriously, the worker
    stays blocked and the destructor stays in its joins, at or before the
    join of this worker. *)
Theorem destructor_can_hang (r : revision) (σ : world) (c w : nat) :
  life σ = Alive → threads (pool σ) !! w = Some WWait →
  clients σ !! c = Some CIdle →
  (∀ c' pc, clients σ !! c' = Some pc → pc = CIdle) →
  ∃ σ1, exec r [LCall c CDestroy; LClient c 0; LClient c 0; LWorker w] σ = Some σ1 ∧
        running (pool σ1) = false ∧
        threads (pool σ1) !! w = Some WBlocked ∧
        cv (pool σ1) = [w] ∧
        clients σ1 !! c = Some (D_join 0) ∧
        ∀ ls σ2, forallb (undisturbed w) ls = true → exec r ls σ1 = Some σ2 →
                 threads (pool σ2) !! w = Some WBlocked ∧
                 w ∈ cv (pool σ2) ∧
                 life σ2 = Destroying ∧
                 ∃ k, clients σ2 !! c = Some (D_join k) ∧ (k ≤ w)%nat.
Proof.
  intros Hl Hw Hc Hidle. destruct_world σ. simpl in *. subst lf.
  pose proof (lookup_lt_Some _ _ _ Hc) as Hlt.
  pose proof (lookup_lt_Some _ _ _ Hw) as Hltw.
  exists (mkWorld (mkPool false (<[w:=WBlocked]> ths) q None [w]) Destroying sm
                  (<[c:=D_join 0]> cl) lg).
  split.
  { erewrite exec_call; [|done|done|by destruct r].
    caller_runs D_store; [|by destruct r].
    caller_runs D_notify; [|by destruct r].
    cbv [set_client set_pool set_clients set_life set_running notify_all set_cv
         pool threads running jobs data_lock cv life sems clients log].
    rewrite !list_insert_insert_eq.
    erewrite exec_worker; [|done|].
    2:{ unfold V2.worker_loop. cbn [pool threads]. rewrite Hw. cbn. reflexivity. }
    reflexivity. }
  assert (J : hung w c (mkWorld (mkPool false (<[w:=WBlocked]> ths) q None [w])
                                Destroying sm (<[c:=D_join 0]> cl) lg)).
  { unfold hung. simpl. split; [by apply list_lookup_insert_eq|].
    split; [apply list_elem_of_singleton; done|]. split; [done|]. split; [done|].
    split.
    - exists O. split; [by apply list_lookup_insert_eq | lia].
    - intros c' pc [(? & ? & ?)|(? & Hc')]%list_lookup_insert_Some; eauto. }
  simpl.
  split; [done|]. split; [by apply list_lookup_insert_eq|].
  split; [done|]. split; [by apply list_lookup_insert_eq|].
  intros ls σ2 Hu H.
  destruct (hung_exec r w c ls _ σ2 J Hu H) as (J1 & J2 & J3 & _ & J5 & _).
  done.
Qed.

(** ** [detach_tasks] on an array *)

Lemma array_loop c ch ts n i k run ths q lk cvs lf sm cl lg ls :
  lf ≠ Destroyed → cl !! c = Some (DTa_loop ts n i) →
  0 ≤ i → i + Z.of_nat k ≤ n → (Z.to_nat i + k ≤ length ts)%nat →
  exec Rev1 (replicate k (LClient c ch) ++ ls)
       (mkWorld (mkPool run ths q lk cvs) lf sm cl lg)
  = exec Rev1 ls
      (mkWorld (mkPool run ths (q ++ (JTask <$> take k (drop (Z.to_nat i) ts))) lk cvs)
               lf sm (<[c := DTa_loop ts n (i + Z.of_nat k)]> cl)
               (lg ++ ((λ t, EvPush (JTask t)) <$> take k (drop (Z.to_nat i) ts)))).
Proof.
  intros Hl. revert i q cl lg. induction k as [|k IH]; intros i q cl lg Hc Hi Hn Hlen.
  - simpl. rewrite Z.add_0_r, list_insert_id, !app_nil_r by done. done.
  - pose proof (lookup_lt_Some _ _ _ Hc) as Hlt.
    destruct (lookup_lt_is_Some_2 ts (Z.to_nat i)) as [t Ht]; [lia|].
    cbn [replicate app].
    erewrite (exec_caller _ _ _ (DTa_loop ts n i)); [|done|done|].
    2:{ simpl. rewrite (proj2 (Z.ltb_lt i n)) by lia. rewrite Ht. reflexivity. }
    cbv [push emit set_client set_pool set_clients set_jobs
         pool threads running jobs data_lock cv life sems clients log].
    rewrite (IH (i + 1)); [|by apply list_lookup_insert_eq|lia|lia|lia].
    rewrite list_insert_insert_eq.
    rewrite (drop_S ts t (Z.to_nat i)) by done.
    replace (Z.to_nat (i + 1)) with (S (Z.to_nat i)) by lia.
    replace (i + 1 + Z.of_nat k) with (i + Z.of_nat (S k)) by lia.
    cbn [take fmap list_fmap]. by rewrite <- !app_assoc.
Qed.

(** X15.  [detach_tasks(tasks, num_tasks)] of revision 1, run without
    interruption on a free mutex with [num_tasks] at most the length of the
    array, queues exactly the first [num_tasks] tasks, in order, wakes every
    waiter and ends in the state in which [detach_tasks] on a vector of
    these tasks ends.  With [num_tasks] above the length of the array the
    call reads past the end of the array after having queued all of it,
    which has no defined behaviour: the model has no transition there. *)
Theorem detach_tasks_array_prefix (c ch : nat) (ts : list callable) (n : Z) (σ : world) :
  life σ ≠ Destroyed → clients σ !! c = Some CIdle → data_lock (pool σ) = None →
  (0 ≤ n ≤ Z.of_nat (length ts) →
     exec Rev1 (whole_detach_tasks_array c ch ts n) σ
     = Some (after_detach_tasks (take (Z.to_nat n) ts) σ) ∧
     exec Rev1 (whole_detach_tasks_array c ch ts n) σ
     = exec Rev1 (whole_detach_tasks c ch (take (Z.to_nat n) ts)) σ) ∧
  (Z.of_nat (length ts) < n →
     ∀ ls, exec Rev1 (LCall c (CDetachTasksArr ts n) :: LClient c ch
                      :: replicate (length ts) (LClient c ch)
                      ++ LClient c ch :: ls) σ = None).
Proof.
  intros Hl Hc Hk. destruct_world σ. simpl in Hl, Hc, Hk. subst lk.
  pose proof (lookup_lt_Some _ _ _ Hc) as Hlt.
  split.
  - intros Hn.
    assert (Hrun : exec Rev1 (whole_detach_tasks_array c ch ts n)
                     (mkWorld (mkPool run ths q None cvs) lf sm cl lg)
                   = Some (after_detach_tasks (take (Z.to_nat n) ts)
                             (mkWorld (mkPool run ths q None cvs) lf sm cl lg))).
    { unfold whole_detach_tasks_array, after_detach_tasks.
      cbv [pool threads running jobs data_lock cv life sems clients log].
      erewrite exec_call; [|done|done|reflexivity].
      caller_runs (DTa_lock ts n).
      cbv [set_client set_pool set_clients set_data_lock
           pool threads running jobs data_lock cv life sems clients log].
      rewrite list_insert_insert_eq.
      rewrite (array_loop c ch ts n 0 (Z.to_nat n));
        [|done|by apply list_lookup_insert_eq|lia|lia|lia].
      rewrite list_insert_insert_eq. cbn [replicate app].
      change (Z.to_nat 0) with O. rewrite drop_0.
      replace (0 + Z.of_nat (Z.to_nat n)) with n by lia.
      caller_runs (DTa_loop ts n n).
      2:{ by rewrite Z.ltb_irrefl. }
      caller_runs DTa_notify. caller_runs DTa_unlock.
      change (exec Rev1 [] ?x) with (Some x).
      cbv [set_client set_pool set_clients mutex_unlock notify_all set_cv set_data_lock
           pool threads running jobs data_lock cv life sems clients log].
      rewrite !list_insert_insert_eq, list_insert_id by done. done. }
    split; [exact Hrun|].
    rewrite Hrun. symmetry. by apply detach_tasks_run.
  - intros Hn ls.
    erewrite exec_call; [|done|done|reflexivity].
    caller_runs (DTa_lock ts n).
    cbv [set_client set_pool set_clients set_data_lock
         pool threads running jobs data_lock cv life sems clients log].
    rewrite list_insert_insert_eq.
    rewrite (array_loop c ch ts n 0 (length ts));
      [|done|by apply list_lookup_insert_eq|lia|lia|lia].
    rewrite list_insert_insert_eq.
    apply (exec_caller_blocked Rev1 c ch (DTa_loop ts n (0 + Z.of_nat (length ts)))).
    + by apply list_lookup_insert_eq.
    + assert (Hnone : ts !! Z.to_nat (0 + Z.of_nat (length ts)) = None)
        by (apply lookup_ge_None; lia).
      unfold V1.client_step, V1.detach_tasks_array.
      rewrite (proj2 (Z.ltb_lt _ n)) by lia. by rewrite Hnone.
Qed.

Lemma detach_tasks_array_prefix_witness :
  exec Rev1 (whole_detach_tasks_array 0 0 [3; 4; 5]%nat 2) (init Rev1 1 1)
  = Some (after_detach_tasks (take (Z.to_nat 2) [3; 4; 5]%nat) (init Rev1 1 1)).
Proof.
  refine (proj1 (proj1 (detach_tasks_array_prefix 0 0 [3; 4; 5]%nat 2 (init Rev1 1 1)
                          _ _ _) _)).
  - vm_compute. discriminate.
  - vm_compute. reflexivity.
  - vm_compute. reflexivity.
  - vm_compute. split; discriminate.
Defined.

(** ** [detach_tasks] and repeated [detach_task] *)

Lemma detach_each_run r c chs ts run ths q cvs lf sm cl lg :
  lf ≠ Destroyed → cl !! c = Some CIdle → length chs = length ts →
  exec r (detach_each c chs ts) (mkWorld (mkPool run ths q None cvs) lf sm cl lg)
  = (l ← wake_each chs cvs;
     Some (mkWorld (mkPool run ths (q ++ (JTask <$> ts)) None l) lf sm cl
                   (lg ++ ((λ t, EvPush (JTask t)) <$> ts)))).
Proof.
  intros Hl Hc. revert chs q cvs lg.
  induction ts as [|t ts IH]; intros chs q cvs lg Hlen.
  - destruct chs; [|done].
    change (exec r (detach_each c [] []) ?x) with (Some x).
    by rewrite !app_nil_r.
  - destruct chs as [|ch chs]; [done|]. injection Hlen as Hlen.
    change (detach_each c (ch :: chs) (t :: ts))
      with (whole_detach_task c ch t ++ detach_each c chs ts).
    rewrite exec_app, detach_task_run by done.
    unfold after_detach_task. cbn [wake_each pool cv running threads jobs life sems clients log].
    destruct (wake_one ch cvs) as [l1|]; [|done]. cbn [mbind option_bind].
    rewrite IH by done.
    destruct (wake_each chs l1) as [l|]; [|done]. cbn [mbind option_bind].
    by rewrite <- !app_assoc.
Qed.

Lemma wake_one_filter ch waiters l :
  wake_one ch waiters = Some l → l = filter (λ x, x ≠ ch) waiters.
Proof.
  unfold wake_one. destruct waiters as [|x waiters]; [by intros [= <-]|].
  case_match; by intros [= <-].
Qed.

Lemma wake_each_filter chs waiters l :
  wake_each chs waiters = Some l → l = filter (λ x, x ∉ chs) waiters.
Proof.
  revert waiters. induction chs as [|ch chs IH]; intros waiters H; simpl in H.
  - simplify_eq. induction l as [|x l IHl]; [done|].
    rewrite filter_cons_True by apply not_elem_of_nil. by f_equal.
  - destruct (wake_one ch waiters) as [l1|] eqn:E; [|done]. simpl in H.
    apply wake_one_filter in E as ->. apply IH in H as ->.
    rewrite list_filter_filter. apply list_filter_iff.
    intros x. rewrite not_elem_of_cons. tauto.
Qed.

Lemma wake_heads_length n waiters : length (wake_heads n waiters) = n.
Proof. revert waiters. induction n as [|n IH]; intros waiters; simpl; by rewrite ?IH. Qed.

Lemma wake_heads_defined n waiters : is_Some (wake_each (wake_heads n waiters) waiters).
Proof.
  revert waiters. induction n as [|n IH]; intros waiters; simpl; [done|].
  assert (E : wake_one (default 0%nat (head waiters)) waiters
              = Some (filter (λ x, x ≠ default 0%nat (head waiters)) waiters)).
  { destruct waiters as [|x waiters]; [done|].
    unfold wake_one. cbn [head default existsb]. by rewrite Nat.eqb_refl. }
  rewrite E. simpl. apply IH.
Qed.

(** X16.  [detach_tasks(ts)] is [detach_task] repeated, up to the
    notifications.  [detach_task] called for the tasks of [ts] one after the
    other, each call waking the waiter its [notify_one] chooses, runs
    exactly when every choice is a thread that still waits (or nobody
    waits), and then leaves the queue, the history, the threads and the
    mutex as one call of [detach_tasks(ts)] leaves them.  The waiters not
    chosen stay asleep after the repeated calls, while [notify_all] leaves
    nobody waiting.  Choices with which the repeated calls run always
    exist, and when nobody waits the two end in the same state. *)
Theorem detach_tasks_is_repeated_detach_task
    (r : revision) (c ch : nat) (chs : list nat) (ts : list callable) (σ : world) :
  life σ ≠ Destroyed → clients σ !! c = Some CIdle → data_lock (pool σ) = None →
  length chs = length ts →
  exec r (detach_each c chs ts) σ
  = (l ← wake_each chs (cv (pool σ)); Some (after_detach_each ts l σ)) ∧
  (∀ l, wake_each chs (cv (pool σ)) = Some l →
        l = filter (λ x, x ∉ chs) (cv (pool σ))) ∧
  exec r (whole_detach_tasks c ch ts) σ = Some (after_detach_each ts [] σ) ∧
  is_Some (exec r (detach_each c (wake_heads (length ts) (cv (pool σ))) ts) σ) ∧
  (cv (pool σ) = [] →
     exec r (detach_each c chs ts) σ = exec r (whole_detach_tasks c ch ts) σ).
Proof.
  intros Hl Hc Hk Hlen.
  assert (Hall : exec r (whole_detach_tasks c ch ts) σ = Some (after_detach_each ts [] σ))
    by (by rewrite detach_tasks_run).
  destruct_world σ. simpl in Hl, Hc, Hk. subst lk.
  unfold after_detach_each in *. cbn [pool cv running threads jobs life sems clients log] in *.
  split; [by apply detach_each_run|].
  split; [apply wake_each_filter|].
  split; [exact Hall|].
  split.
  - rewrite detach_each_run by (done || by rewrite wake_heads_length).
    destruct (wake_heads_defined (length ts) cvs) as [l ->]. by eexists.
  - intros ->. rewrite Hall, detach_each_run by done.
    assert (E : wake_each chs [] = Some []).
    { clear. induction chs as [|x chs IH]; [done|]. simpl. exact IH. }
    by rewrite E.
Qed.

Lemma detach_tasks_is_repeated_detach_task_witness :
  exec Rev1 (detach_each 0 [0; 1]%nat [3; 4]%nat) (two_asleep Rev1)
  = Some (after_detach_each [3; 4]%nat [] (two_asleep Rev1)) ∧
  exec Rev1 (detach_each 0 [1; 1]%nat [3; 4]%nat) (two_asleep Rev1) = None ∧
  exec Rev1 (whole_detach_tasks 0 0 [3; 4]%nat) (two_asleep Rev1)
  = Some (after_detach_each [3; 4]%nat [] (two_asleep Rev1)).
Proof.
  destruct (detach_tasks_is_repeated_detach_task Rev1 0 0 [0; 1]%nat [3; 4]%nat
              (two_asleep Rev1)) as (H1 & _ & H3 & _).
  - vm_compute. discriminate.
  - vm_compute. reflexivity.
  - vm_compute. reflexivity.
  - reflexivity.
  - destruct (detach_tasks_is_repeated_detach_task Rev1 0 0 [1; 1]%nat [3; 4]%nat
                (two_asleep Rev1)) as (H4 & _).
    + vm_compute. discriminate.
    + vm_compute. reflexivity.
    + vm_compute. reflexivity.
    + reflexivity.
    + split; [exact H1 | split; [exact H4 | exact H3]].
Defined.

(** ** [run_loop] with bounds that fit the index type *)

Lemma max_value_bounds ty : 0 < max_value ty < size_t_modulus.
Proof.
  destruct ty as [[] []]; unfold max_value, size_t_modulus, size_t_bits; simpl; lia.
Qed.

Lemma in_range_size_t b z : in_range b z → in_size_t z.
Proof.
  unfold in_range, in_size_t. pose proof (max_value_bounds (induction_type b)). lia.
Qed.

Lemma in_range_convert b a : in_range b a → convert (induction_type b) a = a.
Proof.
  unfold in_range, convert, max_value.
  destruct (induction_type b) as [[] []]; simpl; intros H;
    rewrite Z.mod_small by lia; try done.
  all: by rewrite (proj2 (Z.leb_gt _ _)) by lia.
Qed.

Lemma in_range_incr b i e i' :
  0 ≤ i → i < e → in_range b e →
  incr (induction_type b) i = Some i' → i' = i + 1.
Proof.
  unfold in_range, incr, convert, max_value.
  destruct (induction_type b) as [[] []]; simpl; intros H0 H1 H2 H;
    repeat case_match; simplify_eq; try done.
  all: try (rewrite Z.mod_small by lia; try done).
  all: try (by rewrite (proj2 (Z.leb_gt _ _)) in * by lia).
  all: try (match goal with
            | Hx : (_ <=? _) = true |- _ => apply Z.leb_le in Hx
            end; rewrite Z.mod_small in * by lia; lia).
Qed.

Lemma in_range_incr_defined b i e :
  0 ≤ i → i < e → in_range b e → incr (induction_type b) i = Some (i + 1).
Proof.
  intros H0 H1 H2.
  destruct (incr (induction_type b) i) as [i'|] eqn:E.
  - by rewrite (in_range_incr b i e i').
  - exfalso. revert E H2. unfold in_range, incr, max_value.
    destruct (induction_type b) as [[] []]; simpl; try done.
    all: intros E H2; case_match; try done.
    all: match goal with Hx : (_ <? _) = false |- _ => apply Z.ltb_ge in Hx end; lia.
Qed.

Lemma range_frame_ext h h' pc :
  (∀ s, sem_of pc = Some s → on_sem s (pushes h') = on_sem s (pushes h)) →
  range_frame h pc → range_frame h' pc.
Proof.
  intros H. destruct pc; simpl; try done; rewrite (H _ eq_refl); done.
Qed.

Lemma range_frame_other h e pc :
  pushes [e] = [] → range_frame h pc → range_frame (h ++ [e]) pc.
Proof.
  intros Hp. apply range_frame_ext. intros s _.
  by rewrite pushes_app, Hp, app_nil_r.
Qed.

Lemma range_frame_push h j pc :
  (∀ s, sem_of pc = Some s → job_sem j ≠ Some s) →
  range_frame h pc → range_frame (h ++ [EvPush j]) pc.
Proof.
  intros Hne. apply range_frame_ext. intros s Hs.
  rewrite pushes_app. simpl. rewrite on_sem_snoc.
  rewrite decide_False by (by apply Hne). by rewrite app_nil_r.
Qed.

Lemma range_inv_init r n k : range_inv (init r n k).
Proof. rewrite init_unfold. intros c pc Hl. simpl in Hl. by split_lookup. Qed.

Lemma range_inv_step r l σ σ' :
  sem_inv σ → step r l σ = Some σ' → range_inv σ → range_inv σ'.
Proof.
  intros B [_ H]%step_fire. revert B. unfold range_inv.
  fire_cases H; intros [_ _ _ _ B5 B6 B7] R; simpl in *.
  all: intros c0 pc0 Hl; split_lookup.
  all: try (lazymatch goal with
            | |- range_frame (_ ++ [EvPush _]) _ =>
                apply range_frame_push; [|by eapply R];
                let s := fresh "s" in
                let Hs := fresh "Hs" in
                let Hj := fresh "Hj" in
                intros s Hs Hj; simpl in Hj; simplify_eq;
                match goal with
                | Hc : _ !! ?c = Some ?pc, Ho : _ !! ?c' = Some ?pc', Hn : ?c ≠ ?c' |- _ =>
                    apply Hn; by eapply (B6 c c' pc pc')
                end
            | |- range_frame (_ ++ [_]) _ =>
                apply range_frame_other; [done|by eapply R]
            | |- range_frame _ _ => by eapply R
            end; fail).
  all: try done.
  all: match goal with
       | Hc : _ !! _ = Some ?pc |- range_frame _ _ =>
           lazymatch type of pc with
           | cpc => pose proof (R _ _ Hc) as F; pose proof (B7 _ _ Hc) as G;
                    simpl in F, G
           end
       end.
  all: repeat match goal with
       | Hb : (_ <? _) = true |- _ => apply Z.ltb_lt in Hb
       | Hb : (_ <? _) = false |- _ => apply Z.ltb_ge in Hb
       end.
  - simpl. intros Ha He. rewrite in_range_convert by done.
    rewrite Z.sub_diag. destruct G as [G _]. rewrite G.
    split; [lia|]. split; [by right|]. by rewrite loop_jobs_nil.
  - simpl. intros Ha He. destruct (F Ha He) as (F1 & F2 & F3).
    assert (Hi : in_size_t i).
    { apply (in_range_size_t b). unfold in_range in *. lia. }
    match goal with
    | Hlt : to_size_t i < _ |- _ => rewrite to_size_t_small in Hlt by done
    end.
    match goal with
    | Hn : incr _ i = Some ?i' |- _ =>
        apply (in_range_incr b i end_) in Hn;
        [subst i' | unfold in_range in *; lia | lia | done]
    end.
    rewrite pushes_app. simpl. rewrite on_sem_snoc, decide_True by done.
    split; [lia|]. split; [left; lia|].
    rewrite F3. replace (i + 1 - start) with ((i - start) + 1) by lia.
    rewrite loop_jobs_snoc by lia. do 3 f_equal. lia.
  - simpl. intros Ha He. destruct (F Ha He) as (F1 & F2 & F3).
    assert (Hi : in_size_t i).
    { apply (in_range_size_t b). unfold in_range in *. lia. }
    match goal with
    | Hge : _ ≤ to_size_t i |- _ => rewrite to_size_t_small in Hge by done
    end.
    rewrite F3. destruct F2 as [F2| ->].
    + by replace i with end_ by lia.
    + by rewrite !loop_jobs_nil by lia.
  - exact F.
  - exact F.
  - simpl. intros Ha He. rewrite pushes_app. simpl. rewrite app_nil_r. by apply F.
  - exact F.
Qed.

Lemma range_inv_reachable r σ : reachable r σ → range_inv σ.
Proof.
  induction 1; eauto using range_inv_init, range_inv_step, sem_inv_reachable.
Qed.

(** X12.  [run_loop(start, end, body)] keeps the promise of its comment
    whenever [start] and [end] are values of the index type, whatever that
    type is, and it returns only when it has kept it.  When the caller is
    past its acquire loop, one closure per index of [start, end) was pushed,
    in increasing order; each has invoked the body once, with its index if
    the body takes one, and released once; none is queued or with a worker;
    the semaphore was acquired [end - start] times; and for [end <= start]
    nothing was pushed, invoked or waited for.  Inside the acquire loop the
    caller cannot move while the semaphore is at zero.  And every run from
    the call to a state in which the caller is idle again passes through
    that point, with a semaphore created by the call; the caller's return
    is a step of its own made there, after the body has run for every
    index. *)
Theorem run_loop_in_range (σ : world) (c : nat) (a e : Z) (b : Body) :
  reachable Rev2 σ → in_range b a → in_range b e →
  (∀ s, clients σ !! c = Some (RL_ret a e b s) →
     on_sem s (pushes (log σ)) = loop_jobs b s a (e - a) ∧
     acquired s (log σ) = Z.to_nat (e - a) ∧
     on_sem s (releases (log σ)) ≡ₚ loop_jobs b s a (e - a) ∧
     on_sem s (invokes (log σ)) ≡ₚ loop_jobs b s a (e - a) ∧
     (∀ k, a ≤ k < e → job_call (JLoop b k s) ∈ calls (log σ)) ∧
     on_sem s (jobs (pool σ)) = [] ∧
     on_sem s (inflight σ) = [] ∧
     (e ≤ a → on_sem s (pushes (log σ)) = [] ∧ acquired s (log σ) = O ∧
              on_sem s (invokes (log σ)) = [])) ∧
  (∀ s i ch, clients σ !! c = Some (RL_acquire a e b s i) → i < e →
     (sems σ !! s = Some O → step Rev2 (LClient c ch) σ = None) ∧
     (∀ σ', step Rev2 (LClient c ch) σ = Some σ' →
        clients σ' !! c = Some (RL_acquire a e b s (i + 1)) ∧
        acquired s (log σ') = S (acquired s (log σ)))) ∧
  (∀ ls σ', exec Rev2 (LCall c (CRunLoop a e b) :: ls) σ = Some σ' →
     forallb (λ l, negb (calls_of c l)) ls = true →
     clients σ' !! c = Some CIdle →
     ∃ s ls1 ch ls2 σ1,
       ls = ls1 ++ LClient c ch :: ls2 ∧
       exec Rev2 (LCall c (CRunLoop a e b) :: ls1) σ = Some σ1 ∧
       exec Rev2 (LClient c ch :: ls2) σ1 = Some σ' ∧
       clients σ1 !! c = Some (RL_ret a e b s) ∧
       (length (sems σ) ≤ s)%nat ∧
       on_sem s (pushes (log σ)) = [] ∧
       acquired s (log σ) = O ∧
       on_sem s (pushes (log σ1)) = loop_jobs b s a (e - a) ∧
       acquired s (log σ1) = Z.to_nat (e - a) ∧
       on_sem s (releases (log σ1)) ≡ₚ loop_jobs b s a (e - a) ∧
       on_sem s (invokes (log σ1)) ≡ₚ loop_jobs b s a (e - a) ∧
       on_sem s (jobs (pool σ1)) = [] ∧
       on_sem s (inflight σ1) = [] ∧
       log σ1 `prefix_of` log σ' ∧
       (∀ k, a ≤ k < e → JLoop b k s ∈ invokes (log σ') ∧
                         JLoop b k s ∈ releases (log σ'))).
Proof.
  intros Hr Ha He.
  assert (Hret : ∀ σ1 s, reachable Rev2 σ1 → clients σ1 !! c = Some (RL_ret a e b s) →
     on_sem s (pushes (log σ1)) = loop_jobs b s a (e - a) ∧
     acquired s (log σ1) = Z.to_nat (e - a) ∧
     on_sem s (releases (log σ1)) ≡ₚ loop_jobs b s a (e - a) ∧
     on_sem s (invokes (log σ1)) ≡ₚ loop_jobs b s a (e - a) ∧
     (∀ k, a ≤ k < e → job_call (JLoop b k s) ∈ calls (log σ1)) ∧
     on_sem s (jobs (pool σ1)) = [] ∧
     on_sem s (inflight σ1) = [] ∧
     (e ≤ a → on_sem s (pushes (log σ1)) = [] ∧ acquired s (log σ1) = O ∧
              on_sem s (invokes (log σ1)) = [])).
  { intros σ1 s Hr1 Hc.
    pose proof (sem_inv_reachable _ _ Hr1) as [_ _ _ _ B5 _ B7].
    destruct (B7 _ _ Hc) as [HA _]. simpl in HA.
    pose proof (range_inv_reachable _ _ Hr1 _ _ Hc Ha He) as HP. simpl in HP.
    pose proof (B5 _ _ _ Hc eq_refl) as Hlt.
    destruct (semaphore_barrier Rev2 σ1 s _ Hr1 Hlt HP)
      as (HR & HI & Hj & Hi & Hn); [by rewrite loop_jobs_length|].
    repeat apply conj; try done.
    - intros k Hk. unfold calls.
      apply (list_elem_of_fmap_2' _ _ (JLoop b k s)); [|done].
      assert (Hin : JLoop b k s ∈ on_sem s (invokes (log σ1))).
      { rewrite HI. unfold loop_jobs.
        apply (list_elem_of_fmap_2' _ _ k); [|done].
        apply list_elem_of_lookup. exists (Z.to_nat (k - a)).
        rewrite lookup_seqZ_lt by lia. f_equal. lia. }
      unfold on_sem in Hin. by apply list_elem_of_filter in Hin as [_ ?].
    - intros Hle. rewrite loop_jobs_nil in * by lia.
      rewrite HA. repeat split; [done | lia |].
      by apply Permutation_nil_r in HI. }
  split; [intros s Hc; by apply Hret|]. split.
  - intros s i ch Hc Hi. split.
    + intros Hs. unfold step, fire, caller_step. rewrite Hc. simpl.
      rewrite (proj2 (Z.ltb_lt i e)) by done.
      unfold sem_acquire. rewrite Hs. simpl. by destruct (life σ).
    + intros σ' [_ H]%step_fire. unfold fire, caller_step in H. rewrite Hc in H.
      simpl in H. rewrite (proj2 (Z.ltb_lt i e)) in H by done.
      unfold sem_acquire in H.
      destruct (sems σ !! s) as [[|n]|]; simpl in H; try done. simplify_eq. simpl.
      split; [apply list_lookup_insert_eq; by eapply lookup_lt_Some|].
      rewrite acquired_snoc. rewrite decide_True by done. lia.
  - intros ls σ' H Hno Hidle.
    rewrite exec_cons in H.
    destruct (step Rev2 (LCall c (CRunLoop a e b)) σ) as [σ2|] eqn:E; [|done].
    simpl in H.
    assert (Hc2 : clients σ2 !! c = Some (RL_sem a e b) ∧ sems σ2 = sems σ).
    { apply step_fire in E as [_ E]. unfold fire, call_step in E.
      destruct (clients σ !! c) as [[]|] eqn:Ec; simpl in E; try done.
      simplify_eq. simpl. split; [|done].
      apply list_lookup_insert_eq. by eapply lookup_lt_Some. }
    destruct Hc2 as [Hc2 Hs2].
    destruct (returns_at_return_point Rev2 (CRunLoop a e b) (length (sems σ)) c ls σ2 σ'
                (RL_sem a e b) Hc2 ltac:(done) ltac:(rewrite Hs2; lia) H Hno Hidle)
      as (ls1 & ch & ls2 & σ1 & pc1 & -> & H1 & H2 & H3 & H4 & H5).
    assert (Hall : exec Rev2 (LCall c (CRunLoop a e b) :: ls1) σ = Some σ1).
    { rewrite exec_cons, E. done. }
    pose proof (exec_reachable _ _ _ _ Hr Hall) as Hr1.
    destruct pc1; simpl in H4, H5; try done. destruct H4 as (-> & -> & -> & HL).
    destruct (Hret _ _ Hr1 H3) as (F1 & F2 & F3 & F4 & F5 & F6 & F7 & F8).
    pose proof (sem_inv_reachable _ _ Hr) as [B1 _ B3 _ _ _ _].
    pose proof (exec_log_prefix _ _ _ _ H2) as Hpre.
    exists sem, ls1, ch, ls2, σ1.
    repeat (split; [done|]).
    split; [by eapply on_sem_older|].
    split.
    { apply acquired_fresh. intros s' Hs'. specialize (B1 _ Hs'). lia. }
    repeat (split; [done|]).
    intros k Hk.
    assert (Hjob : JLoop b k sem ∈ loop_jobs b sem a (e - a)).
    { unfold loop_jobs. apply (list_elem_of_fmap_2' _ _ k); [|done].
      apply list_elem_of_lookup. exists (Z.to_nat (k - a)).
      rewrite lookup_seqZ_lt by lia. f_equal. lia. }
    assert (Hrel : JLoop b k sem ∈ on_sem sem (releases (log σ1))) by (by rewrite F3).
    assert (Hinv : JLoop b k sem ∈ on_sem sem (invokes (log σ1))) by (by rewrite F4).
    unfold on_sem in Hrel, Hinv.
    apply list_elem_of_filter in Hrel as [_ Hrel].
    apply list_elem_of_filter in Hinv as [_ Hinv].
    destruct Hpre as [k' Hk']. rewrite Hk'.
    unfold invokes, releases. rewrite !omap_app.
    split; apply elem_of_app; by left.
Qed.

(** ** [run_loop] from call to return *)

Lemma loop_jobs_cons b s i k :
  loop_jobs b s i (Z.of_nat (S k)) = JLoop b i s :: loop_jobs b s (i + 1) (Z.of_nat k).
Proof.
  unfold loop_jobs. rewrite Nat2Z.inj_succ, seqZ_cons by lia.
  rewrite fmap_cons. do 3 f_equal; lia.
Qed.

Lemma run_loop_pushes c ch a e b s i k run ths q lk cvs lf sm cl lg ls :
  lf ≠ Destroyed → cl !! c = Some (RL_loop a e b s i) →
  in_range b e → 0 ≤ i → i + Z.of_nat k ≤ e →
  exec Rev2 (replicate k (LClient c ch) ++ ls)
       (mkWorld (mkPool run ths q lk cvs) lf sm cl lg)
  = exec Rev2 ls
      (mkWorld (mkPool run ths (q ++ loop_jobs b s i (Z.of_nat k)) lk cvs) lf sm
               (<[c := RL_loop a e b s (i + Z.of_nat k)]> cl)
               (lg ++ (EvPush <$> loop_jobs b s i (Z.of_nat k)))).
Proof.
  intros Hl. revert i q cl lg. induction k as [|k IH]; intros i q cl lg Hc He Hi Hk.
  - simpl. rewrite Z.add_0_r, list_insert_id by done.
    rewrite loop_jobs_nil by lia. by rewrite !app_nil_r.
  - pose proof (lookup_lt_Some _ _ _ Hc) as Hlt.
    cbn [replicate app].
    erewrite (exec_caller _ _ _ (RL_loop a e b s i)); [|done|done|].
    2:{ unfold V2.client_step, V2.run_loop.
        rewrite to_size_t_small.
        2:{ apply (in_range_size_t b). unfold in_range in *. lia. }
        rewrite (proj2 (Z.ltb_lt i e)) by lia.
        rewrite (in_range_incr_defined b i e) by (done || lia). reflexivity. }
    cbv [push emit set_client set_pool set_clients set_jobs
         pool threads running jobs data_lock cv life sems clients log].
    rewrite (IH (i + 1)); [|by apply list_lookup_insert_eq|done|lia|lia].
    rewrite list_insert_insert_eq, loop_jobs_cons.
    replace (i + 1 + Z.of_nat k) with (i + Z.of_nat (S k)) by lia.
    cbn [fmap list_fmap]. by rewrite <- !app_assoc.
Qed.

Lemma run_loop_acquires c ch a e b s i k m p lf sm cl lg ls :
  lf ≠ Destroyed → cl !! c = Some (RL_acquire a e b s i) →
  sm !! s = Some (k + m)%nat → i + Z.of_nat k ≤ e →
  exec Rev2 (replicate k (LClient c ch) ++ ls) (mkWorld p lf sm cl lg)
  = exec Rev2 ls (mkWorld p lf (<[s := m]> sm)
                          (<[c := RL_acquire a e b s (i + Z.of_nat k)]> cl)
                          (lg ++ (EvAcquire <$> replicate k s))).
Proof.
  intros Hl. revert i sm cl lg. induction k as [|k IH]; intros i sm cl lg Hc Hs Hi.
  - simpl. rewrite Z.add_0_r, !list_insert_id, app_nil_r by done. done.
  - pose proof (lookup_lt_Some _ _ _ Hc) as Hlt.
    pose proof (lookup_lt_Some _ _ _ Hs) as Hlts.
    cbn [replicate app].
    erewrite (exec_caller _ _ _ (RL_acquire a e b s i)); [|done|done|].
    2:{ unfold V2.client_step, V2.run_loop.
        rewrite (proj2 (Z.ltb_lt i e)) by lia.
        unfold sem_acquire. cbn [sems]. rewrite Hs. cbn. reflexivity. }
    cbv [emit set_client set_pool set_clients set_sems
         pool threads running jobs data_lock cv life sems clients log].
    rewrite (IH (i + 1)); [| | |lia].
    + rewrite !list_insert_insert_eq, <- app_assoc.
      replace (i + 1 + Z.of_nat k) with (i + Z.of_nat (S k)) by lia. done.
    + by apply list_lookup_insert_eq.
    + by apply list_lookup_insert_eq.
Qed.

Lemma loop_jobs_sem b s a n : Forall (λ j, job_sem j = Some s) (loop_jobs b s a n).
Proof. apply Forall_forall. by intros j [k [-> _]]%list_elem_of_fmap. Qed.

Lemma run_loop_entry_run c a e b ths cvs lf sm cl lg ls :
  lf ≠ Destroyed → cl !! c = Some CIdle → in_range b a → in_range b e →
  exec Rev2 (run_loop_entry c a e b ++ ls)
       (mkWorld (mkPool true ths [] None cvs) lf sm cl lg)
  = exec Rev2 ls
      (mkWorld (mkPool true ths (loop_jobs b (length sm) a (e - a)) None []) lf (sm ++ [O])
               (<[c := RL_acquire a e b (length sm) a]> cl)
               (lg ++ (EvPush <$> loop_jobs b (length sm) a (e - a)))).
Proof.
  intros Hl Hc Ha He. pose proof (lookup_lt_Some _ _ _ Hc) as Hlt.
  set (n := Z.to_nat (e - a)).
  assert (Hn : loop_jobs b (length sm) a (e - a) = loop_jobs b (length sm) a (Z.of_nat n)).
  { unfold n. destruct (Z_le_gt_dec (e - a) 0).
    - rewrite !loop_jobs_nil by lia. done.
    - by rewrite Z2Nat.id by lia. }
  unfold run_loop_entry. fold n. rewrite Hn, <- app_comm_cons, <- !app_assoc.
  erewrite exec_call; [|done|done|reflexivity].
  cbn [replicate app].
  caller_runs (RL_sem a e b).
  caller_runs (RL_lock a e b (length sm)).
  rewrite in_range_convert by done.
  cbv [set_client set_pool set_clients set_sems set_data_lock
       pool threads running jobs data_lock cv life sems clients log].
  rewrite !list_insert_insert_eq.
  destruct (Z_le_gt_dec e a) as [Hle|Hgt].
  - (* nothing to do *)
    assert (n = O) as -> by (unfold n; lia).
    rewrite loop_jobs_nil by done.
    cbn [replicate app].
    caller_runs (RL_loop a e b (length sm) a).
    2:{ rewrite to_size_t_small by (by apply (in_range_size_t b)).
        by rewrite (proj2 (Z.ltb_ge a e)) by lia. }
    caller_runs (RL_unlock a e b (length sm)).
    caller_runs (RL_notify a e b (length sm)).
    cbv [set_client set_pool set_clients mutex_unlock notify_all set_cv set_data_lock
         pool threads running jobs data_lock cv life sems clients log].
    rewrite !list_insert_insert_eq.
    by rewrite !app_nil_r.
  - rewrite (run_loop_pushes c 0%nat a e b (length sm) a n);
      [|done|by apply list_lookup_insert_eq|done|unfold in_range in *; lia|unfold n; lia].
    rewrite list_insert_insert_eq. cbn [app].
    replace (a + Z.of_nat n) with e by (unfold n; lia).
    caller_runs (RL_loop a e b (length sm) e).
    2:{ rewrite to_size_t_small by (by apply (in_range_size_t b)).
        by rewrite Z.ltb_irrefl. }
    caller_runs (RL_unlock a e b (length sm)).
    caller_runs (RL_notify a e b (length sm)).
    cbv [set_client set_pool set_clients mutex_unlock notify_all set_cv set_data_lock
         pool threads running jobs data_lock cv life sems clients log].
    rewrite !list_insert_insert_eq. cbn [app]. done.
Qed.

(** X13.  [run_loop] returns when a worker is there to serve it and the
    bounds fit the index type: on a running pool with an empty queue, a free
    mutex and an idle worker, at the head of its loop or asleep in
    [cv.wait], the call runs to its return; the body has then been invoked
    for [start], [start + 1], ..., [end - 1] in this order, and not at all
    when [end <= start]; the worker that served a non-empty range is at the
    head of its loop, and the caller, having queued and notified, cannot
    take its first acquire before the worker has released. *)
Theorem run_loop_completes (c w : nat) (pc : wpc) (a e : Z) (b : Body) (σ : world) :
  life σ ≠ Destroyed → clients σ !! c = Some CIdle →
  data_lock (pool σ) = None → running (pool σ) = true → jobs (pool σ) = [] →
  threads (pool σ) !! w = Some pc → idle_worker pc = true →
  in_range b a → in_range b e →
  exec Rev2 (whole_run_loop c w pc a e b) σ = Some (after_run_loop w a e b σ) ∧
  invokes (log (after_run_loop w a e b σ))
  = invokes (log σ) ++ loop_jobs b (length (sems σ)) a (e - a) ∧
  calls (log (after_run_loop w a e b σ))
  = calls (log σ) ++ (job_call <$> loop_jobs b (length (sems σ)) a (e - a)) ∧
  (a < e → threads (pool (after_run_loop w a e b σ)) !! w = Some WLoop) ∧
  (a < e → ∀ ch, exec Rev2 (run_loop_entry c a e b ++ [LClient c ch]) σ = None).
Proof.
  intros Hl Hc Hk Hrun Hq Hw Hi Ha He. destruct_world σ.
  simpl in Hl, Hc, Hk, Hrun, Hq, Hw.
  subst lk run q.
  pose proof (lookup_lt_Some _ _ _ Hc) as Hlt.
  assert (Hinv : invokes (lg ++ run_loop_log (length sm) a e b)
                 = invokes lg ++ loop_jobs b (length sm) a (e - a))
    by apply invokes_served.
  set (n := Z.to_nat (e - a)).
  assert (Hlen : length (loop_jobs b (length sm) a (e - a)) = n).
  { by rewrite loop_jobs_length. }
  split; [|split; [|split; [|split]]].
  - unfold whole_run_loop, after_run_loop, run_loop_log. fold n.
    cbv [pool threads running jobs data_lock cv life sems clients log].
    rewrite run_loop_entry_run by done.
    destruct (Z_le_gt_dec e a) as [Hle|Hgt].
    + (* nothing to do *)
      assert (n = O) as -> by (unfold n; lia).
      rewrite loop_jobs_nil by lia.
      replace (serving_steps w pc 0) with (@nil label) by (by destruct pc).
      cbn [replicate app served].
      caller_runs (RL_acquire a e b (length sm) a).
      2:{ by rewrite (proj2 (Z.ltb_ge a e)) by lia. }
      caller_runs (RL_ret a e b (length sm)).
      change (exec Rev2 [] ?x) with (Some x).
      cbv [set_client set_pool set_clients
           pool threads running jobs data_lock cv life sems clients log].
      rewrite !list_insert_insert_eq. rewrite (list_insert_id cl) by done.
      by rewrite !app_nil_r.
    + rewrite <- Hlen at 1.
      rewrite (serve_from_idle Rev2 w pc (length sm)); [|done|done|done| |].
      2:{ apply loop_jobs_sem. }
      2:{ rewrite length_app. simpl. lia. }
      rewrite released_all by apply loop_jobs_sem.
      rewrite Hlen. cbn [Nat.add].
      rewrite (run_loop_acquires c 0%nat a e b (length sm) a n 0%nat);
        [|done| | |unfold n; lia].
      2:{ by apply list_lookup_insert_eq. }
      2:{ rewrite lookup_app_r, Nat.sub_diag by done. simpl. f_equal. lia. }
      rewrite list_insert_insert_eq.
      replace (a + Z.of_nat n) with e by (unfold n; lia).
      cbn [replicate app].
      caller_runs (RL_acquire a e b (length sm) e).
      2:{ by rewrite Z.ltb_irrefl. }
      caller_runs (RL_ret a e b (length sm)).
      change (exec Rev2 [] ?x) with (Some x).
      cbv [set_client set_pool set_clients
           pool threads running jobs data_lock cv life sems clients log].
      rewrite !list_insert_insert_eq. rewrite (list_insert_id cl) by done.
      rewrite insert_app_r_alt, Nat.sub_diag by done. cbn [insert list_insert].
      by rewrite <- !app_assoc.
  - exact Hinv.
  - unfold calls.
    change (log (after_run_loop w a e b (mkWorld (mkPool true ths [] None cvs) lf sm cl lg)))
      with (lg ++ run_loop_log (length sm) a e b).
    by rewrite Hinv, fmap_app.
  - intros Hae. unfold after_run_loop. cbn [pool threads]. fold n.
    destruct n as [|n'] eqn:En; [unfold n in En; lia|]. cbn [served].
    apply list_lookup_insert_eq. by eapply lookup_lt_Some.
  - intros Hae ch. rewrite run_loop_entry_run by done.
    apply (exec_caller_blocked Rev2 c ch (RL_acquire a e b (length sm) a)).
    + simpl. by apply list_lookup_insert_eq.
    + unfold V2.client_step, V2.run_loop.
      rewrite (proj2 (Z.ltb_lt a e)) by done.
      unfold sem_acquire. cbn [sems].
      by rewrite lookup_app_r, Nat.sub_diag by done.
Qed.

(** ** A pool without workers *)

Lemma no_worker_inv_init r n k : no_worker_inv (init r n k).
Proof. rewrite init_unfold. by split. Qed.

Lemma no_worker_inv_step r l σ σ' :
  step r l σ = Some σ' → no_worker_inv σ → no_worker_inv σ'.
Proof.
  intros [_ H]%step_fire.
  fire_cases H; intros [N1 N2 N3]; simpl in *.
  all: split; simpl; intros Hn.
  all: try (exfalso; apply (f_equal length) in Hn; rewrite length_insert in Hn;
            destruct ths; simpl in *; done).
  all: rewrite ?pops_app, ?invokes_app, ?releases_app; simpl; rewrite ?app_nil_r.
  all: try (apply app_eq_nil in Hn as [Hn _]).
  all: auto.
Qed.

Lemma no_worker_inv_reachable r σ : reachable r σ → no_worker_inv σ.
Proof. induction 1; eauto using no_worker_inv_init, no_worker_inv_step. Qed.

(** X19.  A pool without threads (constructed with zero, or by default when
    [hardware_concurrency()] returns zero) queues what it is given and runs
    none of it: as long as no [reset] has added a thread nothing is invoked,
    the queue holds everything that was pushed, no worker transition exists,
    and a caller inside [run_tasks] or [run_loop] with a signal still to
    collect cannot go on. *)
Theorem empty_pool_runs_nothing (r : revision) (σ : world) :
  reachable r σ → threads (pool σ) = [] →
  invokes (log σ) = [] ∧
  jobs (pool σ) = pushes (log σ) ∧
  (∀ w, step r (LWorker w) σ = None) ∧
  (∀ c ch ts s i, clients σ !! c = Some (RT_acquire ts s i) → (i < length ts)%nat →
     step r (LClient c ch) σ = None) ∧
  (∀ c ch a e b s i, clients σ !! c = Some (RL_acquire a e b s i) → i < e →
     step r (LClient c ch) σ = None).
Proof.
  intros Hr Hn.
  pose proof (no_worker_inv_reachable r σ Hr) as [N1 N2 N3].
  pose proof (fifo_reachable r σ Hr) as Hf. unfold fifo in Hf.
  pose proof (sem_inv_reachable r σ Hr) as [_ _ _ B4 B5 _ _].
  pose proof (lock_inv_reachable r σ Hr) as [_ _ _ _ L5].
  assert (Hz : ∀ c pc s, clients σ !! c = Some pc → sem_of pc = Some s →
                         sems σ !! s = Some O).
  { intros c pc s Hc Hs.
    destruct (lookup_lt_is_Some_2 _ _ (B5 _ _ _ Hc Hs)) as [n Hl].
    pose proof (B4 _ _ Hl) as Hcount. rewrite N3 in Hcount by done.
    simpl in Hcount. by replace n with O in Hl by lia. }
  split; [auto|]. split; [by rewrite Hf, N1|]. split; [|split].
  - intros w. unfold step, fire. rewrite worker_step_any. unfold V2.worker_loop.
    rewrite Hn. simpl. by destruct (life σ).
  - intros c ch ts s i Hc Hi.
    pose proof (Hz _ _ _ Hc eq_refl) as Hs. pose proof (L5 _ _ Hc) as Hrev.
    unfold step, fire, caller_step. rewrite Hc. simpl.
    destruct r; [done|]. simpl.
    rewrite (proj2 (Nat.ltb_lt i (length ts))) by done.
    unfold sem_acquire. rewrite Hs. simpl. by destruct (life σ).
  - intros c ch a e b s i Hc Hi.
    pose proof (Hz _ _ _ Hc eq_refl) as Hs. pose proof (L5 _ _ Hc) as Hrev.
    unfold step, fire, caller_step. rewrite Hc. simpl.
    destruct r; [done|]. simpl.
    rewrite (proj2 (Z.ltb_lt i e)) by done.
    unfold sem_acquire. rewrite Hs. simpl. by destruct (life σ).
Qed.

(** ** [run_loop] with an unsigned index that wraps *)

Lemma unsigned_convert_range ty z :
  it_signed ty = false → 0 ≤ convert ty z ≤ max_value ty.
Proof.
  unfold convert, max_value. intros ->. simpl.
  pose proof (Z.mod_pos_bound z (2 ^ bits (it_width ty))) as H.
  destruct (it_width ty); simpl in *; lia.
Qed.

Lemma unsigned_incr_range ty i :
  it_signed ty = false →
  ∃ i', incr ty i = Some i' ∧ 0 ≤ i' ≤ max_value ty.
Proof.
  intros Hs. unfold incr. rewrite Hs.
  destruct (it_width ty) eqn:E.
  1,2: eexists; split; [reflexivity|]; by apply unsigned_convert_range.
  all: eexists; split; [reflexivity|]; unfold max_value; rewrite Hs, E; simpl;
    pose proof (Z.mod_pos_bound (i + 1) (2 ^ bits (it_width ty))) as H;
    rewrite E in H; simpl in H; lia.
Qed.

Lemma wrapping_loop c ch a e ty f s k :
  it_signed ty = false → max_value ty < e →
  ∀ i run ths q lk cvs lf sm cl lg,
  lf ≠ Destroyed → cl !! c = Some (RL_loop a e (BodyI ty f) s i) →
  0 ≤ i ≤ max_value ty →
  ∃ σ' i', exec Rev2 (replicate k (LClient c ch))
                (mkWorld (mkPool run ths q lk cvs) lf sm cl lg) = Some σ' ∧
           clients σ' !! c = Some (RL_loop a e (BodyI ty f) s i') ∧
           0 ≤ i' ≤ max_value ty ∧
           length (jobs (pool σ')) = (length q + k)%nat ∧
           data_lock (pool σ') = lk.
Proof.
  intros Hs He. induction k as [|k IH]; intros i run ths q lk cvs lf sm cl lg Hl Hc Hi.
  - eexists _, i. split; [reflexivity|]. simpl. rewrite Nat.add_0_r. done.
  - pose proof (lookup_lt_Some _ _ _ Hc) as Hlt.
    destruct (unsigned_incr_range ty i Hs) as (i1 & Hinc & Hi1).
    cbn [replicate].
    erewrite (exec_caller _ _ _ (RL_loop a e (BodyI ty f) s i)); [|done|done|].
    2:{ unfold V2.client_step, V2.run_loop.
        rewrite to_size_t_small.
        2:{ pose proof (max_value_bounds ty). unfold in_size_t. lia. }
        rewrite (proj2 (Z.ltb_lt i e)) by lia.
        cbn [induction_type]. rewrite Hinc. reflexivity. }
    unfold push, emit, set_client, set_pool, set_clients, set_jobs.
    cbn [pool threads running jobs data_lock cv life sems clients log].
    destruct (IH i1 run ths (q ++ [JLoop (BodyI ty f) i s]) lk cvs lf sm
                 (<[c:=RL_loop a e (BodyI ty f) s i1]> cl)
                 (lg ++ [EvPush (JLoop (BodyI ty f) i s)]))
      as (σ' & i' & H1 & H2 & H3 & H4 & H5);
      [done|by apply list_lookup_insert_eq|done|].
    exists σ', i'. split; [done|]. split; [done|]. split; [done|].
    split; [|done]. rewrite H4, length_app. simpl. lia.
Qed.

(** X14.  With an unsigned index type narrower than [size_t] and [end]
    above its largest value, the enqueue loop of [run_loop] does not end:
    the index wraps to zero before it reaches [end].  After any number [k]
    of further steps the caller is still in the loop, still owns
    [data_lock], and has pushed [k] closures. *)
Theorem narrow_unsigned_loop_never_ends
    (c ch : nat) (a e : Z) (ty : int_type) (f : callable) (σ : world) (k : nat) :
  life σ ≠ Destroyed → clients σ !! c = Some CIdle → data_lock (pool σ) = None →
  it_signed ty = false → max_value ty < e →
  ∃ σ' i, exec Rev2 (LCall c (CRunLoop a e (BodyI ty f))
                     :: replicate 2 (LClient c ch) ++ replicate k (LClient c ch)) σ
          = Some σ' ∧
          clients σ' !! c = Some (RL_loop a e (BodyI ty f) (length (sems σ)) i) ∧
          data_lock (pool σ') = Some (OClient c) ∧
          length (jobs (pool σ')) = (length (jobs (pool σ)) + k)%nat.
Proof.
  intros Hl Hc Hk Hs He. destruct_world σ. simpl in Hl, Hc, Hk. subst lk.
  pose proof (lookup_lt_Some _ _ _ Hc) as Hlt.
  cbn [pool threads running jobs data_lock cv life sems clients log].
  erewrite exec_call; [|done|done|reflexivity].
  cbn [replicate app].
  caller_runs (RL_sem a e (BodyI ty f)).
  caller_runs (RL_lock a e (BodyI ty f) (length sm)).
  unfold set_client, set_pool, set_clients, set_sems, set_data_lock.
  cbn [pool threads running jobs data_lock cv life sems clients log].
  rewrite !list_insert_insert_eq. cbn [induction_type].
  destruct (wrapping_loop c ch a e ty f (length sm) k Hs He (convert ty a) run ths q
              (Some (OClient c)) cvs lf (sm ++ [O])
              (<[c:=RL_loop a e (BodyI ty f) (length sm) (convert ty a)]> cl) lg)
    as (σ' & i' & H1 & H2 & H3 & H4 & H5);
    [done|by apply list_lookup_insert_eq|by apply unsigned_convert_range|].
  exists σ', i'. done.
Qed.

Lemma narrow_unsigned_loop_never_ends_witness :
  ∃ σ' i, exec Rev2 (LCall 0 (CRunLoop 0 300 (BodyI type_uint8_t 5%nat))
                     :: replicate 2 (LClient 0 0) ++ replicate 1000 (LClient 0 0))
               (init Rev2 1 1)
          = Some σ' ∧
          clients σ' !! 0%nat
          = Some (RL_loop 0 300 (BodyI type_uint8_t 5%nat)
                    (length (sems (init Rev2 1 1))) i) ∧
          data_lock (pool σ') = Some (OClient 0) ∧
          length (jobs (pool σ')) = (length (jobs (pool (init Rev2 1 1))) + 1000)%nat.
Proof.
  refine (narrow_unsigned_loop_never_ends 0 0 0 300 type_uint8_t 5%nat
            (init Rev2 1 1) 1000 _ _ _ _ _).
  - vm_compute. discriminate.
  - vm_compute. reflexivity.
  - vm_compute. reflexivity.
  - reflexivity.
  - vm_compute. reflexivity.
Defined.

(** ** The closures of [run_tasks] do not outlive the call *)

Lemma closure_inv_init r n k : closure_inv (init r n k).
Proof.
  rewrite init_unfold. split; simpl.
  - intros t s H. by apply elem_of_nil in H.
  - intros w pc t s Hl. by split_lookup.
Qed.

Lemma held_elem_of (l : list wpc) w pc j :
  l !! w = Some pc → held_job pc = Some j → j ∈ omap held_job l.
Proof.
  intros Hl Hh. apply list_elem_of_omap. exists pc. split; [|done].
  by eapply list_elem_of_lookup_2.
Qed.

Ltac keep_alive H :=
  let c0 := fresh "c0" in
  let pc0 := fresh "pc0" in
  let Hc0 := fresh "Hc0" in
  let Hrt := fresh "Hrt" in
  let Hs0 := fresh "Hs0" in
  destruct H as (c0 & pc0 & Hc0 & Hrt & Hs0);
  lazymatch goal with
  | |- ∃ c pc, <[?c1 := ?pc1]> _ !! c = Some pc ∧ _ =>
      destruct (decide (c1 = c0)) as [->|?];
      [ simplify_eq; simpl in *; try done;
        try (exists c0, pc1; split;
             [ apply list_lookup_insert_eq; by eapply lookup_lt_Some
             | by simplify_eq ])
      | exists c0, pc0; split; [by rewrite list_lookup_insert_ne | done] ]
  | |- _ => exists c0, pc0; done
  end.

Lemma on_sem_elem_of s j js : j ∈ js → job_sem j = Some s → j ∈ on_sem s js.
Proof. intros H1 H2. unfold on_sem. by apply list_elem_of_filter. Qed.

Lemma closure_inv_step r l σ σ' :
  (∀ c ts s, clients σ !! c = Some (RT_ret ts s) →
     on_sem s (jobs (pool σ)) = [] ∧ on_sem s (inflight σ) = []) →
  step r l σ = Some σ' → closure_inv σ → closure_inv σ'.
Proof.
  intros Hbar [_ H]%step_fire. revert Hbar. unfold inflight.
  fire_cases H; intros Hbar [C1 C2]; unfold sem_alive in *; simpl in *.
  all: split; simpl; [intros t0 s0 Hin | intros w0 pc0 t0 s0 Hl Hh].
  all: unfold sem_alive; simpl.
  (* where the closure was before the step *)
  all: try (apply elem_of_app in Hin as [Hin | Hin%list_elem_of_singleton]).
  all: try (split_lookup; simpl in *; simplify_eq).
  all: try (apply lookup_app_Some in Hl as [Hl | [_ Hl]];
            [|apply lookup_replicate_1 in Hl as [-> _]; done]).
  all: try (match goal with
            | Hq : JRun _ _ ∈ ?q, Hc : ∀ t s, JRun t s ∈ ?q → _ |- _ =>
                pose proof (Hc _ _ Hq) as A
            | Hq : JRun _ _ ∈ ?q, Hc : ∀ t s, JRun t s ∈ _ :: ?q → _ |- _ =>
                pose proof (Hc _ _ (list_elem_of_further _ _ _ Hq)) as A
            | Hw : _ !! _ = Some (WUnlock (JRun ?t ?s)) |- _ =>
                first [ pose proof (C2 _ _ _ _ Hw eq_refl) as A
                      | pose proof (C1 t s ltac:(left)) as A ]
            | Hw : _ !! _ = Some (WExec (JRun ?t ?s)) |- _ =>
                pose proof (C2 _ _ _ _ Hw eq_refl) as A
            | Hw : _ !! _ = Some (WRelease (JRun ?t ?s)) |- _ =>
                pose proof (C2 _ _ _ _ Hw eq_refl) as A
            | Hw : _ !! _ = Some ?pc, Hh : held_job ?pc = Some _ |- _ =>
                pose proof (C2 _ _ _ _ Hw Hh) as A
            | Hc : ∀ t s, JRun t s ∈ JRun ?t0 ?s0 :: _ → _ |- _ =>
                pose proof (Hc t0 s0 ltac:(left)) as A
            end).
  all: try (keep_alive A; fail).
  - (* the caller pushes a closure of its own *)
    eexists c, _. split; [apply list_lookup_insert_eq; by eapply lookup_lt_Some|].
    done.
  - (* the caller returns: nothing of its own is queued *)
    destruct A as (c0 & pc0 & Hc0 & Hrt & Hs0).
    destruct (decide (c = c0)) as [->|?].
    + exfalso. simplify_eq. simpl in Hs0. simplify_eq.
      destruct (Hbar _ _ _ Heqo) as [Hq _].
      pose proof (on_sem_elem_of s0 _ _ Hin eq_refl) as Hx.
      rewrite Hq in Hx. by apply elem_of_nil in Hx.
    + exists c0, pc0. split; [by rewrite list_lookup_insert_ne | done].
  - (* the caller returns: nothing of its own is with a worker *)
    destruct A as (c0 & pc0' & Hc0 & Hrt & Hs0).
    destruct (decide (c = c0)) as [->|?].
    + exfalso. simplify_eq. simpl in Hs0. simplify_eq.
      destruct (Hbar _ _ _ Heqo) as [_ Hq].
      pose proof (on_sem_elem_of s0 _ _ (held_elem_of _ _ _ _ Hl Hh) eq_refl) as Hx.
      rewrite Hq in Hx. by apply elem_of_nil in Hx.
    + exists c0, pc0'. split; [by rewrite list_lookup_insert_ne | done].
Qed.

Lemma run_tasks_barrier σ c ts s :
  reachable Rev2 σ → clients σ !! c = Some (RT_ret ts s) →
  on_sem s (jobs (pool σ)) = [] ∧ on_sem s (inflight σ) = [].
Proof.
  intros Hr Hc.
  pose proof (sem_inv_reachable _ _ Hr) as [_ _ _ _ B5 _ B7].
  destruct (B7 _ _ Hc) as [HP HA]. simpl in HP, HA.
  pose proof (B5 _ _ _ Hc eq_refl) as Hlt.
  destruct (semaphore_barrier Rev2 σ s (wrap s <$> ts) Hr Hlt HP)
    as (_ & _ & Hj & Hi & _); [by rewrite length_fmap|].
  done.
Qed.

Lemma closure_inv_reachable σ : reachable Rev2 σ → closure_inv σ.
Proof.
  induction 1 as [n k|σ l σ' Hr IH Hs]; [apply closure_inv_init|].
  eapply closure_inv_step; [|exact Hs|exact IH].
  intros c ts s Hc. by eapply run_tasks_barrier.
Qed.

(** X20.  The closures of [run_tasks] capture [task] and [sem] by
    reference; they do not outlive the call.  At every reachable state, a
    closure of [run_tasks] that is queued or held by a worker (taken, being
    invoked, or about to release) belongs to a caller that is still inside
    [run_tasks]: the caller's semaphore exists and the task is one of the
    tasks the caller was given. *)
Theorem run_tasks_closure_has_caller (σ : world) (t : callable) (s : nat) :
  reachable Rev2 σ →
  JRun t s ∈ jobs (pool σ) ++ inflight σ →
  ∃ c pc, clients σ !! c = Some pc ∧ in_run_tasks pc = true ∧
          sem_of pc = Some s ∧ t ∈ frame_tasks pc ∧
          (s < length (sems σ))%nat.
Proof.
  intros Hr Hin.
  pose proof (closure_inv_reachable σ Hr) as [C1 C2].
  pose proof (sem_inv_reachable _ _ Hr) as [_ _ _ _ B5 _ B7].
  pose proof (fifo_reachable _ _ Hr) as Hf. unfold fifo in Hf.
  pose proof (flight_inv_reachable _ _ Hr) as [Hp _].
  assert (A : sem_alive s σ).
  { apply elem_of_app in Hin as [Hin|Hin]; [by eapply C1|].
    unfold inflight in Hin. apply list_elem_of_omap in Hin as (pc & Hpc & Hh).
    apply list_elem_of_lookup in Hpc as [w Hw]. by eapply C2. }
  assert (Hpush : JRun t s ∈ on_sem s (pushes (log σ))).
  { apply on_sem_elem_of; [|done]. rewrite Hf.
    apply elem_of_app in Hin as [Hin|Hin]; apply elem_of_app; [by right|left].
    rewrite Hp. apply elem_of_app. by left. }
  destruct A as (c & pc & Hc & Hrt & Hs).
  exists c, pc. split; [done|]. split; [done|]. split; [done|].
  split; [|by eapply B5].
  pose proof (B7 _ _ Hc) as F.
  destruct pc; simpl in Hrt, Hs; try done; simplify_eq; simpl in *.
  - destruct F as [F _]. rewrite F in Hpush. by apply elem_of_nil in Hpush.
  - destruct F as [F _].
    assert (Hx : JRun t s ∈ wrap s <$> tasks).
    { rewrite <- F. apply elem_of_app. by left. }
    apply list_elem_of_fmap in Hx as (t' & [= ->] & Ht). done.
  - destruct F as [F _]. rewrite F in Hpush.
    apply list_elem_of_fmap in Hpush as (t' & [= ->] & Ht). done.
  - destruct F as [F _]. rewrite F in Hpush.
    apply list_elem_of_fmap in Hpush as (t' & [= ->] & Ht). done.
  - destruct F as [F _]. rewrite F in Hpush.
    apply list_elem_of_fmap in Hpush as (t' & [= ->] & Ht). done.
  - destruct F as [F _]. rewrite F in Hpush.
    apply list_elem_of_fmap in Hpush as (t' & [= ->] & Ht). done.
Qed.

Lemma run_tasks_closure_has_caller_witness :
  ∃ c pc, clients demo_world !! c = Some pc ∧ in_run_tasks pc = true ∧
          sem_of pc = Some 0%nat ∧ 8%nat ∈ frame_tasks pc ∧
          (0 < length (sems demo_world))%nat.
Proof.
  apply (run_tasks_closure_has_caller demo_world 8%nat 0%nat demo_reachable).
  vm_compute. left.
Defined.

(** ** The properties at sample runs *)

Lemma no_worker_reachable : reachable Rev2 no_worker_world.
Proof.
  apply (exec_reachable Rev2 no_worker_trace (init Rev2 0 1)).
  - apply reachable_init.
  - vm_compute. reflexivity.
Qed.

Lemma front_is_defined_witness :
  threads (pool (race_world Rev2)) !! 0%nat = Some WPop ∧
  ∃ σ', step Rev2 (LWorker 0) (race_world Rev2) = Some σ'.
Proof.
  assert (Hw : threads (pool (race_world Rev2)) !! 0%nat = Some WPop)
    by (vm_compute; reflexivity).
  split; [exact Hw|].
  exact (front_is_defined Rev2 (race_world Rev2) 0 (race_reachable Rev2) Hw).
Defined.

Lemma queued_job_finds_worker_witness :
  jobs (pool demo_world) = [JRun 8%nat 0] ∧
  ((∃ w pc, threads (pool demo_world) !! w = Some pc ∧ pc ≠ WExit ∧ pc ≠ WWait ∧
            w ∉ cv (pool demo_world)) ∨
   (∃ c pc, clients demo_world !! c = Some pc ∧ will_notify Rev2 pc = true)).
Proof.
  split; [vm_compute; reflexivity|].
  apply (queued_job_finds_worker Rev2 demo_world demo_reachable).
  - vm_compute. discriminate.
  - vm_compute. reflexivity.
  - vm_compute. discriminate.
Defined.

Lemma worker_drains_queue_witness :
  exec Rev1 (jobs (pool busy_world) ≫= serve_steps 0) busy_world
  = Some (after_jobs (jobs (pool busy_world)) busy_world) ∧
  invokes (log (after_jobs (jobs (pool busy_world)) busy_world))
  = invokes (log busy_world) ++ jobs (pool busy_world).
Proof.
  destruct (worker_drains_queue Rev1 busy_world 0) as (H1 & _ & H3 & _).
  - vm_compute. discriminate.
  - vm_compute. reflexivity.
  - vm_compute. reflexivity.
  - vm_compute. reflexivity.
  - vm_compute. repeat constructor; discriminate.
  - split; [exact H1 | exact H3].
Defined.

Lemma run_tasks_completes_witness :
  exec Rev2 (whole_run_tasks 0 0 WBlocked [7; 8]%nat) asleep_world
  = Some (after_run_tasks 0 [7; 8]%nat asleep_world) ∧
  calls (log (after_run_tasks 0 [7; 8]%nat asleep_world))
  = calls (log asleep_world) ++ ((λ t, (t, None)) <$> [7; 8]%nat) ∧
  threads (pool (after_run_tasks 0 [7; 8]%nat asleep_world)) !! 0%nat = Some WLoop ∧
  exec Rev2 (run_tasks_entry 0 [7; 8]%nat ++ [LClient 0 0]) asleep_world = None.
Proof.
  destruct (run_tasks_completes 0 0 WBlocked [7; 8]%nat asleep_world)
    as (H1 & _ & H3 & H4 & H5).
  - vm_compute. discriminate.
  - vm_compute. reflexivity.
  - vm_compute. reflexivity.
  - vm_compute. reflexivity.
  - vm_compute. reflexivity.
  - vm_compute. reflexivity.
  - reflexivity.
  - split; [exact H1|]. split; [exact H3|].
    split; [apply H4; discriminate | apply H5; discriminate].
Defined.

Lemma run_loop_in_range_witness :
  ∃ s ls1 ch ls2 σ1,
    loop_rest = ls1 ++ LClient 0 ch :: ls2 ∧
    exec Rev2 (LCall 0 (CRunLoop 3 5 (BodyI type_int 5%nat)) :: ls1) (init Rev2 1 1)
    = Some σ1 ∧
    clients σ1 !! 0%nat = Some (RL_ret 3 5 (BodyI type_int 5%nat) s) ∧
    acquired s (log σ1) = Z.to_nat (5 - 3) ∧
    on_sem s (invokes (log σ1)) ≡ₚ loop_jobs (BodyI type_int 5%nat) s 3 (5 - 3).
Proof.
  destruct (proj2 (proj2 (run_loop_in_range (init Rev2 1 1) 0 3 5
                            (BodyI type_int 5%nat) (reachable_init Rev2 1 1)
                            ltac:(vm_compute; split; discriminate)
                            ltac:(vm_compute; split; discriminate)))
              loop_rest loop_world_back)
    as (s & ls1 & ch & ls2 & σ1 & H1 & H2 & _ & H4 & _ & _ & _ & _ & H9 & _ & H11 & _).
  - vm_compute. reflexivity.
  - vm_compute. reflexivity.
  - vm_compute. reflexivity.
  - exists s, ls1, ch, ls2, σ1. repeat split; assumption.
Defined.

Lemma run_loop_completes_witness :
  exec Rev2 (whole_run_loop 0 0 WBlocked 3 5 (BodyI type_int 5%nat)) asleep_world
  = Some (after_run_loop 0 3 5 (BodyI type_int 5%nat) asleep_world) ∧
  exec Rev2 (run_loop_entry 0 3 5 (BodyI type_int 5%nat) ++ [LClient 0 0]) asleep_world
  = None.
Proof.
  destruct (run_loop_completes 0 0 WBlocked 3 5 (BodyI type_int 5%nat) asleep_world)
    as (H1 & _ & _ & _ & H5).
  - vm_compute. discriminate.
  - vm_compute. reflexivity.
  - vm_compute. reflexivity.
  - vm_compute. reflexivity.
  - vm_compute. reflexivity.
  - vm_compute. reflexivity.
  - reflexivity.
  - vm_compute. split; discriminate.
  - vm_compute. split; discriminate.
  - split; [exact H1 | apply H5; reflexivity].
Defined.

Lemma destructor_completes_witness :
  exec Rev1 (whole_dtor 0 (threads (pool busy_world))) busy_world
  = Some (after_dtor busy_world).
Proof.
  refine (destructor_completes Rev1 0 busy_world _ _ _ _).
  - vm_compute. reflexivity.
  - vm_compute. reflexivity.
  - vm_compute. reflexivity.
  - vm_compute. repeat constructor.
Defined.

Lemma destructor_can_hang_witness :
  ∃ σ1, exec Rev2 [LCall 0 CDestroy; LClient 0 0; LClient 0 0; LWorker 0]
             (wait_world Rev2) = Some σ1 ∧
        running (pool σ1) = false ∧
        threads (pool σ1) !! 0%nat = Some WBlocked ∧
        cv (pool σ1) = [0%nat] ∧
        clients σ1 !! 0%nat = Some (D_join 0) ∧
        ∀ ls σ2, forallb (undisturbed 0) ls = true → exec Rev2 ls σ1 = Some σ2 →
                 threads (pool σ2) !! 0%nat = Some WBlocked ∧
                 0%nat ∈ cv (pool σ2) ∧
                 life σ2 = Destroying ∧
                 ∃ k, clients σ2 !! 0%nat = Some (D_join k) ∧ (k ≤ 0)%nat.
Proof.
  refine (destructor_can_hang Rev2 (wait_world Rev2) 0 0 _ _ _ _).
  - vm_compute. reflexivity.
  - vm_compute. reflexivity.
  - vm_compute. reflexivity.
  - intros [|c'] pc H; vm_compute in H; [by simplify_eq | done].
Defined.

Lemma empty_pool_runs_nothing_witness :
  jobs (pool no_worker_world) = [JRun 7%nat 0] ∧
  clients no_worker_world !! 0%nat = Some (RT_acquire [7%nat] 0 0) ∧
  step Rev2 (LClient 0 0) no_worker_world = None.
Proof.
  assert (Hc : clients no_worker_world !! 0%nat = Some (RT_acquire [7%nat] 0 0))
    by (vm_compute; reflexivity).
  split; [vm_compute; reflexivity|]. split; [exact Hc|].
  destruct (empty_pool_runs_nothing Rev2 no_worker_world no_worker_reachable)
    as (_ & _ & _ & H & _).
  - vm_compute. reflexivity.
  - apply (H 0%nat 0%nat [7%nat] 0%nat 0%nat Hc). simpl. lia.
Defined.
